(** * Identity reconciliation: the contact graph of [identityService.ts]

    A shallow embedding of the identify pipeline (matching, link expansion,
    primary selection, merge, secondary creation, response projection) over
    an explicit model of the [contacts] table, followed by the properties
    proved about it. *)

From stdpp Require Import base decidable option list sorting gmap strings.
From Stdlib Require Import ZArith Lia.

Local Open Scope string_scope.
Local Open Scope Z_scope.
Local Open Scope list_scope.

Set Warnings "-clear-no-such-hyp".

(** ** Data model *)

(** [linkPrecedence] is a text column; the service only ever writes and
    compares the two literals below. *)
Inductive LinkPrecedence : Set := primary | secondary.

#[global] Instance LinkPrecedence_eq_dec : EqDecision LinkPrecedence.
Proof. solve_decision. Defined.

(** One row of the [contacts] table (migration.sql).  Timestamps are
    milliseconds since the epoch, [None] is SQL NULL. *)
Module Contact.
Record t : Set := mk {
  id : Z;
  phoneNumber : option string;
  email : option string;
  linkedId : option Z;
  linkPrecedence : LinkPrecedence;
  createdAt : Z;
  updatedAt : Z;
  deletedAt : option Z
}.
End Contact.

Abbreviation Contact := Contact.t.

#[global] Instance Contact_eq_dec : EqDecision Contact.
Proof. solve_decision. Defined.

Definition isPrimary (c : Contact) : Prop := Contact.linkPrecedence c = primary.

Definition isSecondary (c : Contact) : Prop :=
  Contact.linkPrecedence c = secondary.

#[global] Instance isPrimary_dec c : Decision (isPrimary c).
Proof. unfold isPrimary. apply _. Defined.

#[global] Instance isSecondary_dec c : Decision (isSecondary c).
Proof. unfold isSecondary. apply _. Defined.

(** The value of an optional request field as the service sees it at run
    time.  The signature says [email?: string]; the route handler passes the
    JSON body fields through unchanged, so a JSON [null] arrives as well. *)
Inductive Param : Set :=
| Undefined
| Null
| Str (s : string).

(** JavaScript truthiness of such a value: only a non-empty string counts. *)
Definition truthy (a : Param) : bool :=
  match a with
  | Str s => bool_decide (s ≠ "")
  | _ => false
  end.

(** [column === param] for a nullable text column against a request field. *)
Definition strictEq (column : option string) (a : Param) : bool :=
  match column, a with
  | None, Null => true
  | Some s, Str t => bool_decide (s = t)
  | _, _ => false
  end.

(** What Prisma stores for a field given as [a]: [undefined] leaves the
    column out, which makes it NULL. *)
Definition toColumn (a : Param) : option string :=
  match a with
  | Str s => Some s
  | _ => None
  end.

(** Truthiness of a nullable text column read back from the store. *)
Definition truthyColumn (v : option string) : bool :=
  match v with
  | Some s => bool_decide (s ≠ "")
  | None => false
  end.

(** [if (contact.linkedId)]: a nullable integer is truthy unless NULL or 0. *)
Definition truthyLink (l : option Z) : option Z :=
  match l with
  | Some i => if decide (i = 0) then None else Some i
  | None => None
  end.

(** ** The store *)

(** The table in physical order together with the next value of the
    [SERIAL] sequence behind [id].  The physical order is arbitrary; it is
    what a scan without a deciding [ORDER BY] key returns. *)
Record Store : Set := mkStore {
  rows : list Contact;
  nextId : Z
}.

(** [orderBy: { createdAt: 'asc' }].  Rows with equal [createdAt] stay in
    the order the scan produced them (a stable insertion sort). *)
Fixpoint insertByCreatedAt (x : Contact) (l : list Contact) : list Contact :=
  match l with
  | [] => [x]
  | y :: l' =>
      if decide (Contact.createdAt x ≤ Contact.createdAt y)
      then x :: y :: l'
      else y :: insertByCreatedAt x l'
  end.

Definition sortByCreatedAt (l : list Contact) : list Contact :=
  foldr insertByCreatedAt [] l.

Definition notDeleted (c : Contact) : Prop := Contact.deletedAt c = None.

#[global] Instance notDeleted_dec c : Decision (notDeleted c).
Proof. unfold notDeleted. apply _. Defined.

(** [prisma.contact.findMany({ where, orderBy: { createdAt: 'asc' } })]. *)
Definition findManyOrdered (db : Store) (P : Contact → Prop)
    `{!∀ c, Decision (P c)} : list Contact :=
  sortByCreatedAt (filter P (rows db)).

(** [prisma.contact.findMany({ where })] without an ordering. *)
Definition findMany (db : Store) (P : Contact → Prop)
    `{!∀ c, Decision (P c)} : list Contact :=
  filter P (rows db).

(** [prisma.contact.findUnique({ where: { id } })]: no [deletedAt] filter. *)
Definition findUnique (db : Store) (i : Z) : option Contact :=
  head (filter (λ c, Contact.id c = i) (rows db)).

(** [prisma.contact.create]: the sequence assigns [id], the clock reading
    [now] of the request goes to [createdAt] and [updatedAt], [deletedAt]
    stays NULL. *)
Definition create (now : Z) (db : Store) (email phoneNumber : Param)
    (link : option Z) (prec : LinkPrecedence) : Store * Contact :=
  let c := Contact.mk (nextId db) (toColumn phoneNumber) (toColumn email)
             link prec now now None in
  (mkStore (rows db ++ [c]) (nextId db + 1), c).

(** The row written by the [update] of a demoted primary (lines 189-196). *)
Definition demote (now : Z) (survivor : Z) (c : Contact) : Contact :=
  Contact.mk (Contact.id c) (Contact.phoneNumber c) (Contact.email c)
    (Some survivor) secondary (Contact.createdAt c) now (Contact.deletedAt c).

(** The row written by the [updateMany] on its dependents (lines 199-202).
    [updatedAt] has no default in migration.sql: the client refreshes it on
    every write. *)
Definition repoint (now : Z) (survivor : Z) (c : Contact) : Contact :=
  Contact.mk (Contact.id c) (Contact.phoneNumber c) (Contact.email c)
    (Some survivor) (Contact.linkPrecedence c) (Contact.createdAt c) now
    (Contact.deletedAt c).

(** [prisma.contact.update({ where: { id }, data })], called on ids read
    from the table. *)
Definition update (db : Store) (i : Z) (f : Contact → Contact) : Store :=
  mkStore ((λ c, if decide (Contact.id c = i) then f c else c) <$> rows db)
    (nextId db).

(** [prisma.contact.updateMany({ where: { linkedId }, data })]. *)
Definition updateMany (db : Store) (l : Z) (f : Contact → Contact) : Store :=
  mkStore
    ((λ c, if decide (Contact.linkedId c = Some l) then f c else c)
       <$> rows db)
    (nextId db).

(** ** Matcher (identifyContact, lines 20-31) *)

Inductive Clause : Set :=
| EmailIs (s : string)
| PhoneIs (s : string).

(** The [OR] array after the empty objects have been filtered out. *)
Definition orClauses (email phoneNumber : Param) : list Clause :=
  (match email with
   | Str s => if truthy email then [EmailIs s] else []
   | _ => []
   end) ++
  (match phoneNumber with
   | Str s => if truthy phoneNumber then [PhoneIs s] else []
   | _ => []
   end).

Definition clauseHolds (c : Contact) (k : Clause) : Prop :=
  match k with
  | EmailIs s => Contact.email c = Some s
  | PhoneIs s => Contact.phoneNumber c = Some s
  end.

#[global] Instance clauseHolds_dec c k : Decision (clauseHolds c k).
Proof. destruct k; simpl; apply _. Defined.

(** An empty [OR] selects no row. *)
Definition matchWhere (email phoneNumber : Param) (c : Contact) : Prop :=
  Exists (clauseHolds c) (orClauses email phoneNumber) ∧ notDeleted c.

#[global] Instance matchWhere_dec e p c : Decision (matchWhere e p c).
Proof. unfold matchWhere. apply _. Defined.

(** ** GraphExpander (getAllRelatedContacts, lines 82-125) *)

(** The array [toProcess] is kept with its last element at the head, so
    [push] is a cons and [pop] takes the head. *)
Definition pushAll (xs : list Contact) (stack : list Contact) : list Contact :=
  foldl (λ st x, x :: st) stack xs.

(** Lines 96-114: what visiting [contact] pushes on [toProcess], given the
    set [processed] that already contains its id. *)
Definition visit (db : Store) (contact : Contact) (processed : gset Z)
    (rest : list Contact) : list Contact :=
  let afterPrimary :=
    match truthyLink (Contact.linkedId contact) with
    | Some l =>
        match findUnique db l with
        | Some p => if decide (Contact.id p ∈ processed) then rest else p :: rest
        | None => rest
        end
    | None => rest
    end in
  if decide (isPrimary contact)
  then
    pushAll
      (filter (λ s, Contact.id s ∉ processed)
         (findMany db
            (λ s, Contact.linkedId s = Some (Contact.id contact)
                  ∧ notDeleted s)))
      afterPrimary
  else afterPrimary.

(** One round of the [while] loop per unit of fuel.  [None] means the fuel
    ran out before [toProcess] was empty. *)
Fixpoint expand (fuel : nat) (db : Store) (toProcess : list Contact)
    (processed contactIds : gset Z) : option (gset Z) :=
  match fuel with
  | O => None
  | S fuel' =>
      match toProcess with
      | [] => Some contactIds
      | contact :: rest =>
          if decide (Contact.id contact ∈ processed)
          then expand fuel' db rest processed contactIds
          else
            let processed' := processed ∪ {[Contact.id contact]} in
            expand fuel' db (visit db contact processed' rest) processed'
              (contactIds ∪ {[Contact.id contact]})
      end
  end.

(** Fuel that always suffices (see [expand_enough_fuel]). *)
Definition expandFuel (db : Store) (matches : list Contact) : nat :=
  S (length matches
     + (length (rows db) + length matches) * (length (rows db) + 2)).

(** The ids collected by the loop, started as the code starts it. *)
Definition collectIds (db : Store) (matches : list Contact)
    : option (gset Z) :=
  expand (expandFuel db matches) db (reverse matches) ∅ ∅.

Definition getAllRelatedContacts (db : Store) (matches : list Contact)
    : list Contact :=
  match matches with
  | [] => []
  | _ =>
      match collectIds db matches with
      | Some contactIds =>
          findManyOrdered db
            (λ c, Contact.id c ∈ contactIds ∧ notDeleted c)
      | None => []
      end
  end.

(** ** PrimarySelector (getUniquePrimaries, lines 128-140) *)

(** [Map.prototype.set]: a key already present keeps its position and gets
    the new value, a new key goes to the end. *)
Fixpoint mapSet (k : Z) (v : Contact) (m : list (Z * Contact))
    : list (Z * Contact) :=
  match m with
  | [] => [(k, v)]
  | (k', v') :: m' =>
      if decide (k' = k) then (k, v) :: m' else (k', v') :: mapSet k v m'
  end.

Definition primaryMap (contacts : list Contact) : list (Z * Contact) :=
  foldl
    (λ m c,
       if decide (isPrimary c)
       then mapSet (Contact.id c) c m
       else m)
    [] contacts.

(** [Array.prototype.sort] is stable and the comparator looks at
    [createdAt] only. *)
Definition getUniquePrimaries (contacts : list Contact) : list Contact :=
  sortByCreatedAt (snd <$> primaryMap contacts).

(** ** SecondaryCreator (shouldCreateSecondary, lines 143-169) *)

Definition shouldCreateSecondary (family : list Contact)
    (email phoneNumber : Param) : bool :=
  let exactMatch :=
    existsb
      (λ c, strictEq (Contact.email c) email
            && strictEq (Contact.phoneNumber c) phoneNumber)
      family in
  if exactMatch then false
  else
    let hasEmail := existsb (λ c, strictEq (Contact.email c) email) family in
    let hasPhone :=
      existsb (λ c, strictEq (Contact.phoneNumber c) phoneNumber) family in
    if truthy email && truthy phoneNumber
    then negb hasEmail || negb hasPhone
    else if truthy email && negb hasEmail then true
    else if truthy phoneNumber && negb hasPhone then true
    else false.

(** ** ResponseBuilder (buildResponse, lines 236-266) *)

Record IdentifyResponse : Set := mkResponse {
  primaryContactId : Z;
  emails : list string;
  phoneNumbers : list string;
  secondaryContactIds : list Z
}.

(** [if (v && !acc.includes(v)) acc.push(v)]. *)
Definition pushNew (acc : list string) (v : option string) : list string :=
  match v with
  | Some s =>
      if truthyColumn v && bool_decide (s ∉ acc) then acc ++ [s] else acc
  | None => acc
  end.

(** [if (v) acc.push(v)] on the empty array. *)
Definition pushTruthy (v : option string) : list string :=
  match v with
  | Some s => if truthyColumn v then [s] else []
  | None => []
  end.

(** [None] stands for the [TypeError] raised by [primary.email] when
    [find] returned [undefined]. *)
Definition buildResponse (contacts : list Contact) : option IdentifyResponse :=
  match head (filter isPrimary contacts) with
  | None => None
  | Some p =>
      let secondaries := filter isSecondary contacts in
      Some
        (mkResponse (Contact.id p)
           (foldl pushNew (pushTruthy (Contact.email p))
              (Contact.email <$> secondaries))
           (foldl pushNew (pushTruthy (Contact.phoneNumber p))
              (Contact.phoneNumber <$> secondaries))
           (Contact.id <$> secondaries))
  end.

(** ** Merger (mergePrimaries, lines 172-233) *)

(** [primaries.reduce((oldest, current) => current.createdAt <
    oldest.createdAt ? current : oldest)]; on an empty array [reduce]
    throws, which is [None] here. *)
Definition oldestOf (primaries : list Contact) : option Contact :=
  match primaries with
  | [] => None
  | p :: ps =>
      Some
        (foldl
           (λ oldest current,
              if decide (Contact.createdAt current < Contact.createdAt oldest)
              then current else oldest)
           p ps)
  end.

(** The statements the [for] loop sends to the store, in order.  Each one
    is a Prisma call of its own; there is no enclosing transaction. *)
Inductive Write : Set :=
| Demote (target survivor : Z)
| Repoint (oldLink survivor : Z).

Definition execWrite (now : Z) (db : Store) (w : Write) : Store :=
  match w with
  | Demote i o => update db i (demote now o)
  | Repoint i o => updateMany db i (repoint now o)
  end.

Definition mergeWrites (survivor : Z) (otherPrimaries : list Contact)
    : list Write :=
  flat_map
    (λ p, [Demote (Contact.id p) survivor; Repoint (Contact.id p) survivor])
    otherPrimaries.

Definition familyWhere (i : Z) (c : Contact) : Prop :=
  (Contact.id c = i ∨ Contact.linkedId c = Some i) ∧ notDeleted c.

#[global] Instance familyWhere_dec i c : Decision (familyWhere i c).
Proof. unfold familyWhere. apply _. Defined.

Definition mergePrimaries (now : Z) (db : Store)
    (primaries allContacts : list Contact) (email phoneNumber : Param)
    : Store * option IdentifyResponse :=
  match oldestOf primaries with
  | None => (db, None)
  | Some oldestPrimary =>
      let otherPrimaries :=
        filter (λ p, Contact.id p ≠ Contact.id oldestPrimary) primaries in
      let db1 :=
        foldl (execWrite now) db
          (mergeWrites (Contact.id oldestPrimary) otherPrimaries) in
      let updatedFamily :=
        findManyOrdered db1 (familyWhere (Contact.id oldestPrimary)) in
      if shouldCreateSecondary updatedFamily email phoneNumber
      then
        let '(db2, newSecondary) :=
          create now db1 email phoneNumber
            (Some (Contact.id oldestPrimary)) secondary in
        (db2, buildResponse (updatedFamily ++ [newSecondary]))
      else (db1, buildResponse updatedFamily)
  end.

(** ** Orchestration (identifyContact, lines 14-79) *)

Definition identifyContact (now : Z) (db : Store) (email phoneNumber : Param)
    : Store * option IdentifyResponse :=
  let matches := findManyOrdered db (matchWhere email phoneNumber) in
  let allRelatedContacts := getAllRelatedContacts db matches in
  let primaries := getUniquePrimaries allRelatedContacts in
  match primaries with
  | [] =>
      let '(db1, newContact) :=
        create now db email phoneNumber None primary in
      (db1, buildResponse [newContact])
  | [p] =>
      let family :=
        filter
          (λ c, Contact.id c = Contact.id p
                ∨ Contact.linkedId c = Some (Contact.id p))
          allRelatedContacts in
      if shouldCreateSecondary family email phoneNumber
      then
        let '(db1, newSecondary) :=
          create now db email phoneNumber (Some (Contact.id p)) secondary in
        (db1, buildResponse (family ++ [newSecondary]))
      else (db, buildResponse family)
  | _ => mergePrimaries now db primaries allRelatedContacts email phoneNumber
  end.

(** ** Predicates used in the statements *)

(** *** SecondaryCreator, in the words of the specification *)

(** A request field is supplied when it is a non-empty string. *)
Definition supplied (a : Param) : Prop := truthy a = true.

(** Field-for-field equality of a stored column with a request field: a
    supplied field equals the column holding the same string, an absent
    field equals an absent column only. *)
Definition fieldEquals (column : option string) (a : Param) : Prop :=
  match a with
  | Str s => if truthy a then column = Some s else column = None
  | _ => column = None
  end.

Definition hasExactPair (family : list Contact) (email phoneNumber : Param)
    : Prop :=
  ∃ c, c ∈ family
       ∧ fieldEquals (Contact.email c) email
       ∧ fieldEquals (Contact.phoneNumber c) phoneNumber.

Definition emailAppears (family : list Contact) (email : Param) : Prop :=
  ∃ c s, c ∈ family ∧ email = Str s ∧ Contact.email c = Some s.

Definition phoneAppears (family : list Contact) (phoneNumber : Param) : Prop :=
  ∃ c s, c ∈ family ∧ phoneNumber = Str s ∧ Contact.phoneNumber c = Some s.

(** *** ResponseBuilder, in the words of the specification *)

(** A list of values with later repetitions removed. *)
Fixpoint firstOccurrences (l : list string) : list string :=
  match l with
  | [] => []
  | x :: l' => x :: filter (λ y, y ≠ x) (firstOccurrences l')
  end.

(** The values of a column over a list of contacts, NULLs skipped. *)
Definition nonNull (field : Contact → option string) (l : list Contact)
    : list string :=
  omap field l.

(** The same with empty strings skipped as well. *)
Definition nonEmpty (field : Contact → option string) (l : list Contact)
    : list string :=
  filter (λ s, s ≠ "") (omap field l).

Definition createdAtLe (a b : Contact) : Prop :=
  Contact.createdAt a ≤ Contact.createdAt b.

(** *** PrimarySelector, in the words of the specification *)

(** Ascending [createdAt], ascending [id] among equal timestamps. *)
Definition seniorityLe (a b : Contact) : Prop :=
  Contact.createdAt a < Contact.createdAt b
  ∨ (Contact.createdAt a = Contact.createdAt b
     ∧ Contact.id a ≤ Contact.id b).

#[global] Instance seniorityLe_dec a b : Decision (seniorityLe a b).
Proof. unfold seniorityLe. apply _. Defined.

(** ** Sample stores and families *)

Definition emptyStore : Store := mkStore [] 1.

Definition aliceFamily : list Contact :=
  [Contact.mk 1 (Some "123") (Some "a@x.com") None primary 10 10 None].


Definition store2 : Store :=
  mkStore [Contact.mk 1 (Some "123") (Some "a@x.com") None primary 10 10 None] 2.

Definition store3 : Store :=
  mkStore
    [Contact.mk 1 None (Some "a@x.com") None primary 10 10 None;
     Contact.mk 2 (Some "999") None None primary 20 20 None] 3.

Definition emptyEmailFamily : list Contact :=
  [Contact.mk 1 (Some "123") (Some "") None primary 100 100 None].

Definition threeFamily : list Contact :=
  [Contact.mk 1 (Some "123") (Some "a@x.com") None primary 10 10 None;
   Contact.mk 2 (Some "123") (Some "b@x.com") (Some 1) secondary 20 20 None;
   Contact.mk 3 (Some "456") (Some "a@x.com") (Some 1) secondary 30 30 None].

(** The non-empty value of a column, as a list of at most one string. *)
Definition present (v : option string) : list string :=
  filter (λ s, s ≠ "") (option_list v).

(** Two primaries created in the same millisecond, the younger id first in
    the scan order of the table. *)
Definition tiedSecond : Contact :=
  Contact.mk 2 None (Some "b@x.com") None primary 10 10 None.

Definition tiedFirst : Contact :=
  Contact.mk 1 (Some "111") None None primary 10 10 None.

Definition tiedStore : Store := mkStore [tiedSecond; tiedFirst] 3.

(** *** The data-model invariants *)

(** [PRIMARY KEY ("id")]. *)
Definition primaryKey (db : Store) : Prop := NoDup (Contact.id <$> rows db).

(** Ids come from the [SERIAL] sequence, which starts at 1. *)
Definition serialIds (db : Store) : Prop :=
  0 < nextId db ∧ ∀ c, c ∈ rows db → 0 < Contact.id c < nextId db.

(** [linkedId] is present on secondary records only. *)
Definition linksOnSecondariesOnly (db : Store) : Prop :=
  ∀ c, c ∈ rows db → isPrimary c → Contact.linkedId c = None.

(** Invariant 1: every secondary's [linkedId] resolves to a non-deleted
    primary. *)
Definition invariant1 (db : Store) : Prop :=
  ∀ c, c ∈ rows db → isSecondary c →
       ∃ p, p ∈ rows db ∧ Contact.linkedId c = Some (Contact.id p)
            ∧ isPrimary p ∧ notDeleted p.

(** Invariant 2: no contact references a secondary via [linkedId]. *)
Definition invariant2 (db : Store) : Prop :=
  ∀ c d, c ∈ rows db → d ∈ rows db →
         Contact.linkedId c = Some (Contact.id d) → ¬ isSecondary d.

(** Two rows are linked when one references the other. *)
Definition linked (db : Store) (c d : Contact) : Prop :=
  c ∈ rows db ∧ d ∈ rows db
  ∧ (Contact.linkedId c = Some (Contact.id d)
     ∨ Contact.linkedId d = Some (Contact.id c)).

(** Membership of one connected component. *)
Definition connected (db : Store) : relation Contact := rtc (linked db).

(** Invariant 3: within any connected component exactly one record is a
    primary. *)
Definition invariant3 (db : Store) : Prop :=
  ∀ c, c ∈ rows db →
       ∃ p, (p ∈ rows db ∧ connected db c p ∧ isPrimary p)
            ∧ ∀ q, q ∈ rows db → connected db c q → isPrimary q → q = p.

Record DataModel (db : Store) : Prop := mkDataModel {
  dm_key : primaryKey db;
  dm_serial : serialIds db;
  dm_links : linksOnSecondariesOnly db;
  dm_inv1 : invariant1 db;
  dm_inv2 : invariant2 db;
  dm_inv3 : invariant3 db
}.

(** The part of the data model from which the rest follows. *)
Record Consistent (db : Store) : Prop := mkConsistent {
  cons_key : primaryKey db;
  cons_serial : serialIds db;
  cons_links : linksOnSecondariesOnly db;
  cons_inv1 : invariant1 db
}.

(** The id of the primary a row belongs to in a consistent store. *)
Definition rootId (c : Contact) : Z :=
  default (Contact.id c) (Contact.linkedId c).

(** What one round of the merge loop (both statements) does to a row. *)
Definition mergeRow (now : Z) (survivor target : Z) (c : Contact) : Contact :=
  let c1 :=
    if decide (Contact.id c = target) then demote now survivor c else c in
  if decide (Contact.linkedId c1 = Some target) then repoint now survivor c1
  else c1.

(** One round of the merge loop: the [update] of the demoted primary
    followed by the [updateMany] on its dependents. *)
Definition mergeStep (now survivor : Z) (db : Store) (p : Contact) : Store :=
  execWrite now
    (execWrite now db (Demote (Contact.id p) survivor))
    (Repoint (Contact.id p) survivor).

(** A checkable form of [Consistent], for concrete stores. *)
Definition consistentCheck (db : Store) : Prop :=
  NoDup (Contact.id <$> rows db)
  ∧ 0 < nextId db
  ∧ Forall
      (λ c, (0 < Contact.id c < nextId db)
            ∧ (isPrimary c → Contact.linkedId c = None)
            ∧ (isSecondary c →
               Exists
                 (λ p, Contact.linkedId c = Some (Contact.id p)
                       ∧ isPrimary p ∧ notDeleted p)
                 (rows db)))
      (rows db).

#[global] Instance consistentCheck_dec db : Decision (consistentCheck db).
Proof. unfold consistentCheck. apply _. Defined.

(** *** Failure in the middle of a merge *)

(** The store left behind when the loop of [mergePrimaries] is aborted by
    the rejection of the statement that follows the first [k]: every
    earlier statement has already been committed by the store. *)
Definition mergeInterrupted (now : Z) (db : Store) (survivor : Z)
    (otherPrimaries : list Contact) (k : nat) : Store :=
  foldl (execWrite now) db (take k (mergeWrites survivor otherPrimaries)).

(** Primary 1, and primary 2 with its secondary 3. *)
Definition bobPrimary : Contact :=
  Contact.mk 2 (Some "999") None None primary 20 20 None.

Definition mergeStore : Store :=
  mkStore
    [Contact.mk 1 None (Some "a@x.com") None primary 10 10 None;
     bobPrimary;
     Contact.mk 3 (Some "999") (Some "b@x.com") (Some 2) secondary 30 30 None]
    4.

(** A tombstoned primary whose two secondaries are still live. *)
Definition tombstonedPrimary : Contact :=
  Contact.mk 1 None (Some "p@x.com") None primary 10 10 (Some 50).

Definition liveSecondaryA : Contact :=
  Contact.mk 2 None (Some "a@x.com") (Some 1) secondary 20 20 None.

Definition liveSecondaryB : Contact :=
  Contact.mk 3 None (Some "b@x.com") (Some 1) secondary 30 30 None.

Definition tombstoneStore : Store :=
  mkStore [tombstonedPrimary; liveSecondaryA; liveSecondaryB] 4.

(** *** GraphExpander, in the words of the specification *)






(** *** What one turn of the loop discovers (lines 96-114) *)

(** The contacts one turn of the [while] loop pushes when it processes [c]:
    the row [findUnique] returns for a [linkedId] that passes the test
    [if (contact.linkedId)], and, when [c] is a primary, the rows the
    [findMany] on [linkedId] returns. *)
Definition linkStep (db : Store) (c d : Contact) : Prop :=
  (∃ l, truthyLink (Contact.linkedId c) = Some l ∧ findUnique db l = Some d)
  ∨ (isPrimary c ∧ d ∈ rows db
     ∧ Contact.linkedId d = Some (Contact.id c) ∧ notDeleted d).

(** The contacts the loop comes to push, started from [seeds]. *)
Definition reachable (db : Store) (seeds : list Contact) (c : Contact) : Prop :=
  ∃ s, s ∈ seeds ∧ rtc (linkStep db) s c.

(** The ids the traversal can ever meet. *)
Definition universe (db : Store) (matches : list Contact) : gset Z :=
  list_to_set ((Contact.id <$> rows db) ++ (Contact.id <$> matches)).

(** Two contacts that link to each other. *)
Definition cyclicStore : Store :=
  mkStore
    [Contact.mk 1 None (Some "a@x.com") (Some 2) primary 10 10 None;
     Contact.mk 2 (Some "999") None (Some 1) primary 20 20 None;
     Contact.mk 3 (Some "555") None None primary 30 30 None]
    4.

(** What holds of [toProcess], [processed] and [contactIds] at the head of
    the [while] loop started from [seeds]. *)
Record ExpandInv (db : Store) (seeds toProcess : list Contact)
    (processed contactIds : gset Z) : Prop := mkExpandInv {
  inv_ids : contactIds = processed;
  inv_stack :
    ∀ c, c ∈ toProcess → c ∈ rows db ∧ reachable db seeds c;
  inv_sound :
    ∀ i, i ∈ processed →
         ∃ c, c ∈ rows db ∧ Contact.id c = i ∧ reachable db seeds c;
  inv_seeds :
    ∀ s, s ∈ seeds → Contact.id s ∈ processed ∨ s ∈ toProcess;
  inv_closed :
    ∀ c d, c ∈ rows db → Contact.id c ∈ processed → linkStep db c d →
           Contact.id d ∈ processed ∨ d ∈ toProcess
}.

(** What the whole merge loop does to a row. *)
Definition mergeRows (now survivor : Z) (otherPrimaries : list Contact)
    (c : Contact) : Contact :=
  foldl (λ c p, mergeRow now survivor (Contact.id p) c) c otherPrimaries.

(** Two families that a request for [a@x.com] and [999] brings together. *)
Definition olderPrimary : Contact :=
  Contact.mk 1 (Some "111") (Some "a@x.com") None primary 10 10 None.

Definition olderSecondary : Contact :=
  Contact.mk 2 (Some "111") (Some "a2@x.com") (Some 1) secondary 15 15 None.

Definition youngerPrimary : Contact :=
  Contact.mk 3 (Some "999") (Some "b@x.com") None primary 20 20 None.

Definition youngerSecondary : Contact :=
  Contact.mk 4 (Some "999") (Some "b2@x.com") (Some 3) secondary 25 25 None.

Definition twoFamilies : Store :=
  mkStore [olderPrimary; olderSecondary; youngerPrimary; youngerSecondary] 5.

(** The contact [prisma.contact.create] builds for a request. *)
Definition newContact (now : Z) (db : Store) (email phoneNumber : Param)
    (link : option Z) (prec : LinkPrecedence) : Contact :=
  (create now db email phoneNumber link prec).2.

(** Two versions of contact 1 and a secondary, as a caller may pass them. *)
Definition staleList : list Contact :=
  [Contact.mk 1 None (Some "old@x.com") None primary 10 10 None;
   Contact.mk 2 None (Some "b@x.com") (Some 1) secondary 20 20 None;
   Contact.mk 1 None (Some "new@x.com") None primary 10 30 None].

(** The live members of the family of the primary with id [o]. *)
Definition familyOf (db : Store) (o : Z) (c : Contact) : Prop :=
  c ∈ rows db ∧ notDeleted c
  ∧ (Contact.id c = o ∨ Contact.linkedId c = Some o).

#[global] Instance Param_eq_dec : EqDecision Param.
Proof. solve_decision. Defined.

(** A family whose secondary carries a [createdAt] later than the clock
    reading of the next request. *)
Definition lateSecondary : Contact :=
  Contact.mk 2 (Some "222") (Some "a@x.com") (Some 1) secondary 20 20 None.

Definition lateStore : Store :=
  mkStore
    [Contact.mk 1 (Some "111") (Some "a@x.com") None primary 10 10 None;
     lateSecondary]
    3.

(** * Properties *)

(** ** The worked examples of the specification *)

Example example1 :
  snd (identifyContact 100 emptyStore (Str "a@x.com") Undefined)
  = Some (mkResponse 1 ["a@x.com"] [] []).
Proof. vm_compute. reflexivity. Qed.

Example example2 :
  snd (identifyContact 100 store2 (Str "a@x.com") (Str "999"))
  = Some (mkResponse 1 ["a@x.com"] ["123"; "999"] [2]).
Proof. vm_compute. reflexivity. Qed.

Example example3 :
  identifyContact 100 store3 (Str "a@x.com") (Str "999")
  = (mkStore
       [Contact.mk 1 None (Some "a@x.com") None primary 10 10 None;
        Contact.mk 2 (Some "999") None (Some 1) secondary 20 100 None] 3,
     Some (mkResponse 1 ["a@x.com"] ["999"] [2])).
Proof. vm_compute. reflexivity. Qed.

(** ** Basic facts about lists *)

Lemma existsb_elem_of {A} (f : A → bool) (l : list A) :
  existsb f l = true ↔ ∃ x, x ∈ l ∧ f x = true.
Proof.
  induction l as [|a l IH]; simpl.
  - split; [discriminate|]. intros (x & Hx & _). inversion Hx.
  - rewrite orb_true_iff, IH. split.
    + intros [Ha|(x & Hx & Hf)]; [exists a|exists x]; split; auto; constructor; done.
    + intros (x & Hx & Hf). apply elem_of_cons in Hx as [->|Hx]; eauto.
Qed.

Lemma existsb_false_elem_of {A} (f : A → bool) (l : list A) :
  existsb f l = false ↔ ∀ x, x ∈ l → f x = false.
Proof.
  rewrite <- not_true_iff_false, existsb_elem_of. split.
  - intros H x Hx. apply not_true_iff_false. intros Hf. apply H. eauto.
  - intros H (x & Hx & Hf). rewrite (H x Hx) in Hf. discriminate.
Qed.

(** ** SecondaryCreator *)

Lemma strictEq_supplied column a :
  supplied a → strictEq column a = true ↔ ∃ s, a = Str s ∧ column = Some s.
Proof.
  unfold supplied. destruct a as [| |s]; simpl; try discriminate.
  intros _. destruct column as [t|]; simpl.
  - rewrite bool_decide_eq_true. split.
    + intros ->. eauto.
    + intros (s' & [= ->] & [= ->]). done.
  - split; [discriminate|]. intros (s' & _ & ?). discriminate.
Qed.

(** The exact-match test never changes the outcome: the function is the
    disjunction of the two "supplied and new" tests. *)
Lemma shouldCreateSecondary_normal family email phoneNumber :
  shouldCreateSecondary family email phoneNumber
  = (truthy email
     && negb (existsb (λ c, strictEq (Contact.email c) email) family))
    || (truthy phoneNumber
        && negb (existsb (λ c, strictEq (Contact.phoneNumber c) phoneNumber)
                   family)).
Proof.
  unfold shouldCreateSecondary.
  destruct (existsb (λ c, strictEq (Contact.email c) email
                          && strictEq (Contact.phoneNumber c) phoneNumber)
              family) eqn:Hex.
  - apply existsb_elem_of in Hex as (c & Hc & Hb).
    apply andb_true_iff in Hb as [He Hp].
    assert (existsb (λ c, strictEq (Contact.email c) email) family = true)
      as -> by (apply existsb_elem_of; eauto).
    assert (existsb (λ c, strictEq (Contact.phoneNumber c) phoneNumber) family
            = true) as -> by (apply existsb_elem_of; eauto).
    simpl. by rewrite !andb_false_r.
  - destruct (truthy email), (truthy phoneNumber),
      (existsb (λ c, strictEq (Contact.email c) email) family),
      (existsb (λ c, strictEq (Contact.phoneNumber c) phoneNumber) family);
      reflexivity.
Qed.

Lemma hasEmail_appears family email :
  supplied email →
  existsb (λ c, strictEq (Contact.email c) email) family = true
  ↔ emailAppears family email.
Proof.
  intros Hs. rewrite existsb_elem_of. unfold emailAppears. split.
  - intros (c & Hc & Heq). apply strictEq_supplied in Heq as (s & -> & ?); eauto.
  - intros (c & s & Hc & -> & Hcol). exists c. split; [done|].
    apply strictEq_supplied; eauto.
Qed.

Lemma hasPhone_appears family phoneNumber :
  supplied phoneNumber →
  existsb (λ c, strictEq (Contact.phoneNumber c) phoneNumber) family = true
  ↔ phoneAppears family phoneNumber.
Proof.
  intros Hs. rewrite existsb_elem_of. unfold phoneAppears. split.
  - intros (c & Hc & Heq). apply strictEq_supplied in Heq as (s & -> & ?); eauto.
  - intros (c & s & Hc & -> & Hcol). exists c. split; [done|].
    apply strictEq_supplied; eauto.
Qed.

Lemma shouldCreateSecondary_true_iff family email phoneNumber :
  shouldCreateSecondary family email phoneNumber = true
  ↔ (supplied email ∧ ¬ emailAppears family email)
    ∨ (supplied phoneNumber ∧ ¬ phoneAppears family phoneNumber).
Proof.
  rewrite shouldCreateSecondary_normal, orb_true_iff, !andb_true_iff,
    !negb_true_iff.
  split.
  - intros [[Hs Hn]|[Hs Hn]].
    + left. split; [done|]. rewrite <- hasEmail_appears by done. by rewrite Hn.
    + right. split; [done|]. rewrite <- hasPhone_appears by done.
      by rewrite Hn.
  - intros [[Hs Hn]|[Hs Hn]].
    + left. split; [done|]. apply not_true_iff_false.
      by rewrite hasEmail_appears.
    + right. split; [done|]. apply not_true_iff_false.
      by rewrite hasPhone_appears.
Qed.

Lemma fieldEquals_supplied column a :
  supplied a → fieldEquals column a → ∃ s, a = Str s ∧ column = Some s.
Proof.
  unfold supplied, fieldEquals. destruct a as [| |s]; try discriminate.
  intros ->. eauto.
Qed.

Lemma shouldCreateSecondary_exact family email phoneNumber :
  hasExactPair family email phoneNumber →
  shouldCreateSecondary family email phoneNumber = false.
Proof.
  intros (c & Hc & He & Hp). apply not_true_iff_false.
  rewrite shouldCreateSecondary_true_iff.
  intros [[Hs Hn]|[Hs Hn]]; apply Hn.
  - destruct (fieldEquals_supplied _ _ Hs He) as (s & ? & ?).
    exists c, s. done.
  - destruct (fieldEquals_supplied _ _ Hs Hp) as (s & ? & ?).
    exists c, s. done.
Qed.

(** C5. [shouldCreateSecondary] answers no when some member of the family
    carries exactly the requested pair (an absent request field matching an
    absent column only); otherwise it answers yes exactly when both fields
    are supplied and one of them appears nowhere in the family, or exactly
    one field is supplied and no member carries it. *)
Theorem shouldCreateSecondary_rules family email phoneNumber :
  (hasExactPair family email phoneNumber →
   shouldCreateSecondary family email phoneNumber = false)
  ∧ (¬ hasExactPair family email phoneNumber →
     (shouldCreateSecondary family email phoneNumber = true
      ↔ (supplied email ∧ supplied phoneNumber
         ∧ (¬ emailAppears family email
            ∨ ¬ phoneAppears family phoneNumber))
        ∨ (supplied email ∧ ¬ supplied phoneNumber
           ∧ ¬ emailAppears family email)
        ∨ (¬ supplied email ∧ supplied phoneNumber
           ∧ ¬ phoneAppears family phoneNumber))).
Proof.
  split; [apply shouldCreateSecondary_exact|].
  intros _. rewrite shouldCreateSecondary_true_iff.
  destruct (decide (supplied email)) as [He|He],
    (decide (supplied phoneNumber)) as [Hp|Hp]; tauto.
Qed.

Lemma shouldCreateSecondary_rules_witness :
  shouldCreateSecondary aliceFamily (Str "a@x.com") (Str "123") = false
  ∧ shouldCreateSecondary aliceFamily (Str "a@x.com") (Str "999") = true.
Proof.
  split.
  - apply (proj1 (shouldCreateSecondary_rules aliceFamily (Str "a@x.com")
                    (Str "123"))).
    exists (Contact.mk 1 (Some "123") (Some "a@x.com") None primary 10 10 None).
    split; [by left|]. split; reflexivity.
  - apply (proj2 (shouldCreateSecondary_rules aliceFamily (Str "a@x.com")
                    (Str "999"))).
    + intros (c & Hc & _ & Hp). apply list_elem_of_singleton in Hc as ->.
      simpl in Hp. discriminate.
    + left. split; [reflexivity|]. split; [reflexivity|]. right.
      intros (c & s & Hc & [= <-] & Hcol).
      apply list_elem_of_singleton in Hc as ->. simpl in Hcol. discriminate.
Defined.

(** ** ResponseBuilder *)

#[global] Instance createdAtLe_trans : Transitive createdAtLe.
Proof. unfold createdAtLe. intros a b c. lia. Qed.

Lemma StronglySorted_filter {A} (R : relation A) (P : A → Prop)
    `{!∀ x, Decision (P x)} (l : list A) :
  StronglySorted R l → StronglySorted R (filter P l).
Proof.
  induction 1 as [|x l Hs IH Hall]; [constructor|].
  rewrite filter_cons. destruct (decide (P x)); [|done].
  constructor; [done|].
  apply Forall_forall. intros y Hy. apply list_elem_of_filter in Hy as [_ Hy].
  rewrite Forall_forall in Hall. auto.
Qed.

Lemma filter_all {A} (P : A → Prop) `{!∀ x, Decision (P x)} (l : list A) :
  (∀ x, x ∈ l → P x) → filter P l = l.
Proof.
  induction l as [|a l IH]; intros Hall; [done|].
  rewrite filter_cons_True by (apply Hall; left).
  f_equal. apply IH. intros x Hx. apply Hall. by right.
Qed.

Lemma firstOccurrences_subset l x : x ∈ firstOccurrences l → x ∈ l.
Proof.
  induction l as [|a l IH]; simpl; [done|].
  rewrite !elem_of_cons, list_elem_of_filter. intros [?|[_ ?]]; auto.
Qed.

Lemma firstOccurrences_NoDup l : NoDup (firstOccurrences l).
Proof.
  induction l as [|a l IH]; simpl; [constructor|].
  constructor; [|by apply NoDup_filter].
  rewrite list_elem_of_filter. by intros [? _].
Qed.

Lemma pushTruthy_present v : pushTruthy v = present v.
Proof.
  destruct v as [s|]; [|done]. unfold pushTruthy, present. simpl.
  rewrite filter_cons, filter_nil.
  destruct (decide (s ≠ "")) as [Hs|Hs].
  - by rewrite bool_decide_eq_true_2.
  - by rewrite bool_decide_eq_false_2.
Qed.

Lemma pushNew_present acc v :
  pushNew acc v = acc ++ filter (λ y, y ∉ acc) (present v).
Proof.
  destruct v as [s|]; unfold pushNew, present; simpl;
    [|by rewrite filter_nil, app_nil_r].
  rewrite (filter_cons (λ s, s ≠ "")), filter_nil.
  destruct (decide (s ≠ "")) as [Hs|Hs].
  - rewrite bool_decide_eq_true_2 by done. simpl.
    rewrite filter_cons, filter_nil.
    destruct (decide (s ∉ acc)) as [Hn|Hn].
    + by rewrite bool_decide_eq_true_2.
    + rewrite bool_decide_eq_false_2 by done. by rewrite app_nil_r.
  - rewrite bool_decide_eq_false_2 by done. simpl.
    by rewrite filter_nil, app_nil_r.
Qed.

Lemma foldl_pushNew acc vs :
  foldl pushNew acc vs
  = acc ++ filter (λ y, y ∉ acc)
             (firstOccurrences (filter (λ s, s ≠ "") (omap id vs))).
Proof.
  revert acc. induction vs as [|v vs IH]; intros acc; simpl.
  - by rewrite filter_nil, app_nil_r.
  - rewrite IH, pushNew_present. destruct v as [s|]; unfold present; simpl.
    + rewrite !(filter_cons (λ s, s ≠ "")), filter_nil.
      destruct (decide (s ≠ "")) as [Hs|Hs]; simpl.
      * rewrite (filter_cons (λ y, y ∉ acc) s).
        destruct (decide (s ∉ acc)) as [Hn|Hn].
        -- rewrite filter_nil, filter_cons_True by done.
           rewrite <- app_assoc. simpl. do 2 f_equal.
           rewrite list_filter_filter. apply list_filter_iff.
           intros y. rewrite elem_of_app, list_elem_of_singleton. tauto.
        -- rewrite filter_nil, app_nil_r, filter_cons_False by done.
           f_equal. rewrite list_filter_filter. apply list_filter_iff.
           intros y. split; [|tauto]. intros Hy. split; [done|].
           intros ->. apply Hn. done.
      * by rewrite filter_nil, app_nil_r.
    + by rewrite filter_nil, app_nil_r.
Qed.

Lemma omap_fmap_id {A} (f : A → option string) (l : list A) :
  omap id (f <$> l) = omap f l.
Proof.
  induction l as [|a l IH]; [done|]. cbn.
  destruct (f a); cbn; by rewrite <- IH.
Qed.

Lemma nonEmpty_cons (field : Contact → option string) p l :
  nonEmpty field (p :: l) = present (field p) ++ nonEmpty field l.
Proof.
  unfold nonEmpty, present. cbn. destruct (field p) as [s|]; cbn; [|done].
  by destruct (decide (s ≠ "")).
Qed.

Lemma present_cases v : present v = [] ∨ ∃ s, present v = [s].
Proof.
  destruct v as [s|]; unfold present; cbn; [|by left].
  destruct (decide (s ≠ "")); eauto.
Qed.

Lemma collected_values (field : Contact → option string) p secs :
  foldl pushNew (pushTruthy (field p)) (field <$> secs)
  = firstOccurrences (nonEmpty field (p :: secs)).
Proof.
  rewrite foldl_pushNew, omap_fmap_id, pushTruthy_present, nonEmpty_cons.
  fold (nonEmpty field secs).
  destruct (present_cases (field p)) as [->|(s & ->)]; cbn.
  - apply (filter_all (λ y, y ∉ [])). intros y _ Hy. inversion Hy.
  - f_equal. apply list_filter_iff. intros y.
    rewrite list_elem_of_singleton. tauto.
Qed.

(** C10. [buildResponse] is defined exactly on the lists that contain a
    primary: there its [primaryContactId] is the id of the first primary in
    list order, and on a list without a primary the property access on the
    missing contact raises. *)
Theorem buildResponse_needs_primary contacts :
  (∀ before p after,
     contacts = before ++ p :: after →
     Forall (λ c, ¬ isPrimary c) before →
     isPrimary p →
     ∃ r, buildResponse contacts = Some r
          ∧ primaryContactId r = Contact.id p)
  ∧ (Forall (λ c, ¬ isPrimary c) contacts → buildResponse contacts = None)
  ∧ (buildResponse contacts = None → Forall (λ c, ¬ isPrimary c) contacts).
Proof.
  split; [|split].
  - intros before p after -> Hbefore Hp. unfold buildResponse.
    rewrite filter_app, filter_cons_True by done.
    assert (filter isPrimary before = []) as ->.
    { clear -Hbefore. induction Hbefore as [|x l Hx _ IH]; [done|].
      by rewrite filter_cons_False. }
    simpl. eauto.
  - intros Hall. unfold buildResponse.
    assert (filter isPrimary contacts = []) as ->; [|done].
    induction Hall as [|x l Hx _ IH]; [done|]. by rewrite filter_cons_False.
  - unfold buildResponse.
    destruct (filter isPrimary contacts) as [|q l] eqn:Hf; [|done].
    intros _. apply Forall_forall. intros c Hc Hp.
    exact (filter_nil_not_elem_of isPrimary contacts c Hf Hp Hc).
Qed.

Lemma buildResponse_needs_primary_witness :
  (∃ r, buildResponse threeFamily = Some r ∧ primaryContactId r = 1)
  ∧ buildResponse (drop 1 threeFamily) = None.
Proof.
  split.
  - apply (proj1 (buildResponse_needs_primary threeFamily) []
             (Contact.mk 1 (Some "123") (Some "a@x.com") None primary
                10 10 None)
             (drop 1 threeFamily)).
    + reflexivity.
    + constructor.
    + reflexivity.
  - apply (proj1 (proj2 (buildResponse_needs_primary (drop 1 threeFamily)))).
    repeat constructor; discriminate.
Defined.

(** The lists of the response built from a list whose first primary is
    [p]: the values of [p] and of the secondaries, in the order of the
    list, without empty strings and repetitions. *)
Lemma buildResponse_collects contacts p :
  head (filter isPrimary contacts) = Some p →
  ∃ r, buildResponse contacts = Some r
       ∧ primaryContactId r = Contact.id p
       ∧ NoDup (emails r) ∧ NoDup (phoneNumbers r)
       ∧ emails r
         = firstOccurrences
             (nonEmpty Contact.email (p :: filter isSecondary contacts))
       ∧ phoneNumbers r
         = firstOccurrences
             (nonEmpty Contact.phoneNumber (p :: filter isSecondary contacts))
       ∧ (∀ s, Contact.email p = Some s → s ≠ "" → head (emails r) = Some s)
       ∧ (∀ s, Contact.phoneNumber p = Some s → s ≠ "" →
               head (phoneNumbers r) = Some s)
       ∧ secondaryContactIds r = Contact.id <$> filter isSecondary contacts.
Proof.
  intros Hp. unfold buildResponse. rewrite Hp.
  eexists. split; [reflexivity|]. simpl. rewrite !collected_values.
  repeat split; try apply firstOccurrences_NoDup.
  - intros s Hs Hne. rewrite nonEmpty_cons, Hs. unfold present. cbn.
    destruct (decide (s ≠ "")); [reflexivity|contradiction].
  - intros s Hs Hne. rewrite nonEmpty_cons, Hs. unfold present. cbn.
    destruct (decide (s ≠ "")); [reflexivity|contradiction].
Qed.

(** ** Ordering by [createdAt] *)

Lemma insertByCreatedAt_perm x l : insertByCreatedAt x l ≡ₚ x :: l.
Proof.
  induction l as [|y l IH]; simpl; [done|].
  destruct (decide _); [done|]. rewrite IH. apply Permutation_swap.
Qed.

Lemma sortByCreatedAt_perm l : sortByCreatedAt l ≡ₚ l.
Proof.
  induction l as [|x l IH]; simpl; [done|].
  by rewrite insertByCreatedAt_perm, IH.
Qed.

Lemma elem_of_sortByCreatedAt l x : x ∈ sortByCreatedAt l ↔ x ∈ l.
Proof. by rewrite sortByCreatedAt_perm. Qed.

Lemma length_sortByCreatedAt l : length (sortByCreatedAt l) = length l.
Proof. by rewrite sortByCreatedAt_perm. Qed.

Lemma insertByCreatedAt_sorted x l :
  StronglySorted createdAtLe l →
  StronglySorted createdAtLe (insertByCreatedAt x l).
Proof.
  induction 1 as [|y l Hs IH Hall]; simpl; [repeat constructor|].
  destruct (decide _) as [Hle|Hgt].
  - constructor; [by constructor|]. constructor; [done|].
    eapply Forall_impl; [exact Hall|]. intros z Hz.
    unfold createdAtLe in *. lia.
  - constructor; [done|]. rewrite insertByCreatedAt_perm.
    constructor; [|done]. unfold createdAtLe. lia.
Qed.

Lemma sortByCreatedAt_sorted l : StronglySorted createdAtLe (sortByCreatedAt l).
Proof.
  induction l as [|x l IH]; simpl; [constructor|].
  by apply insertByCreatedAt_sorted.
Qed.

Lemma insertByCreatedAt_least x l :
  Forall (createdAtLe x) l → insertByCreatedAt x l = x :: l.
Proof.
  destruct 1 as [|y l Hy _]; simpl; [done|]. by rewrite decide_True.
Qed.

Lemma sortByCreatedAt_sorted_id l :
  StronglySorted createdAtLe l → sortByCreatedAt l = l.
Proof.
  induction 1 as [|x l Hs IH Hall]; simpl; [done|].
  rewrite IH. by apply insertByCreatedAt_least.
Qed.

Lemma filter_insertByCreatedAt (P : Contact → Prop) `{!∀ c, Decision (P c)}
    x l :
  StronglySorted createdAtLe l →
  filter P (insertByCreatedAt x l)
  = if decide (P x) then insertByCreatedAt x (filter P l) else filter P l.
Proof.
  induction 1 as [|y l Hs IH Hall]; simpl.
  - rewrite filter_cons, !filter_nil. by destruct (decide (P x)).
  - destruct (decide (Contact.createdAt x ≤ Contact.createdAt y)) as [Hle|Hgt].
    + rewrite (filter_cons P x). destruct (decide (P x)) as [Hx|Hx]; [|done].
      symmetry. apply insertByCreatedAt_least.
      apply Forall_forall. intros z Hz.
      apply list_elem_of_filter in Hz as [_ Hz].
      apply elem_of_cons in Hz as [->|Hz]; [done|].
      rewrite Forall_forall in Hall. specialize (Hall z Hz).
      unfold createdAtLe in *. lia.
    + rewrite (filter_cons P y), IH, (filter_cons P y).
      destruct (decide (P x)), (decide (P y)); simpl; try done.
      by rewrite decide_False.
Qed.

Lemma filter_sortByCreatedAt (P : Contact → Prop) `{!∀ c, Decision (P c)} l :
  filter P (sortByCreatedAt l) = sortByCreatedAt (filter P l).
Proof.
  induction l as [|x l IH]; simpl; [done|].
  rewrite filter_insertByCreatedAt by apply sortByCreatedAt_sorted.
  rewrite filter_cons, IH. by destruct (decide (P x)).
Qed.

(** Stability: among contacts with one and the same [createdAt] the order
    of the input is kept. *)
Lemma sortByCreatedAt_stable t l :
  filter (λ c, Contact.createdAt c = t) (sortByCreatedAt l)
  = filter (λ c, Contact.createdAt c = t) l.
Proof.
  rewrite filter_sortByCreatedAt. apply sortByCreatedAt_sorted_id.
  induction l as [|x l IH]; [constructor|].
  rewrite filter_cons. destruct (decide _) as [Hx|Hx]; [|done].
  constructor; [done|]. apply Forall_forall. intros z Hz.
  apply list_elem_of_filter in Hz as [Hz _]. unfold createdAtLe. lia.
Qed.

(** ** PrimarySelector and the election of the survivor *)

Lemma foldl_older_least p ps :
  Forall (createdAtLe p) ps →
  foldl
    (λ oldest current,
       if decide (Contact.createdAt current < Contact.createdAt oldest)
       then current else oldest)
    p ps = p.
Proof.
  induction 1 as [|x l Hx _ IH]; simpl; [done|].
  rewrite decide_False; [done|]. unfold createdAtLe in Hx. lia.
Qed.

Lemma oldestOf_sorted l :
  StronglySorted createdAtLe l → oldestOf l = head l.
Proof.
  destruct 1 as [|x l _ Hall]; simpl; [done|]. by rewrite foldl_older_least.
Qed.

Lemma foldl_older_spec p ps :
  let o :=
    foldl
      (λ oldest current,
         if decide (Contact.createdAt current < Contact.createdAt oldest)
         then current else oldest)
      p ps in
  o ∈ p :: ps ∧ Forall (createdAtLe o) (p :: ps).
Proof.
  revert p. induction ps as [|x l IH]; intros p; simpl.
  - split; [by left|]. repeat constructor. unfold createdAtLe. lia.
  - destruct (decide _) as [Hlt|Hge].
    + destruct (IH x) as [Hin Hall]. split; [by right|].
      inversion Hall as [|? ? Hx Hl]; subst.
      constructor; [|done]. unfold createdAtLe in *. lia.
    + destruct (IH p) as [Hin Hall]. split.
      * apply elem_of_cons in Hin as [->|Hin]; [by left|by do 2 right].
      * inversion Hall as [|? ? Hp Hl]; subst.
        constructor; [done|]. constructor; [|done].
        unfold createdAtLe in *. lia.
Qed.

Lemma oldestOf_spec l o :
  oldestOf l = Some o → o ∈ l ∧ Forall (createdAtLe o) l.
Proof.
  destruct l as [|p ps]; simpl; [done|]. intros [= <-].
  apply foldl_older_spec.
Qed.

Lemma oldestOf_is_Some l : l ≠ [] → is_Some (oldestOf l).
Proof. destruct l; [done|]. simpl. eauto. Qed.

Lemma mapSet_fresh k v m :
  k ∉ m.*1 → mapSet k v m = m ++ [(k, v)].
Proof.
  induction m as [|[k' v'] m IH]; simpl; [done|].
  rewrite not_elem_of_cons. intros [Hne Hm].
  rewrite decide_False by done. by rewrite IH.
Qed.

Lemma primaryMap_filter_aux contacts m :
  NoDup (m.*1 ++ (Contact.id <$> contacts)) →
  foldl
    (λ m c, if decide (isPrimary c) then mapSet (Contact.id c) c m else m)
    m contacts
  = m ++ ((λ c, (Contact.id c, c)) <$> filter isPrimary contacts).
Proof.
  revert m. induction contacts as [|c l IH]; intros m Hnd; simpl.
  - by rewrite app_nil_r.
  - rewrite filter_cons. apply NoDup_app in Hnd as (Hm & Hdisj & Hl).
    cbn in Hl, Hdisj. apply NoDup_cons in Hl as [Hc Hl].
    destruct (decide (isPrimary c)) as [Hp|Hp].
    + rewrite mapSet_fresh by (intros Hin; apply (Hdisj _ Hin); left).
      rewrite IH.
      * by rewrite <- app_assoc.
      * rewrite fmap_app. cbn. rewrite <- app_assoc. cbn.
        apply NoDup_app. split; [done|]. split.
        -- intros x Hx Hin. apply (Hdisj _ Hx). done.
        -- by constructor.
    + apply IH. apply NoDup_app. split; [done|]. split; [|done].
      intros x Hx Hin. apply (Hdisj _ Hx). by right.
Qed.

(** Over contacts with pairwise different ids the [Map] keeps every
    primary, in the order of the input. *)
Lemma primaryMap_filter contacts :
  NoDup (Contact.id <$> contacts) →
  (primaryMap contacts).*2 = filter isPrimary contacts.
Proof.
  intros Hnd. unfold primaryMap. rewrite primaryMap_filter_aux by done.
  cbn. rewrite <- list_fmap_compose. apply list_fmap_id.
Qed.

Lemma getUniquePrimaries_filter contacts :
  NoDup (Contact.id <$> contacts) →
  getUniquePrimaries contacts = sortByCreatedAt (filter isPrimary contacts).
Proof. intros Hnd. unfold getUniquePrimaries. by rewrite primaryMap_filter. Qed.

(** The head of the sorted list is the first listed among the contacts with
    the smallest [createdAt]: whatever the input lists before it is strictly
    younger. *)
Lemma sortByCreatedAt_head l o rest :
  sortByCreatedAt l = o :: rest →
  ∃ before after,
    l = before ++ o :: after
    ∧ Forall (λ c, Contact.createdAt o < Contact.createdAt c) before
    ∧ Forall (createdAtLe o) after.
Proof.
  revert o rest. induction l as [|x l IH]; intros o rest; simpl; [done|].
  destruct (sortByCreatedAt l) as [|y r] eqn:Hs.
  - assert (l = []) as ->.
    { apply Permutation_nil_r. rewrite <- Hs. symmetry.
      apply sortByCreatedAt_perm. }
    simpl. intros [= <- <-]. exists [], []. by repeat split.
  - destruct (IH y r eq_refl) as (before & after & -> & Hb & Ha).
    simpl. destruct (decide _) as [Hle|Hgt].
    + intros [= <- <-]. exists [], (before ++ y :: after).
      split; [done|]. split; [constructor|].
      apply Forall_app. split; [|constructor].
      * eapply Forall_impl; [exact Hb|]. unfold createdAtLe. intros; lia.
      * done.
      * eapply Forall_impl; [exact Ha|]. unfold createdAtLe in *. intros; lia.
    + intros [= <- <-]. exists (x :: before), after.
      split; [done|]. split; [|done]. constructor; [lia|done].
Qed.

(** C6 (as amended).  The selected primaries are in ascending [createdAt]
    order and the survivor of a merge is the head of that list, whose
    [createdAt] is the smallest.  Over an expanded set, which lists every id
    once, the selection is the set's primaries; primaries with the same
    [createdAt] keep the order in which the expanded set lists them, whatever
    their ids; and the survivor is the first listed among the primaries with
    the smallest [createdAt]: every primary the set lists before it is
    strictly younger. *)
Theorem getUniquePrimaries_order contacts :
  let primaries := getUniquePrimaries contacts in
  StronglySorted createdAtLe primaries
  ∧ oldestOf primaries = head primaries
  ∧ (∀ o, oldestOf primaries = Some o →
          ∀ p, p ∈ primaries → Contact.createdAt o ≤ Contact.createdAt p)
  ∧ (NoDup (Contact.id <$> contacts) →
     primaries ≡ₚ filter isPrimary contacts
     ∧ (∀ t, filter (λ c, Contact.createdAt c = t) primaries
             = filter (λ c, Contact.createdAt c = t)
                 (filter isPrimary contacts))
     ∧ (filter isPrimary contacts ≠ [] → is_Some (oldestOf primaries))
     ∧ ∀ o, oldestOf primaries = Some o →
            ∃ before after,
              filter isPrimary contacts = before ++ o :: after
              ∧ Forall (λ c, Contact.createdAt o < Contact.createdAt c) before
              ∧ Forall (λ c, Contact.createdAt o ≤ Contact.createdAt c) after).
Proof.
  cbn. split; [apply sortByCreatedAt_sorted|].
  split; [apply oldestOf_sorted, sortByCreatedAt_sorted|]. split.
  - intros o Ho p Hp. apply oldestOf_spec in Ho as [_ Hall].
    rewrite Forall_forall in Hall. by apply Hall.
  - intros Hnd. rewrite getUniquePrimaries_filter by done.
    split; [apply sortByCreatedAt_perm|].
    split; [intros t; apply sortByCreatedAt_stable|]. split.
    + intros Hne. apply oldestOf_is_Some. intros Hnil. apply Hne.
      apply Permutation_nil_r. rewrite <- Hnil. symmetry.
      apply sortByCreatedAt_perm.
    + intros o Ho.
      rewrite oldestOf_sorted in Ho by apply sortByCreatedAt_sorted.
      destruct (sortByCreatedAt (filter isPrimary contacts)) as [|h rest]
        eqn:Hs; [done|].
      injection Ho as ->. by apply sortByCreatedAt_head in Hs.
Qed.

Lemma getUniquePrimaries_order_witness :
  filter (λ c, Contact.createdAt c = 10)
    (getUniquePrimaries [tiedSecond; tiedFirst])
  = [tiedSecond; tiedFirst]
  ∧ ∀ o, oldestOf (getUniquePrimaries [tiedSecond; tiedFirst])
         = Some o →
         ∃ before after,
           [tiedSecond; tiedFirst] = before ++ o :: after
           ∧ Forall (λ c, Contact.createdAt o < Contact.createdAt c) before
           ∧ Forall (λ c, Contact.createdAt o ≤ Contact.createdAt c) after.
Proof.
  assert (NoDup (Contact.id <$> [tiedSecond; tiedFirst])) as Hnd.
  { cbn. repeat (constructor; [rewrite ?elem_of_cons, ?elem_of_nil; lia|]).
    constructor. }
  destruct (getUniquePrimaries_order [tiedSecond; tiedFirst])
    as (_ & _ & _ & H).
  destruct (H Hnd) as (_ & Hties & _ & Hfirst).
  split; [exact (Hties 10)|exact Hfirst].
Defined.

(** C6, as stated, fails: of two primaries with the same [createdAt] the one
    the scan lists first is selected first and survives the merge, here the
    one with the larger id. *)
Lemma tie_break_follows_scan_order :
  getUniquePrimaries [tiedSecond; tiedFirst] = [tiedSecond; tiedFirst]
  ∧ ¬ Sorted seniorityLe (getUniquePrimaries [tiedSecond; tiedFirst])
  ∧ oldestOf (getUniquePrimaries [tiedSecond; tiedFirst]) = Some tiedSecond
  ∧ ¬ seniorityLe tiedSecond tiedFirst
  ∧ identifyContact 100 tiedStore (Str "b@x.com") (Str "111")
    = (mkStore
         [tiedSecond;
          Contact.mk 1 (Some "111") None (Some 2) secondary 10 100 None] 3,
       Some (mkResponse 2 ["b@x.com"] ["111"] [1])).
Proof.
  split; [reflexivity|]. split.
  { intros Hs. inversion Hs as [|? ? _ Hhd]; subst.
    inversion Hhd as [|? ? Hle]; subst.
    unfold seniorityLe in Hle. simpl in Hle. lia. }
  split; [reflexivity|]. split.
  { unfold seniorityLe. simpl. lia. }
  vm_compute. reflexivity.
Qed.

(** ** The data-model invariants *)

Lemma primaryKey_inj db c d :
  primaryKey db → c ∈ rows db → d ∈ rows db →
  Contact.id c = Contact.id d → c = d.
Proof.
  unfold primaryKey. intros Hnd Hc Hd Heq.
  apply list_elem_of_lookup in Hc as [i Hi], Hd as [j Hj].
  assert (i = j) as ->; [|congruence].
  eapply NoDup_lookup; [exact Hnd| |]; rewrite list_lookup_fmap.
  - by rewrite Hi.
  - rewrite Hj. simpl. by rewrite Heq.
Qed.

Lemma primary_not_secondary c : isPrimary c → ¬ isSecondary c.
Proof. unfold isPrimary, isSecondary. congruence. Qed.

Lemma primary_or_secondary c : isPrimary c ∨ isSecondary c.
Proof. unfold isPrimary, isSecondary. destruct (Contact.linkPrecedence c); auto. Qed.

Lemma consistent_link db c d :
  Consistent db → c ∈ rows db → d ∈ rows db →
  Contact.linkedId c = Some (Contact.id d) →
  isSecondary c ∧ isPrimary d ∧ notDeleted d.
Proof.
  intros [Hkey _ Hlinks Hinv1] Hc Hd Hl.
  destruct (primary_or_secondary c) as [Hp|Hs].
  { rewrite (Hlinks c Hc Hp) in Hl. discriminate. }
  split; [done|]. destruct (Hinv1 c Hc Hs) as (p & Hp & Hlp & Hprim & Hnd).
  assert (p = d) as <-; [|done].
  apply (primaryKey_inj db); [done..|]. congruence.
Qed.

Lemma consistent_invariant2 db : Consistent db → invariant2 db.
Proof.
  intros Hcons c d Hc Hd Hl.
  destruct (consistent_link db c d Hcons Hc Hd Hl) as (_ & Hp & _).
  by apply primary_not_secondary.
Qed.

Lemma rootId_primary db c :
  Consistent db → c ∈ rows db → isPrimary c → rootId c = Contact.id c.
Proof. intros [_ _ Hl _] Hc Hp. unfold rootId. by rewrite (Hl c Hc Hp). Qed.

Lemma linked_rootId db c d :
  Consistent db → linked db c d → rootId c = rootId d.
Proof.
  intros Hcons (Hc & Hd & [Hl|Hl]).
  - destruct (consistent_link db c d Hcons Hc Hd Hl) as (_ & Hp & _).
    rewrite (rootId_primary db d) by done. unfold rootId. by rewrite Hl.
  - destruct (consistent_link db d c Hcons Hd Hc Hl) as (_ & Hp & _).
    rewrite (rootId_primary db c) by done. unfold rootId. by rewrite Hl.
Qed.

Lemma connected_rootId db c d :
  Consistent db → connected db c d → rootId c = rootId d.
Proof.
  intros Hcons. induction 1 as [|x y z Hxy _ IH]; [done|].
  rewrite <- IH. by eapply linked_rootId.
Qed.

Lemma consistent_invariant3 db : Consistent db → invariant3 db.
Proof.
  intros Hcons c Hc.
  assert (∃ p, p ∈ rows db ∧ connected db c p ∧ isPrimary p)
    as (p & Hp & Hcp & Hprim).
  { destruct (primary_or_secondary c) as [Hpc|Hsc].
    - exists c. split; [done|]. split; [apply rtc_refl|done].
    - destruct (cons_inv1 db Hcons c Hc Hsc) as (p & Hp & Hl & Hprim & _).
      exists p. split; [done|]. split; [|done].
      apply rtc_once. split; [done|]. split; [done|]. by left. }
  exists p. split; [done|]. intros q Hq Hcq Hprimq.
  apply (primaryKey_inj db); [apply Hcons|done..|].
  rewrite <- (rootId_primary db q), <- (rootId_primary db p) by done.
  rewrite <- (connected_rootId db c q), <- (connected_rootId db c p); done.
Qed.

Lemma consistent_dataModel db : Consistent db ↔ DataModel db.
Proof.
  split.
  - intros Hcons. destruct Hcons as [H1 H2 H3 H4] eqn:E. split; try done.
    + by apply consistent_invariant2.
    + by apply consistent_invariant3.
  - intros [H1 H2 H3 H4 _ _]. by split.
Qed.

(** ** The merge loop *)

Lemma mergeWrites_foldl now o others db :
  foldl (execWrite now) db (mergeWrites o others)
  = foldl (mergeStep now o) db others.
Proof.
  revert db. induction others as [|p l IH]; intros db; [done|]. apply IH.
Qed.

Lemma mergeStep_rows now o db p :
  mergeStep now o db p
  = mkStore (mergeRow now o (Contact.id p) <$> rows db) (nextId db).
Proof.
  unfold mergeStep, execWrite, update, updateMany. simpl. f_equal.
  by rewrite <- list_fmap_compose.
Qed.

Lemma mergeRow_id now o p c : Contact.id (mergeRow now o p c) = Contact.id c.
Proof. unfold mergeRow. by repeat case_decide. Qed.

Lemma mergeRow_email now o p c :
  Contact.email (mergeRow now o p c) = Contact.email c.
Proof. unfold mergeRow. by repeat case_decide. Qed.

Lemma mergeRow_phoneNumber now o p c :
  Contact.phoneNumber (mergeRow now o p c) = Contact.phoneNumber c.
Proof. unfold mergeRow. by repeat case_decide. Qed.

Lemma mergeRow_createdAt now o p c :
  Contact.createdAt (mergeRow now o p c) = Contact.createdAt c.
Proof. unfold mergeRow. by repeat case_decide. Qed.

Lemma mergeRow_deletedAt now o p c :
  Contact.deletedAt (mergeRow now o p c) = Contact.deletedAt c.
Proof. unfold mergeRow. by repeat case_decide. Qed.

Lemma mergeRow_target now o p c :
  o ≠ p → Contact.id c = p → mergeRow now o p c = demote now o c.
Proof.
  intros Hne Hid. unfold mergeRow.
  destruct (decide (Contact.id c = p)); [|done].
  destruct (decide _) as [Hl|Hl]; [|done]. simpl in Hl. congruence.
Qed.

Lemma mergeRow_dependent now o p c :
  Contact.id c ≠ p → Contact.linkedId c = Some p →
  mergeRow now o p c = repoint now o c.
Proof.
  intros Hid Hl. unfold mergeRow.
  destruct (decide (Contact.id c = p)); [done|].
  by destruct (decide _).
Qed.

Lemma mergeRow_other now o p c :
  Contact.id c ≠ p → Contact.linkedId c ≠ Some p → mergeRow now o p c = c.
Proof.
  intros Hid Hl. unfold mergeRow.
  destruct (decide (Contact.id c = p)); [done|].
  by destruct (decide _).
Qed.

Lemma mergeRow_primary now o p db c :
  Consistent db → c ∈ rows db → isPrimary c → Contact.id c ≠ p →
  mergeRow now o p c = c.
Proof.
  intros Hcons Hc Hp Hid. apply mergeRow_other; [done|].
  by rewrite (cons_links db Hcons c Hc Hp).
Qed.

Lemma elem_of_mergeStep now o db p c' :
  c' ∈ rows (mergeStep now o db p)
  ↔ ∃ c, c' = mergeRow now o (Contact.id p) c ∧ c ∈ rows db.
Proof. rewrite mergeStep_rows. simpl. apply list_elem_of_fmap. Qed.

Lemma mergeStep_ids now o db p :
  Contact.id <$> rows (mergeStep now o db p) = Contact.id <$> rows db.
Proof.
  rewrite mergeStep_rows. simpl. rewrite <- list_fmap_compose.
  apply list_fmap_ext. intros i c _. apply mergeRow_id.
Qed.

(** Folding one primary into the survivor keeps the store consistent and
    leaves every other primary as it was. *)
Lemma mergeStep_consistent now db o p :
  Consistent db →
  o ∈ rows db → isPrimary o → notDeleted o →
  p ∈ rows db → isPrimary p → Contact.id p ≠ Contact.id o →
  Consistent (mergeStep now (Contact.id o) db p)
  ∧ ∀ q, q ∈ rows db → isPrimary q → Contact.id q ≠ Contact.id p →
         q ∈ rows (mergeStep now (Contact.id o) db p).
Proof.
  intros Hcons Ho Hpo Hdo Hp Hpp Hne.
  assert (∀ q, q ∈ rows db → isPrimary q → Contact.id q ≠ Contact.id p →
               q ∈ rows (mergeStep now (Contact.id o) db p)) as Hkeep.
  { intros q Hq Hpq Hid. apply elem_of_mergeStep. exists q. split; [|done].
    symmetry. by eapply mergeRow_primary. }
  split; [|done]. split.
  - unfold primaryKey. rewrite mergeStep_ids. apply Hcons.
  - destruct (cons_serial db Hcons) as [Hnext Hids]. split.
    + by rewrite mergeStep_rows.
    + intros c' (c & -> & Hc)%elem_of_mergeStep.
      rewrite mergeRow_id, mergeStep_rows. simpl. by apply Hids.
  - intros c' (c & -> & Hc)%elem_of_mergeStep Hprim.
    destruct (decide (Contact.id c = Contact.id p)) as [Hid|Hid].
    { rewrite mergeRow_target in Hprim by done. discriminate. }
    destruct (decide (Contact.linkedId c = Some (Contact.id p))) as [Hl|Hl].
    { rewrite mergeRow_dependent in Hprim by done.
      destruct (consistent_link db c p Hcons Hc Hp Hl) as (Hs & _).
      by apply primary_not_secondary in Hprim. }
    rewrite mergeRow_other in * by done. by apply (cons_links db Hcons).
  - intros c' (c & -> & Hc)%elem_of_mergeStep Hsec.
    assert (o ∈ rows (mergeStep now (Contact.id o) db p)) as Ho'.
    { apply Hkeep; [done..|congruence]. }
    destruct (decide (Contact.id c = Contact.id p)) as [Hid|Hid].
    { rewrite mergeRow_target by done. exists o. done. }
    destruct (decide (Contact.linkedId c = Some (Contact.id p))) as [Hl|Hl].
    { rewrite mergeRow_dependent by done. exists o. done. }
    rewrite mergeRow_other in * by done.
    destruct (cons_inv1 db Hcons c Hc Hsec) as (q & Hq & Hlq & Hpq & Hdq).
    exists q. split; [|done]. apply Hkeep; [done..|]. congruence.
Qed.

(** The whole loop, over primaries other than the survivor. *)
Lemma mergeLoop_consistent now o others db :
  Consistent db →
  o ∈ rows db → isPrimary o → notDeleted o →
  Forall (λ p, p ∈ rows db ∧ isPrimary p ∧ Contact.id p ≠ Contact.id o)
    others →
  NoDup (Contact.id <$> others) →
  let db' := foldl (mergeStep now (Contact.id o)) db others in
  Consistent db' ∧ o ∈ rows db' ∧ nextId db' = nextId db.
Proof.
  intros Hcons Ho Hpo Hdo Hall. revert db Hcons Ho Hall.
  induction others as [|p l IH]; intros db Hcons Ho Hall Hnd; simpl.
  { done. }
  apply Forall_cons in Hall as [(Hp & Hpp & Hne) Hall].
  cbn in Hnd. apply NoDup_cons in Hnd as [Hpl Hnd].
  destruct (mergeStep_consistent now db o p) as [Hcons' Hkeep]; [done..|].
  destruct (IH (mergeStep now (Contact.id o) db p)) as (H1 & H2 & H3).
  - done.
  - apply Hkeep; [done..|congruence].
  - rewrite Forall_forall in Hall. apply Forall_forall. intros q Hq.
    destruct (Hall q Hq) as (Hqr & Hpq & Hqo). split; [|done].
    apply Hkeep; [done..|]. intros Heq. apply Hpl.
    apply list_elem_of_fmap. exists q. done.
  - done.
  - split; [done|]. split; [done|]. rewrite H3. by rewrite mergeStep_rows.
Qed.

(** ** Creating a contact *)

Lemma create_consistent now db email phoneNumber link prec :
  Consistent db →
  (prec = primary ∧ link = None)
  ∨ (prec = secondary
     ∧ ∃ q, q ∈ rows db ∧ link = Some (Contact.id q)
            ∧ isPrimary q ∧ notDeleted q) →
  Consistent (create now db email phoneNumber link prec).1.
Proof.
  intros Hcons Hshape. destruct (cons_serial db Hcons) as [Hnext Hids].
  simpl. split.
  - unfold primaryKey. simpl. rewrite fmap_app. simpl.
    apply NoDup_app. split; [apply Hcons|]. split; [|apply NoDup_singleton].
    intros i (c & -> & Hc)%list_elem_of_fmap Hin.
    apply list_elem_of_singleton in Hin. specialize (Hids c Hc). lia.
  - split; simpl; [lia|]. intros c [Hc|Hc%list_elem_of_singleton]%elem_of_app.
    + specialize (Hids c Hc). lia.
    + subst c. simpl. lia.
  - intros c [Hc|Hc%list_elem_of_singleton]%elem_of_app Hp.
    + by apply (cons_links db Hcons).
    + subst c. destruct Hshape as [[-> ->]|[-> _]]; [done|discriminate].
  - intros c [Hc|Hc%list_elem_of_singleton]%elem_of_app Hs.
    + destruct (cons_inv1 db Hcons c Hc Hs) as (q & Hq & ?).
      exists q. split; [|done]. simpl. apply elem_of_app. by left.
    + subst c. destruct Hshape as [[-> _]|[_ (q & Hq & -> & Hpq & Hdq)]];
        [discriminate|].
      exists q. split; [|done]. simpl. apply elem_of_app. by left.
Qed.

(** ** What the expanded set and the selected primaries consist of *)

Lemma getAllRelatedContacts_cases db matches :
  getAllRelatedContacts db matches = []
  ∨ ∃ ids, matches ≠ [] ∧ collectIds db matches = Some ids
           ∧ getAllRelatedContacts db matches
             = findManyOrdered db (λ c, Contact.id c ∈ ids ∧ notDeleted c).
Proof.
  unfold getAllRelatedContacts. destruct matches as [|m l]; [by left|].
  destruct (collectIds db (m :: l)) as [ids|]; [|by left].
  right. exists ids. done.
Qed.

Lemma elem_of_findManyOrdered db (P : Contact → Prop) `{!∀ c, Decision (P c)}
    c :
  c ∈ findManyOrdered db P ↔ P c ∧ c ∈ rows db.
Proof.
  unfold findManyOrdered. by rewrite elem_of_sortByCreatedAt, list_elem_of_filter.
Qed.

Lemma findManyOrdered_NoDup db (P : Contact → Prop) `{!∀ c, Decision (P c)} :
  primaryKey db → NoDup (Contact.id <$> findManyOrdered db P).
Proof.
  intros Hkey. unfold findManyOrdered. rewrite sortByCreatedAt_perm.
  eapply sublist_NoDup; [exact Hkey|]. apply fmap_sublist, sublist_filter.
Qed.

Lemma findManyOrdered_sorted db (P : Contact → Prop) `{!∀ c, Decision (P c)} :
  StronglySorted createdAtLe (findManyOrdered db P).
Proof. apply sortByCreatedAt_sorted. Qed.

Lemma elem_of_getAllRelatedContacts_rows db matches c :
  c ∈ getAllRelatedContacts db matches → c ∈ rows db ∧ notDeleted c.
Proof.
  destruct (getAllRelatedContacts_cases db matches) as [->|(ids & _ & _ & ->)].
  - intros Hc. inversion Hc.
  - rewrite elem_of_findManyOrdered. tauto.
Qed.

Lemma getAllRelatedContacts_NoDup db matches :
  primaryKey db → NoDup (Contact.id <$> getAllRelatedContacts db matches).
Proof.
  intros Hkey.
  destruct (getAllRelatedContacts_cases db matches) as [->|(ids & _ & _ & ->)].
  - constructor.
  - by apply findManyOrdered_NoDup.
Qed.

Lemma elem_of_primaries db matches p :
  primaryKey db →
  p ∈ getUniquePrimaries (getAllRelatedContacts db matches)
  ↔ isPrimary p ∧ p ∈ getAllRelatedContacts db matches.
Proof.
  intros Hkey.
  rewrite getUniquePrimaries_filter by by apply getAllRelatedContacts_NoDup.
  by rewrite elem_of_sortByCreatedAt, list_elem_of_filter.
Qed.

Lemma primaries_NoDup db matches :
  primaryKey db →
  NoDup (Contact.id <$> getUniquePrimaries (getAllRelatedContacts db matches)).
Proof.
  intros Hkey.
  rewrite getUniquePrimaries_filter by by apply getAllRelatedContacts_NoDup.
  rewrite sortByCreatedAt_perm.
  eapply sublist_NoDup; [by apply (getAllRelatedContacts_NoDup db matches)|].
  apply fmap_sublist, sublist_filter.
Qed.

Lemma buildResponse_is_Some contacts c :
  c ∈ contacts → isPrimary c → is_Some (buildResponse contacts).
Proof.
  intros Hc Hp. unfold buildResponse.
  destruct (filter isPrimary contacts) as [|q l] eqn:Hf; simpl; [|eauto].
  by destruct (filter_nil_not_elem_of isPrimary contacts c Hf Hp).
Qed.

(** ** The pipeline keeps the store consistent *)

Lemma mergePrimaries_consistent now db primaries allContacts email phoneNumber :
  Consistent db →
  primaries ≠ [] →
  Forall (λ p, p ∈ rows db ∧ isPrimary p ∧ notDeleted p) primaries →
  NoDup (Contact.id <$> primaries) →
  let out := mergePrimaries now db primaries allContacts email phoneNumber in
  Consistent out.1 ∧ is_Some out.2.
Proof.
  intros Hcons Hne Hall Hnd. unfold mergePrimaries.
  destruct (oldestOf_is_Some primaries Hne) as [o Ho]. rewrite Ho.
  destruct (oldestOf_spec _ _ Ho) as [Hin _].
  rewrite Forall_forall in Hall. destruct (Hall o Hin) as (Hor & Hpo & Hdo).
  rewrite mergeWrites_foldl.
  set (others := filter (λ p, Contact.id p ≠ Contact.id o) primaries).
  destruct (mergeLoop_consistent now o others db) as (Hcons1 & Ho1 & Hnext);
    [done..| | |].
  { apply Forall_forall. intros q (Hq & Hqin)%list_elem_of_filter.
    destruct (Hall q Hqin) as (? & ? & ?). done. }
  { eapply sublist_NoDup; [exact Hnd|]. apply fmap_sublist, sublist_filter. }
  set (db1 := foldl (mergeStep now (Contact.id o)) db others) in *.
  assert (o ∈ findManyOrdered db1 (familyWhere (Contact.id o))) as Hfam.
  { apply elem_of_findManyOrdered. split; [|done]. split; [by left|done]. }
  destruct (shouldCreateSecondary _ email phoneNumber); simpl.
  - split.
    + apply (create_consistent now db1 email phoneNumber
               (Some (Contact.id o)) secondary); [done|].
      right. split; [done|]. exists o. done.
    + apply (buildResponse_is_Some _ o); [|done]. apply elem_of_app. by left.
  - split; [done|]. by apply (buildResponse_is_Some _ o).
Qed.

Lemma identifyContact_consistent now db email phoneNumber :
  Consistent db →
  let out := identifyContact now db email phoneNumber in
  Consistent out.1 ∧ is_Some out.2.
Proof.
  intros Hcons. unfold identifyContact.
  set (matches := findManyOrdered db (matchWhere email phoneNumber)).
  set (allRelated := getAllRelatedContacts db matches).
  assert (∀ p, p ∈ getUniquePrimaries allRelated →
               p ∈ allRelated ∧ p ∈ rows db ∧ isPrimary p ∧ notDeleted p)
    as Hprim.
  { intros p Hp. apply elem_of_primaries in Hp as [Hpp Hp]; [|apply Hcons].
    destruct (elem_of_getAllRelatedContacts_rows _ _ _ Hp). done. }
  pose proof (primaries_NoDup db matches (cons_key db Hcons)) as Hnd.
  fold allRelated in Hnd.
  destruct (getUniquePrimaries allRelated) as [|p [|q l]] eqn:Hps.
  - split.
    + apply (create_consistent now db email phoneNumber None primary);
        [done|by left].
    + apply (buildResponse_is_Some _
               (create now db email phoneNumber None primary).2);
        [by left|done].
  - destruct (Hprim p) as (Hpa & Hpr & Hpp & Hpd); [by left|].
    set (family := filter _ allRelated).
    assert (p ∈ family) as Hfam.
    { apply list_elem_of_filter. split; [by left|done]. }
    destruct (shouldCreateSecondary family email phoneNumber); simpl.
    + split.
      * apply (create_consistent now db email phoneNumber
                 (Some (Contact.id p)) secondary); [done|].
        right. split; [done|]. exists p. done.
      * apply (buildResponse_is_Some _ p); [|done]. apply elem_of_app.
        by left.
    + split; [done|]. by apply (buildResponse_is_Some _ p).
  - apply mergePrimaries_consistent; [done|done| |done].
    apply Forall_forall. intros c Hc. destruct (Hprim c Hc) as (_ & ? & ? & ?).
    done.
Qed.

(** C3.  From a store that satisfies the data model, an identify request
    completes with a response and leaves a store in which every secondary
    links to a non-deleted primary, no link targets a secondary, and every
    connected component has exactly one primary.  This holds for every
    request, in particular for those supplying an identifier. *)
Theorem identifyContact_preserves_invariants now db email phoneNumber :
  DataModel db →
  let out := identifyContact now db email phoneNumber in
  is_Some out.2
  ∧ invariant1 out.1 ∧ invariant2 out.1 ∧ invariant3 out.1
  ∧ DataModel out.1.
Proof.
  intros Hdm%consistent_dataModel.
  destruct (identifyContact_consistent now db email phoneNumber Hdm)
    as [Hcons Hsome].
  cbn. split; [done|].
  apply consistent_dataModel in Hcons as Hdm'.
  split; [apply Hdm'|]. split; [apply Hdm'|]. split; [apply Hdm'|done].
Qed.

(** Decide a closed decidable proposition by evaluation. *)
Ltac by_computation :=
  match goal with
  | |- ?P => apply (bool_decide_unpack P); vm_compute; exact I
  end.

Lemma consistentCheck_sound db : consistentCheck db → Consistent db.
Proof.
  intros (Hkey & Hnext & Hall). rewrite Forall_forall in Hall. split.
  - done.
  - split; [done|]. intros c Hc. by destruct (Hall c Hc).
  - intros c Hc. by destruct (Hall c Hc) as (_ & ? & _).
  - intros c Hc Hs. destruct (Hall c Hc) as (_ & _ & Hex).
    apply Hex, Exists_exists in Hs as (p & Hp & ?). by exists p.
Qed.

Lemma store3_dataModel : DataModel store3.
Proof.
  apply consistent_dataModel, consistentCheck_sound.
  by_computation.
Qed.

Lemma identifyContact_preserves_invariants_witness :
  let out := identifyContact 100 store3 (Str "a@x.com") (Str "999") in
  is_Some out.2
  ∧ invariant1 out.1 ∧ invariant2 out.1 ∧ invariant3 out.1
  ∧ DataModel out.1.
Proof.
  apply (identifyContact_preserves_invariants 100 store3 (Str "a@x.com")
           (Str "999")).
  exact store3_dataModel.
Defined.

(** ** Failure in the middle of a merge *)

Lemma take_mergeWrites o others j :
  take (2 * j) (mergeWrites o others) = mergeWrites o (take j others).
Proof.
  revert j. induction others as [|p l IH]; intros j.
  - cbn. by rewrite !take_nil.
  - destruct j as [|j]; [done|].
    replace (2 * S j)%nat with (S (S (2 * j))) by lia. simpl.
    do 2 f_equal. apply IH.
Qed.

(** C2 (as amended).  The merge is a sequence of separately committed
    statements.  When it stops between two rounds of its loop, in
    particular when it runs to completion, a store that satisfied the data
    model satisfies it again, with the survivor still in place and no row
    added.  Nothing is promised for a stop inside a round. *)
Theorem merge_rounds_keep_invariants now db o others j :
  DataModel db →
  o ∈ rows db → isPrimary o → notDeleted o →
  Forall (λ p, p ∈ rows db ∧ isPrimary p ∧ Contact.id p ≠ Contact.id o)
    others →
  NoDup (Contact.id <$> others) →
  let db' := mergeInterrupted now db (Contact.id o) others (2 * j) in
  DataModel db' ∧ o ∈ rows db' ∧ nextId db' = nextId db
  ∧ mergeInterrupted now db (Contact.id o) others (2 * length others)
    = foldl (execWrite now) db (mergeWrites (Contact.id o) others).
Proof.
  intros Hdm%consistent_dataModel Ho Hpo Hdo Hall Hnd.
  unfold mergeInterrupted. rewrite !take_mergeWrites, mergeWrites_foldl.
  cbv zeta.
  destruct (mergeLoop_consistent now o (take j others) db)
    as (Hcons & Ho' & Hnext); [done..| | |].
  - by apply Forall_take.
  - eapply sublist_NoDup; [exact Hnd|]. apply fmap_sublist, sublist_take.
  - split; [by apply consistent_dataModel|]. split; [done|]. split; [done|].
    by rewrite firstn_all.
Qed.

Lemma mergeStore_dataModel : DataModel mergeStore.
Proof. apply consistent_dataModel, consistentCheck_sound. by_computation. Qed.

Lemma merge_rounds_keep_invariants_witness :
  let db' := mergeInterrupted 100 mergeStore 1 [bobPrimary] 2 in
  DataModel db'
  ∧ Contact.mk 1 None (Some "a@x.com") None primary 10 10 None ∈ rows db'
  ∧ nextId db' = 4
  ∧ mergeInterrupted 100 mergeStore 1 [bobPrimary] 2
    = foldl (execWrite 100) mergeStore (mergeWrites 1 [bobPrimary]).
Proof.
  apply (merge_rounds_keep_invariants 100 mergeStore
           (Contact.mk 1 None (Some "a@x.com") None primary 10 10 None)
           [bobPrimary] 1).
  - exact mergeStore_dataModel.
  - by_computation.
  - reflexivity.
  - reflexivity.
  - by_computation.
  - by_computation.
Defined.

(** C2, as stated, fails: when the [updateMany] that follows the demotion
    of primary 2 is rejected, the demotion stays committed; the store is
    neither the one before the merge nor the merged one, and contact 3 is
    left linked to a secondary. *)
Lemma merge_interrupted_is_observable :
  mergeWrites 1 [bobPrimary] = [Demote 2 1; Repoint 2 1]
  ∧ mergeInterrupted 100 mergeStore 1 [bobPrimary] 1
    = mkStore
        [Contact.mk 1 None (Some "a@x.com") None primary 10 10 None;
         Contact.mk 2 (Some "999") None (Some 1) secondary 20 100 None;
         Contact.mk 3 (Some "999") (Some "b@x.com") (Some 2) secondary
           30 30 None]
        4
  ∧ mergeInterrupted 100 mergeStore 1 [bobPrimary] 1 ≠ mergeStore
  ∧ mergeInterrupted 100 mergeStore 1 [bobPrimary] 1
    ≠ foldl (execWrite 100) mergeStore (mergeWrites 1 [bobPrimary])
  ∧ ¬ invariant2 (mergeInterrupted 100 mergeStore 1 [bobPrimary] 1).
Proof.
  split; [reflexivity|]. split; [reflexivity|].
  split; [discriminate|]. split; [discriminate|].
  intros Hinv.
  apply (Hinv (Contact.mk 3 (Some "999") (Some "b@x.com") (Some 2) secondary
                 30 30 None)
              (Contact.mk 2 (Some "999") None (Some 1) secondary 20 100 None)).
  - by_computation.
  - by_computation.
  - reflexivity.
  - reflexivity.
Qed.

(** ** Tombstones *)

(** C7 fails on the code: the expansion follows [linkedId] with
    [findUnique], which has no [deletedAt] filter.  From a match on
    secondary 2 it reads the tombstoned primary 1, records its id, and
    reaches secondary 3 only through it. *)
Theorem expansion_reads_tombstone :
  let matches :=
    findManyOrdered tombstoneStore (matchWhere (Str "a@x.com") Undefined) in
  matches = [liveSecondaryA]
  ∧ findUnique tombstoneStore 1 = Some tombstonedPrimary
  ∧ ¬ notDeleted tombstonedPrimary
  ∧ collectIds tombstoneStore matches = Some {[1; 2; 3]}
  ∧ getAllRelatedContacts tombstoneStore matches
    = [liveSecondaryA; liveSecondaryB]
  ∧ getAllRelatedContacts
      (mkStore [liveSecondaryA; liveSecondaryB] 4) matches
    = [liveSecondaryA].
Proof.
  cbn zeta. split; [vm_compute; reflexivity|].
  split; [vm_compute; reflexivity|]. split; [discriminate|].
  split; [vm_compute; reflexivity|]. split; vm_compute; reflexivity.
Qed.

(** ** GraphExpander: termination *)

Lemma elem_of_pushAll xs stack x :
  x ∈ pushAll xs stack ↔ x ∈ xs ∨ x ∈ stack.
Proof.
  unfold pushAll. revert stack. induction xs as [|y xs IH]; intros stack; simpl.
  - split; [by right|]. intros [H|H]; [inversion H|done].
  - rewrite IH, !elem_of_cons. tauto.
Qed.

Lemma length_pushAll xs stack :
  length (pushAll xs stack) = (length xs + length stack)%nat.
Proof.
  unfold pushAll. revert stack. induction xs as [|y xs IH]; intros stack; simpl.
  - done.
  - rewrite IH. simpl. lia.
Qed.

Lemma findUnique_Some db l d :
  findUnique db l = Some d → d ∈ rows db ∧ Contact.id d = l.
Proof.
  unfold findUnique. intros Hh. apply head_Some_elem_of in Hh.
  apply list_elem_of_filter in Hh. tauto.
Qed.

Lemma findUnique_row db d :
  primaryKey db → d ∈ rows db → findUnique db (Contact.id d) = Some d.
Proof.
  intros Hkey Hd. unfold findUnique.
  destruct (filter (λ c, Contact.id c = Contact.id d) (rows db))
    as [|c l] eqn:Hf.
  - by destruct (filter_nil_not_elem_of _ _ d Hf eq_refl).
  - simpl. f_equal.
    assert (c ∈ filter (λ c, Contact.id c = Contact.id d) (rows db)) as Hc
      by (rewrite Hf; left).
    apply list_elem_of_filter in Hc as [Hid Hc].
    by apply (primaryKey_inj db).
Qed.

Lemma elem_of_visit db c processed rest d :
  d ∈ visit db c processed rest
  ↔ d ∈ rest ∨ ((Contact.id d ∉ processed) ∧ linkStep db c d).
Proof.
  unfold visit, linkStep, findMany.
  set (afterPrimary :=
         match truthyLink (Contact.linkedId c) with
         | Some l =>
             match findUnique db l with
             | Some p =>
                 if decide (Contact.id p ∈ processed) then rest else p :: rest
             | None => rest
             end
         | None => rest
         end).
  assert (d ∈ afterPrimary
          ↔ d ∈ rest
            ∨ ((Contact.id d ∉ processed)
               ∧ ∃ l, truthyLink (Contact.linkedId c) = Some l
                      ∧ findUnique db l = Some d)) as Hafter.
  { unfold afterPrimary.
    destruct (truthyLink (Contact.linkedId c)) as [l|].
    2:{ split; [by left|]. intros [?|(_ & l & ? & _)]; done. }
    destruct (findUnique db l) as [p|] eqn:Hp.
    2:{ split; [by left|]. intros [?|(_ & l' & Hl & ?)]; [done|congruence]. }
    destruct (decide (Contact.id p ∈ processed)) as [Hin|Hin].
    - split; [by left|]. intros [?|(Hd & l' & Hl & ?)]; [done|].
      congruence.
    - rewrite elem_of_cons. split.
      + intros [->|?]; [right|by left]. split; [done|]. eauto.
      + intros [?|(Hd & l' & Hl & ?)]; [by right|]. left. congruence. }
  destruct (decide (isPrimary c)) as [Hprim|Hprim].
  - rewrite elem_of_pushAll, Hafter, !list_elem_of_filter. tauto.
  - rewrite Hafter. tauto.
Qed.

Lemma length_visit db c processed rest :
  (length (visit db c processed rest)
   ≤ length rest + 1 + length (rows db))%nat.
Proof.
  unfold visit, findMany.
  set (afterPrimary :=
         match truthyLink (Contact.linkedId c) with
         | Some l =>
             match findUnique db l with
             | Some p =>
                 if decide (Contact.id p ∈ processed) then rest else p :: rest
             | None => rest
             end
         | None => rest
         end).
  assert (length afterPrimary ≤ length rest + 1)%nat as Hafter.
  { unfold afterPrimary. repeat case_match; simpl; lia. }
  destruct (decide (isPrimary c)); [|lia].
  rewrite length_pushAll.
  pose proof (length_filter (λ s, Contact.id s ∉ processed)
                (filter (λ s, Contact.linkedId s = Some (Contact.id c)
                              ∧ notDeleted s) (rows db))).
  pose proof (length_filter (λ s, Contact.linkedId s = Some (Contact.id c)
                                  ∧ notDeleted s) (rows db)).
  lia.
Qed.

Lemma linkStep_row db c d : linkStep db c d → d ∈ rows db.
Proof.
  intros [(l & _ & Hd)|(_ & Hd & _)]; [|done].
  by apply findUnique_Some in Hd as [? _].
Qed.

Lemma size_list_to_set_le (l : list Z) :
  (size (list_to_set l : gset Z) ≤ length l)%nat.
Proof.
  induction l as [|x l IH]; simpl.
  - vm_compute. lia.
  - rewrite size_union_alt, size_singleton.
    assert (list_to_set l ∖ {[x]} ⊆ (list_to_set l : gset Z)) as Hsub
      by set_solver.
    apply subseteq_size in Hsub. lia.
Qed.

Section termination.
Variable db : Store.
Variable matches : list Contact.

Lemma universe_row c : c ∈ rows db → Contact.id c ∈ universe db matches.
Proof.
  intros Hc. unfold universe. rewrite elem_of_list_to_set, elem_of_app.
  left. apply list_elem_of_fmap. eauto.
Qed.

Lemma universe_match c : c ∈ matches → Contact.id c ∈ universe db matches.
Proof.
  intros Hc. unfold universe. rewrite elem_of_list_to_set, elem_of_app.
  right. apply list_elem_of_fmap. eauto.
Qed.

Lemma universe_size :
  (size (universe db matches) ≤ length (rows db) + length matches)%nat.
Proof.
  unfold universe.
  pose proof (size_list_to_set_le
                ((Contact.id <$> rows db) ++ (Contact.id <$> matches))) as H.
  by rewrite length_app, !length_fmap in H.
Qed.

(** Every round either drops an entry of [toProcess] or marks a new id of
    the universe as processed, pushing at most one entry per row plus one;
    so the measure below decreases. *)
Lemma expand_terminates fuel toProcess processed contactIds :
  (∀ c, c ∈ toProcess → Contact.id c ∈ universe db matches) →
  (length toProcess
   + size (universe db matches ∖ processed) * (length (rows db) + 2)
   < fuel)%nat →
  is_Some (expand fuel db toProcess processed contactIds).
Proof.
  revert toProcess processed contactIds.
  induction fuel as [|fuel IH]; intros toProcess processed contactIds Hstack Hfuel;
    [lia|].
  destruct toProcess as [|c rest]; simpl; [eauto|].
  destruct (decide (Contact.id c ∈ processed)) as [Hin|Hin].
  - apply IH.
    + intros d Hd. apply Hstack. by right.
    + simpl in Hfuel. lia.
  - apply IH.
    + intros d [Hd|[_ Hd]]%elem_of_visit.
      * apply Hstack. by right.
      * by apply universe_row, (linkStep_row db c).
    + pose proof (length_visit db c (processed ∪ {[Contact.id c]}) rest).
      assert (size (universe db matches ∖ (processed ∪ {[Contact.id c]}))
              < size (universe db matches ∖ processed))%nat as Hsize.
      { apply subset_size.
        assert (Contact.id c ∈ universe db matches) by (apply Hstack; left).
        set_solver. }
      simpl in Hfuel. nia.
Qed.

Lemma collectIds_is_Some : is_Some (collectIds db matches).
Proof.
  unfold collectIds. apply expand_terminates.
  - intros c Hc. rewrite elem_of_reverse in Hc. by apply universe_match.
  - unfold expandFuel. rewrite length_reverse.
    pose proof universe_size.
    pose proof (subseteq_size (universe db matches ∖ ∅) (universe db matches)
                  ltac:(set_solver)).
    nia.
Qed.

End termination.


(** ** GraphExpander: the closure it computes *)

Lemma reachable_step db seeds c d :
  reachable db seeds c → linkStep db c d → reachable db seeds d.
Proof.
  intros (s & Hs & Hsc) Hcd. exists s. split; [done|]. by eapply rtc_r.
Qed.

Section closure.
Variable db : Store.
Variable seeds : list Contact.
Hypothesis Hkey : primaryKey db.
Hypothesis Hseeds : ∀ s, s ∈ seeds → s ∈ rows db.

Lemma expandInv_init : ExpandInv db seeds (reverse seeds) ∅ ∅.
Proof.
  split.
  - done.
  - intros c Hc. rewrite elem_of_reverse in Hc. split; [by apply Hseeds|].
    exists c. split; [done|apply rtc_refl].
  - intros i Hi. by apply not_elem_of_empty in Hi.
  - intros s Hs. right. by rewrite elem_of_reverse.
  - intros c d _ Hc. by apply not_elem_of_empty in Hc.
Qed.

Lemma expandInv_skip c rest processed contactIds :
  ExpandInv db seeds (c :: rest) processed contactIds →
  Contact.id c ∈ processed →
  ExpandInv db seeds rest processed contactIds.
Proof.
  intros [Hids Hstack Hsound Hsd Hclosed] Hin. split.
  - done.
  - intros d Hd. apply Hstack. by right.
  - done.
  - intros s Hs. destruct (Hsd s Hs) as [?|[->|?]%elem_of_cons]; auto.
  - intros a d Ha Hap Had.
    destruct (Hclosed a d Ha Hap Had) as [?|[->|?]%elem_of_cons]; auto.
Qed.

Lemma expandInv_visit c rest processed contactIds :
  ExpandInv db seeds (c :: rest) processed contactIds →
  Contact.id c ∉ processed →
  ExpandInv db seeds
    (visit db c (processed ∪ {[Contact.id c]}) rest)
    (processed ∪ {[Contact.id c]})
    (contactIds ∪ {[Contact.id c]}).
Proof.
  intros [Hids Hstack Hsound Hsd Hclosed] Hnew.
  destruct (Hstack c) as [Hc Hreach]; [by left|]. split.
  - by rewrite Hids.
  - intros d [Hd|[_ Hd]]%elem_of_visit.
    + apply Hstack. by right.
    + split; [by apply (linkStep_row db c)|by apply (reachable_step db seeds c)].
  - intros i [Hi|Hi%elem_of_singleton]%elem_of_union; [by apply Hsound|].
    exists c. done.
  - intros s Hs. destruct (Hsd s Hs) as [?|[->|?]%elem_of_cons].
    + left. set_solver.
    + left. set_solver.
    + right. apply elem_of_visit. by left.
  - intros a d Ha [Hap|Hap%elem_of_singleton]%elem_of_union Had.
    + destruct (Hclosed a d Ha Hap Had) as [?|[->|?]%elem_of_cons].
      * left. set_solver.
      * left. set_solver.
      * right. apply elem_of_visit. by left.
    + assert (a = c) as -> by by apply (primaryKey_inj db).
      destruct (decide (Contact.id d ∈ processed ∪ {[Contact.id c]}));
        [by left|].
      right. apply elem_of_visit. by right.
Qed.

Lemma expand_invariant fuel toProcess processed contactIds ids :
  ExpandInv db seeds toProcess processed contactIds →
  expand fuel db toProcess processed contactIds = Some ids →
  ExpandInv db seeds [] ids ids.
Proof.
  revert toProcess processed contactIds.
  induction fuel as [|fuel IH]; intros toProcess processed contactIds Hinv;
    [done|].
  simpl. destruct toProcess as [|c rest].
  - intros [= <-]. pose proof (inv_ids _ _ _ _ _ Hinv) as Heq. by subst.
  - destruct (decide (Contact.id c ∈ processed)) as [Hin|Hin].
    + intros Hrun. eapply IH; [|exact Hrun]. by apply (expandInv_skip c).
    + intros Hrun. eapply IH; [|exact Hrun]. by apply expandInv_visit.
Qed.

(** With [toProcess] empty, the processed ids are those of the rows
    reachable from the seeds. *)
Lemma expandInv_final ids c :
  ExpandInv db seeds [] ids ids →
  c ∈ rows db →
  Contact.id c ∈ ids ↔ reachable db seeds c.
Proof.
  intros [_ _ Hsound Hsd Hclosed] Hc. split.
  - intros (c' & Hc' & Hid & Hreach)%Hsound.
    by rewrite <- (primaryKey_inj db c' c Hkey Hc' Hc Hid).
  - intros (s & Hs & Hsc).
    assert (s ∈ rows db ∧ Contact.id s ∈ ids) as Hstart.
    { split; [by apply Hseeds|].
      destruct (Hsd s Hs) as [?|Hnil]; [done|inversion Hnil]. }
    clear Hs Hc. induction Hsc as [|x y z Hxy _ IH]; [apply Hstart|].
    destruct Hstart as [Hx Hxi]. apply IH. split.
    + by apply (linkStep_row db x).
    + destruct (Hclosed x y Hx Hxi Hxy) as [?|Hnil]; [done|inversion Hnil].
Qed.

End closure.

Lemma elem_of_getAllRelatedContacts db seeds c :
  primaryKey db →
  (∀ s, s ∈ seeds → s ∈ rows db) →
  c ∈ getAllRelatedContacts db seeds
  ↔ c ∈ rows db ∧ notDeleted c ∧ reachable db seeds c.
Proof.
  intros Hkey Hseeds.
  destruct (collectIds_is_Some db seeds) as [ids Hids].
  assert (ExpandInv db seeds [] ids ids) as Hfinal.
  { eapply expand_invariant; [..|exact Hids]; [done..|].
    by apply expandInv_init. }
  assert (c ∈ rows db → Contact.id c ∈ ids ↔ reachable db seeds c) as Hiff.
  { intros Hc. by apply expandInv_final. }
  unfold getAllRelatedContacts. rewrite Hids.
  destruct seeds as [|s l].
  { split; [intros Hc; inversion Hc|].
    intros (_ & _ & s & Hs & _). inversion Hs. }
  rewrite elem_of_findManyOrdered. split.
  - intros [[Hin Hnd] Hc]. split; [done|]. split; [done|]. by apply Hiff.
  - intros (Hc & Hnd & Hreach). split; [|done]. split; [|done]. by apply Hiff.
Qed.








(** The loop on a cycle of links: both contacts are visited once. *)
Example expansion_on_cycle :
  collectIds cyclicStore
    [Contact.mk 1 None (Some "a@x.com") (Some 2) primary 10 10 None]
  = Some {[1; 2]}
  ∧ Contact.id <$> getAllRelatedContacts cyclicStore
      [Contact.mk 1 None (Some "a@x.com") (Some 2) primary 10 10 None]
    = [1; 2].
Proof. split; vm_compute; reflexivity. Qed.

(** ** Families in a consistent store *)

Lemma truthyLink_Some l i : truthyLink l = Some i → l = Some i.
Proof.
  unfold truthyLink. destruct l as [j|]; [|done].
  destruct (decide (j = 0)); [done|]. by intros [= ->].
Qed.

Lemma linkStep_rootId db c d :
  Consistent db → c ∈ rows db → linkStep db c d → rootId c = rootId d.
Proof.
  intros Hcons Hc [(l & Hl%truthyLink_Some & Hd)|(Hp & Hd & Hl & _)].
  - apply findUnique_Some in Hd as [Hd <-].
    destruct (consistent_link db c d Hcons Hc Hd Hl) as (_ & Hpd & _).
    rewrite (rootId_primary db d) by done. unfold rootId. by rewrite Hl.
  - rewrite (rootId_primary db c) by done. unfold rootId. by rewrite Hl.
Qed.

Lemma reach_rootId db c d :
  Consistent db → c ∈ rows db → rtc (linkStep db) c d → rootId c = rootId d.
Proof.
  intros Hcons Hc Hreach. induction Hreach as [|x y z Hxy _ IH]; [done|].
  rewrite (linkStep_rootId db x y) by done.
  apply IH. by apply (linkStep_row db x).
Qed.

(** The primary a row belongs to. *)
Lemma root_row db c :
  Consistent db → c ∈ rows db →
  ∃ p, p ∈ rows db ∧ isPrimary p ∧ Contact.id p = rootId c
       ∧ (notDeleted c → notDeleted p)
       ∧ rtc (linkStep db) c p.
Proof.
  intros Hcons Hc. destruct (primary_or_secondary c) as [Hp|Hs].
  - exists c. rewrite (rootId_primary db c) by done. by repeat split.
  - destruct (cons_inv1 db Hcons c Hc Hs) as (p & Hp & Hl & Hpp & Hdp).
    exists p. unfold rootId. rewrite Hl. repeat split; try done.
    apply rtc_once. left. exists (Contact.id p). split.
    + unfold truthyLink. rewrite Hl.
      destruct (cons_serial db Hcons) as [_ Hids]. specialize (Hids p Hp).
      rewrite decide_False; [done|lia].
    + apply findUnique_row; [apply Hcons|done].
Qed.

Lemma rootId_reach db s c :
  Consistent db → s ∈ rows db → c ∈ rows db → notDeleted c →
  rootId s = rootId c → rtc (linkStep db) s c.
Proof.
  intros Hcons Hs Hc Hdc Hroot.
  destruct (root_row db s Hcons Hs) as (p & Hp & Hpp & Hid & _ & Hsp).
  etrans; [exact Hsp|].
  destruct (primary_or_secondary c) as [Hpc|Hsc].
  - rewrite (rootId_primary db c) in Hroot by done.
    assert (p = c) as ->; [|done].
    apply (primaryKey_inj db); [apply Hcons|done..|congruence].
  - apply rtc_once. right. split; [done|]. split; [done|]. split; [|done].
    destruct (cons_inv1 db Hcons c Hc Hsc) as (q & Hq & Hl & _).
    unfold rootId in Hroot at 2. rewrite Hl in Hroot. simpl in Hroot.
    rewrite Hl. f_equal. congruence.
Qed.

(** In a consistent store the expansion returns the non-deleted members of
    the families of its seeds. *)
Lemma elem_of_expanded db seeds c :
  Consistent db →
  (∀ s, s ∈ seeds → s ∈ rows db) →
  c ∈ getAllRelatedContacts db seeds
  ↔ c ∈ rows db ∧ notDeleted c ∧ ∃ s, s ∈ seeds ∧ rootId s = rootId c.
Proof.
  intros Hcons Hseeds.
  rewrite elem_of_getAllRelatedContacts by (done || apply Hcons).
  split.
  - intros (Hc & Hd & s & Hs & Hreach). split; [done|]. split; [done|].
    exists s. split; [done|]. apply (reach_rootId db); auto.
  - intros (Hc & Hd & s & Hs & Hroot). split; [done|]. split; [done|].
    exists s. split; [done|]. apply rootId_reach; auto.
Qed.

Lemma elem_of_matches db email phoneNumber c :
  c ∈ findManyOrdered db (matchWhere email phoneNumber)
  ↔ c ∈ rows db ∧ notDeleted c
    ∧ ((supplied email ∧ Str <$> Contact.email c = Some email)
       ∨ (supplied phoneNumber
          ∧ Str <$> Contact.phoneNumber c = Some phoneNumber)).
Proof.
  rewrite elem_of_findManyOrdered. unfold matchWhere, orClauses, supplied.
  rewrite Exists_app.
  assert (∀ (a : Param) (k : string → Clause) (col : option string),
            (∀ s, clauseHolds c (k s) ↔ col = Some s) →
            Exists (clauseHolds c)
              (match a with
               | Str s => if truthy a then [k s] else []
               | _ => []
               end)
            ↔ truthy a = true ∧ Str <$> col = Some a) as Hclause.
  { intros a k col Hk. destruct a as [| |s]; simpl.
    - rewrite Exists_nil. split; [done|]. by intros [? _].
    - rewrite Exists_nil. split; [done|]. by intros [? _].
    - destruct (bool_decide (s ≠ "")).
      + rewrite Exists_cons, Exists_nil, Hk. split.
        * intros [->|[]]. done.
        * intros [_ Heq]. left. destruct col; simpl in Heq; congruence.
      + rewrite Exists_nil. split; [done|]. by intros [? _]. }
  rewrite (Hclause email EmailIs (Contact.email c)) by done.
  rewrite (Hclause phoneNumber PhoneIs (Contact.phoneNumber c)) by done.
  tauto.
Qed.

(** The selected primaries are the non-deleted primaries of the families
    the matches belong to. *)
Lemma elem_of_selected db seeds p :
  Consistent db →
  (∀ s, s ∈ seeds → s ∈ rows db) →
  p ∈ getUniquePrimaries (getAllRelatedContacts db seeds)
  ↔ p ∈ rows db ∧ isPrimary p ∧ notDeleted p
    ∧ ∃ s, s ∈ seeds ∧ rootId s = Contact.id p.
Proof.
  intros Hcons Hseeds.
  rewrite elem_of_primaries, elem_of_expanded by (done || apply Hcons).
  split.
  - intros (Hp & Hr & Hd & s & Hs & Hroot).
    rewrite (rootId_primary db p) in Hroot by done. eauto 10.
  - intros (Hr & Hp & Hd & s & Hs & Hroot).
    rewrite <- (rootId_primary db p) in Hroot by done. eauto 10.
Qed.

Lemma sorted_pair (a b : Contact) l :
  NoDup l → (∀ x, x ∈ l ↔ x = a ∨ x = b) →
  StronglySorted createdAtLe l →
  Contact.createdAt a < Contact.createdAt b →
  l = [a; b].
Proof.
  intros Hnd Hel Hsorted Hlt.
  assert (a ≠ b) as Hne by (intros ->; lia).
  assert (l ≡ₚ [a; b]) as Hperm.
  { apply NoDup_Permutation; [done| |].
    - constructor; [|apply NoDup_singleton]. by rewrite list_elem_of_singleton.
    - intros x. rewrite Hel, elem_of_cons, list_elem_of_singleton. tauto. }
  symmetry in Hperm.
  apply Permutation_length_2_inv in Hperm as [->| ->]; [done|].
  apply StronglySorted_inv in Hsorted as [_ Hall].
  apply Forall_inv in Hall. unfold createdAtLe in Hall. lia.
Qed.

Lemma buildResponse_Some contacts r :
  buildResponse contacts = Some r →
  (∃ p, p ∈ contacts ∧ isPrimary p ∧ primaryContactId r = Contact.id p)
  ∧ secondaryContactIds r = Contact.id <$> filter isSecondary contacts.
Proof.
  unfold buildResponse.
  destruct (filter isPrimary contacts) as [|p l] eqn:Hf; [done|].
  simpl. intros [= <-]. simpl. split; [|done].
  assert (p ∈ filter isPrimary contacts) as Hp by (rewrite Hf; left).
  apply list_elem_of_filter in Hp as [Hpp Hp]. eauto.
Qed.

(** ** Merging two families *)

Lemma mergePrimaries_shape now db primaries allContacts email phoneNumber o :
  oldestOf primaries = Some o →
  let db1 :=
    foldl (mergeStep now (Contact.id o)) db
      (filter (λ p, Contact.id p ≠ Contact.id o) primaries) in
  let family := findManyOrdered db1 (familyWhere (Contact.id o)) in
  let created :=
    create now db1 email phoneNumber (Some (Contact.id o)) secondary in
  mergePrimaries now db primaries allContacts email phoneNumber
  = if shouldCreateSecondary family email phoneNumber
    then (created.1, buildResponse (family ++ [created.2]))
    else (db1, buildResponse family).
Proof.
  intros Ho. unfold mergePrimaries. rewrite Ho, mergeWrites_foldl. cbv zeta.
  by destruct (shouldCreateSecondary _ email phoneNumber).
Qed.

Lemma create_rows now db email phoneNumber link prec c :
  c ∈ rows db → c ∈ rows (create now db email phoneNumber link prec).1.
Proof. intros Hc. simpl. apply elem_of_app. by left. Qed.

(** C1.  In a store that satisfies the data model, let [A] be a primary
    with secondary [A1] and [B] a younger primary with secondary [B1], all
    live, and let the request carry an email of [A] and a phone number of
    [B] such that every live contact carrying either value belongs to one
    of the two families.  After the request [B] is a secondary linked to
    [A], [B1] is linked to [A], and the response names [A] as primary and
    lists [B], [A1] and [B1] among the secondaries. *)
Theorem merge_links_younger_family_to_older now db A A1 B B1 (e p : string) :
  DataModel db →
  A ∈ rows db → isPrimary A → notDeleted A →
  B ∈ rows db → isPrimary B → notDeleted B →
  Contact.createdAt A < Contact.createdAt B →
  A1 ∈ rows db → Contact.linkedId A1 = Some (Contact.id A) → notDeleted A1 →
  B1 ∈ rows db → Contact.linkedId B1 = Some (Contact.id B) → notDeleted B1 →
  e ≠ "" → p ≠ "" →
  Contact.email A = Some e → Contact.phoneNumber B = Some p →
  (∀ c, c ∈ rows db → notDeleted c →
        Contact.email c = Some e ∨ Contact.phoneNumber c = Some p →
        rootId c = Contact.id A ∨ rootId c = Contact.id B) →
  let out := identifyContact now db (Str e) (Str p) in
  (∃ B', findUnique out.1 (Contact.id B) = Some B'
         ∧ Contact.linkPrecedence B' = secondary
         ∧ Contact.linkedId B' = Some (Contact.id A))
  ∧ (∃ B1', findUnique out.1 (Contact.id B1) = Some B1'
            ∧ Contact.linkedId B1' = Some (Contact.id A))
  ∧ ∃ r, out.2 = Some r
         ∧ primaryContactId r = Contact.id A
         ∧ Contact.id B ∈ secondaryContactIds r
         ∧ Contact.id A1 ∈ secondaryContactIds r
         ∧ Contact.id B1 ∈ secondaryContactIds r.
Proof.
  intros Hcons%consistent_dataModel HA HpA HdA HB HpB HdB Hlt
    HA1 HlA1 HdA1 HB1 HlB1 HdB1 He Hp HeA HpB' Honly.
  destruct (identifyContact_consistent now db (Str e) (Str p) Hcons)
    as [Hcons' Hsome].
  cbv zeta. revert Hcons' Hsome. unfold identifyContact.
  set (matches := findManyOrdered db (matchWhere (Str e) (Str p))).
  assert (supplied (Str e)) as Hse.
  { unfold supplied. simpl. by apply bool_decide_eq_true. }
  assert (supplied (Str p)) as Hsp.
  { unfold supplied. simpl. by apply bool_decide_eq_true. }
  assert (∀ s, s ∈ matches → s ∈ rows db) as Hseeds.
  { intros s Hs%elem_of_matches. tauto. }
  assert (A ∈ matches) as HAm.
  { apply elem_of_matches. split; [done|]. split; [done|]. left.
    by rewrite HeA. }
  assert (B ∈ matches) as HBm.
  { apply elem_of_matches. split; [done|]. split; [done|]. right.
    by rewrite HpB'. }
  assert (Contact.id A ≠ Contact.id B) as Hne.
  { intros Heq. apply (primaryKey_inj db) in Heq; [|apply Hcons|done..].
    subst. lia. }
  assert (getUniquePrimaries (getAllRelatedContacts db matches) = [A; B])
    as ->.
  { apply sorted_pair; [| |apply sortByCreatedAt_sorted|done].
    - eapply NoDup_fmap_1, primaries_NoDup, Hcons.
    - intros x. rewrite elem_of_selected by done. split.
      + intros (Hx & Hpx & Hdx & s & Hs & Hroot).
        apply elem_of_matches in Hs as (Hsr & Hsd & Hmatch).
        assert (rootId s = Contact.id A ∨ rootId s = Contact.id B) as Hab.
        { apply Honly; [done..|].
          destruct Hmatch as [[_ Hm]|[_ Hm]]; [left|right].
          - destruct (Contact.email s); simpl in Hm; congruence.
          - destruct (Contact.phoneNumber s); simpl in Hm; congruence. }
        destruct Hab as [Hab|Hab]; [left|right];
          apply (primaryKey_inj db); try done; try apply Hcons; congruence.
      + intros [->| ->].
        * split; [done|]. split; [done|]. split; [done|]. exists A.
          split; [done|]. by apply (rootId_primary db).
        * split; [done|]. split; [done|]. split; [done|]. exists B.
          split; [done|]. by apply (rootId_primary db). }
  rewrite (mergePrimaries_shape now db [A; B] _ (Str e) (Str p) A).
  2:{ simpl. rewrite decide_False; [done|lia]. }
  assert (filter (λ q, Contact.id q ≠ Contact.id A) [A; B] = [B]) as ->.
  { rewrite filter_cons_False by (intros Hq; by apply Hq).
    rewrite filter_cons_True by done. done. }
  simpl foldl.
  set (db1 := mergeStep now (Contact.id A) db B).
  set (family := findManyOrdered db1 (familyWhere (Contact.id A))).
  set (created :=
         create now db1 (Str e) (Str p) (Some (Contact.id A)) secondary).
  destruct (mergeStep_consistent now db A B Hcons) as [Hcons1 Hkeep];
    [done..|congruence|]. fold db1 in Hcons1, Hkeep.
  (* the four rows after the merge *)
  destruct (consistent_link db A1 A Hcons HA1 HA HlA1) as (HsA1 & _).
  destruct (consistent_link db B1 B Hcons HB1 HB HlB1) as (HsB1 & _).
  assert (Contact.id A1 ≠ Contact.id B) as HA1B.
  { intros Heq. apply (primaryKey_inj db) in Heq; [|apply Hcons|done..].
    subst. by apply primary_not_secondary in HpB. }
  assert (Contact.id B1 ≠ Contact.id B) as HB1B.
  { intros Heq. apply (primaryKey_inj db) in Heq; [|apply Hcons|done..].
    subst. by apply primary_not_secondary in HpB. }
  assert (A ∈ rows db1) as HA' by (apply Hkeep; done).
  assert (demote now (Contact.id A) B ∈ rows db1) as HB'.
  { apply elem_of_mergeStep. exists B. split; [|done].
    symmetry. by apply mergeRow_target. }
  assert (A1 ∈ rows db1) as HA1'.
  { apply elem_of_mergeStep. exists A1. split; [|done].
    symmetry. apply mergeRow_other; [done|]. rewrite HlA1. congruence. }
  assert (repoint now (Contact.id A) B1 ∈ rows db1) as HB1'.
  { apply elem_of_mergeStep. exists B1. split; [|done].
    symmetry. by apply mergeRow_dependent. }
  assert (∀ c, c ∈ family → isPrimary c → Contact.id c = Contact.id A)
    as Hfamprim.
  { intros c [[[Hid|Hl] _] Hc]%elem_of_findManyOrdered Hpc; [done|].
    rewrite (cons_links db1 Hcons1 c Hc Hpc) in Hl. discriminate. }
  assert (demote now (Contact.id A) B ∈ family
          ∧ A1 ∈ family ∧ repoint now (Contact.id A) B1 ∈ family)
    as (HBf & HA1f & HB1f).
  { repeat split; apply elem_of_findManyOrdered; (split; [|done]);
      (split; [by right|done]). }
  set (result :=
         if shouldCreateSecondary family (Str e) (Str p)
         then (created.1, buildResponse (family ++ [created.2]))
         else (db1, buildResponse family)).
  assert (∃ extra,
            (∀ c, c ∈ rows db1 → c ∈ rows result.1)
            ∧ result.2 = buildResponse (family ++ extra)
            ∧ Forall isSecondary extra) as (extra & Hrows & Hresp & Hextra).
  { unfold result. destruct (shouldCreateSecondary family (Str e) (Str p)).
    - exists [created.2]. split; [|split; [done|by repeat constructor]].
      intros c Hc. by apply create_rows.
    - exists []. rewrite app_nil_r. by repeat split. }
  clearbody result. intros Hcons' [r Hr].
  split; [|split].
  - exists (demote now (Contact.id A) B). split; [|done].
    apply (findUnique_row result.1 (demote now (Contact.id A) B));
      [apply Hcons'|by apply Hrows].
  - exists (repoint now (Contact.id A) B1). split; [|done].
    apply (findUnique_row result.1 (repoint now (Contact.id A) B1));
      [apply Hcons'|by apply Hrows].
  - exists r. split; [done|]. rewrite Hresp in Hr.
    apply buildResponse_Some in Hr as [(q & Hq & Hpq & ->) ->].
    split.
    + apply elem_of_app in Hq as [Hq|Hq]; [by apply Hfamprim|].
      rewrite Forall_forall in Hextra.
      by destruct (primary_not_secondary q Hpq (Hextra q Hq)).
    + rewrite filter_app, fmap_app.
      repeat split; apply elem_of_app; left.
      * apply (list_elem_of_fmap_2' _ _ (demote now (Contact.id A) B));
          [|done]. by apply list_elem_of_filter.
      * apply list_elem_of_fmap_2. by apply list_elem_of_filter.
      * apply (list_elem_of_fmap_2' _ _ (repoint now (Contact.id A) B1));
          [|done]. by apply list_elem_of_filter.
Qed.

Lemma twoFamilies_dataModel : DataModel twoFamilies.
Proof. apply consistent_dataModel, consistentCheck_sound. by_computation. Qed.

Lemma twoFamilies_touched c :
  c ∈ rows twoFamilies → notDeleted c →
  Contact.email c = Some "a@x.com" ∨ Contact.phoneNumber c = Some "999" →
  rootId c = Contact.id olderPrimary ∨ rootId c = Contact.id youngerPrimary.
Proof.
  intros Hc _ _. revert c Hc. apply Forall_forall. by_computation.
Qed.

Lemma merge_links_younger_family_to_older_witness :
  let out := identifyContact 100 twoFamilies (Str "a@x.com") (Str "999") in
  (∃ B', findUnique out.1 3 = Some B'
         ∧ Contact.linkPrecedence B' = secondary
         ∧ Contact.linkedId B' = Some 1)
  ∧ (∃ B1', findUnique out.1 4 = Some B1' ∧ Contact.linkedId B1' = Some 1)
  ∧ ∃ r, out.2 = Some r
         ∧ primaryContactId r = 1
         ∧ 3 ∈ secondaryContactIds r
         ∧ 2 ∈ secondaryContactIds r
         ∧ 4 ∈ secondaryContactIds r.
Proof.
  apply (merge_links_younger_family_to_older 100 twoFamilies
           olderPrimary olderSecondary youngerPrimary youngerSecondary
           "a@x.com" "999").
  - exact twoFamilies_dataModel.
  - by_computation.
  - reflexivity.
  - reflexivity.
  - by_computation.
  - reflexivity.
  - reflexivity.
  - simpl. lia.
  - by_computation.
  - reflexivity.
  - reflexivity.
  - by_computation.
  - reflexivity.
  - reflexivity.
  - discriminate.
  - discriminate.
  - reflexivity.
  - reflexivity.
  - exact twoFamilies_touched.
Defined.

(** ** Repeating a request *)

Lemma mergeLoop_rows now o others db :
  foldl (mergeStep now o) db others
  = mkStore (mergeRows now o others <$> rows db) (nextId db).
Proof.
  revert db. induction others as [|p l IH]; intros db; simpl.
  - unfold mergeRows. simpl. rewrite list_fmap_id. by destruct db.
  - rewrite IH, mergeStep_rows. simpl. by rewrite <- list_fmap_compose.
Qed.

Lemma mergeRows_cons now o p l c :
  mergeRows now o (p :: l) c
  = mergeRows now o l (mergeRow now o (Contact.id p) c).
Proof. reflexivity. Qed.

Lemma mergeRows_fields now o others c :
  Contact.id (mergeRows now o others c) = Contact.id c
  ∧ Contact.email (mergeRows now o others c) = Contact.email c
  ∧ Contact.phoneNumber (mergeRows now o others c) = Contact.phoneNumber c
  ∧ Contact.deletedAt (mergeRows now o others c) = Contact.deletedAt c.
Proof.
  unfold mergeRows. revert c. induction others as [|p l IH]; intros c; simpl.
  - done.
  - destruct (IH (mergeRow now o (Contact.id p) c)) as (-> & -> & -> & ->).
    by rewrite mergeRow_id, mergeRow_email, mergeRow_phoneNumber,
      mergeRow_deletedAt.
Qed.

Lemma mergeRow_rootId now db o p c :
  Consistent db → p ∈ rows db → isPrimary p → o ≠ Contact.id p →
  c ∈ rows db →
  rootId (mergeRow now o (Contact.id p) c)
  = if decide (rootId c = Contact.id p) then o else rootId c.
Proof.
  intros Hcons Hp Hpp Hne Hc.
  destruct (decide (Contact.id c = Contact.id p)) as [Hid|Hid].
  { rewrite mergeRow_target by done.
    assert (c = p) as -> by (apply (primaryKey_inj db); done || apply Hcons).
    rewrite (rootId_primary db p) by done. by rewrite decide_True. }
  destruct (decide (Contact.linkedId c = Some (Contact.id p))) as [Hl|Hl].
  { rewrite mergeRow_dependent by done.
    assert (rootId c = Contact.id p) as Hroot
      by (unfold rootId; by rewrite Hl).
    by rewrite decide_True. }
  rewrite mergeRow_other by done.
  assert (rootId c ≠ Contact.id p) as Hroot.
  { unfold rootId. destruct (Contact.linkedId c) as [l|]; simpl; congruence. }
  by rewrite decide_False.
Qed.

Lemma mergeRows_rootId now o others db c :
  Consistent db →
  o ∈ rows db → isPrimary o → notDeleted o →
  Forall (λ p, p ∈ rows db ∧ isPrimary p ∧ Contact.id p ≠ Contact.id o)
    others →
  NoDup (Contact.id <$> others) →
  c ∈ rows db →
  rootId (mergeRows now (Contact.id o) others c)
  = if decide (rootId c ∈ Contact.id <$> others) then Contact.id o
    else rootId c.
Proof.
  intros Hcons Ho Hpo Hdo Hall Hnd Hc. revert db c Hcons Ho Hall Hnd Hc.
  induction others as [|p l IH]; intros db c Hcons Ho Hall Hnd Hc.
  { unfold mergeRows. cbn [foldl fmap list_fmap].
    destruct (decide _) as [Hin|_]; [|done]. by apply elem_of_nil in Hin. }
  apply Forall_cons in Hall as [(Hp & Hpp & Hne) Hall].
  cbn in Hnd. apply NoDup_cons in Hnd as [Hpl Hnd].
  destruct (mergeStep_consistent now db o p) as [Hcons' Hkeep]; [done..|].
  rewrite mergeRows_cons.
  rewrite (IH (mergeStep now (Contact.id o) db p)); try done.
  - rewrite (mergeRow_rootId now db) by (done || congruence).
    rewrite fmap_cons.
    destruct (decide (rootId c = Contact.id p)) as [Heq|Hneq].
    + rewrite (decide_True (P:=rootId c ∈ _)) by (rewrite Heq; left).
      by destruct (decide (Contact.id o ∈ Contact.id <$> l)).
    + destruct (decide (rootId c ∈ Contact.id <$> l)) as [Hin|Hin].
      * rewrite decide_True; [done|]. by right.
      * rewrite decide_False; [done|]. rewrite elem_of_cons. tauto.
  - apply Hkeep; [done..|congruence].
  - rewrite Forall_forall in Hall. apply Forall_forall. intros q Hq.
    destruct (Hall q Hq) as (Hqr & Hpq & Hqo). split; [|done].
    apply Hkeep; [done..|]. intros Heq. apply Hpl.
    apply list_elem_of_fmap. exists q. done.
  - apply elem_of_mergeStep. eauto.
Qed.

Lemma NoDup_singleton_list {A} (a : A) l :
  NoDup l → (∀ x, x ∈ l ↔ x = a) → l = [a].
Proof.
  intros Hnd Hel. destruct l as [|x l].
  - assert (a ∈ []) as Hin by by apply Hel. inversion Hin.
  - assert (x = a) as -> by (apply Hel; left).
    destruct l as [|y l]; [done|].
    assert (y = a) as -> by (apply Hel; right; left).
    apply NoDup_cons in Hnd as [Hnot _]. destruct Hnot. by left.
Qed.

Lemma rootId_link db c r :
  Consistent db → c ∈ rows db → rootId c = r →
  Contact.id c = r ∨ Contact.linkedId c = Some r.
Proof.
  intros Hcons Hc <-. unfold rootId.
  destruct (Contact.linkedId c); simpl; auto.
Qed.

(** A request whose matches all belong to one family, a member of which
    carries exactly the requested pair, writes nothing and answers with
    that family's primary. *)
Lemma identifyContact_single_family now db email phoneNumber x r :
  Consistent db →
  supplied email ∨ supplied phoneNumber →
  x ∈ rows db → notDeleted x →
  fieldEquals (Contact.email x) email →
  fieldEquals (Contact.phoneNumber x) phoneNumber →
  (∀ s, s ∈ findManyOrdered db (matchWhere email phoneNumber) →
        rootId s = r) →
  ∃ resp, identifyContact now db email phoneNumber = (db, Some resp)
          ∧ primaryContactId resp = r.
Proof.
  intros Hcons Hsup Hx Hdx Hex Hpx Hone. unfold identifyContact.
  set (matches := findManyOrdered db (matchWhere email phoneNumber)) in *.
  assert (∀ s, s ∈ matches → s ∈ rows db) as Hseeds.
  { intros s Hs%elem_of_matches. tauto. }
  assert (x ∈ matches) as Hxm.
  { apply elem_of_matches. split; [done|]. split; [done|].
    destruct Hsup as [Hs|Hs]; [left|right]; (split; [done|]).
    - destruct (fieldEquals_supplied _ _ Hs Hex) as (s & -> & ->). done.
    - destruct (fieldEquals_supplied _ _ Hs Hpx) as (s & -> & ->). done. }
  destruct (root_row db x Hcons Hx) as (o & Ho & Hpo & Hid & Hdo & _).
  rewrite (Hone x Hxm) in Hid. specialize (Hdo Hdx).
  set (allRelated := getAllRelatedContacts db matches).
  assert (getUniquePrimaries allRelated = [o]) as ->.
  { apply NoDup_singleton_list.
    - eapply NoDup_fmap_1, primaries_NoDup, Hcons.
    - intros q. unfold allRelated. rewrite elem_of_selected by done. split.
      + intros (Hq & Hpq & Hdq & s & Hs & Hroot).
        apply (primaryKey_inj db); [apply Hcons|done..|].
        rewrite <- Hroot, Hid. by apply Hone.
      + intros ->. split; [done|]. split; [done|]. split; [done|].
        exists x. split; [done|]. rewrite Hid. by apply Hone. }
  set (family := filter _ allRelated).
  assert (x ∈ family) as Hxf.
  { apply list_elem_of_filter. split.
    - rewrite Hid. apply (rootId_link db); [done..|]. by apply Hone.
    - apply elem_of_expanded; [done..|]. eauto. }
  assert (o ∈ family) as Hof.
  { apply list_elem_of_filter. split; [by left|].
    apply elem_of_expanded; [done..|]. split; [done|]. split; [done|].
    exists x. split; [done|].
    rewrite (rootId_primary db o) by done. rewrite Hid. by apply Hone. }
  rewrite shouldCreateSecondary_exact by (exists x; done).
  destruct (buildResponse_is_Some family o Hof Hpo) as [resp Hresp].
  exists resp. rewrite Hresp. split; [done|].
  apply buildResponse_Some in Hresp as [(q & Hq & Hpq & ->) _].
  apply list_elem_of_filter in Hq as [[Hq|Hq] Hqa]; [congruence|].
  apply elem_of_getAllRelatedContacts_rows in Hqa as [Hqr _].
  rewrite (cons_links db Hcons q Hqr Hpq) in Hq. discriminate.
Qed.

(** C4.  Let a store satisfy the data model and hold a live contact whose
    email and phone number are exactly those of a request that supplies at
    least one of them.  The request creates no contact, repeating it
    changes nothing at all, and both answers name the same primary. *)
Theorem repeated_request_is_idempotent now1 now2 db email phoneNumber x :
  DataModel db →
  supplied email ∨ supplied phoneNumber →
  x ∈ rows db → notDeleted x →
  fieldEquals (Contact.email x) email →
  fieldEquals (Contact.phoneNumber x) phoneNumber →
  let first := identifyContact now1 db email phoneNumber in
  let second := identifyContact now2 first.1 email phoneNumber in
  Contact.id <$> rows first.1 = Contact.id <$> rows db
  ∧ nextId first.1 = nextId db
  ∧ second.1 = first.1
  ∧ ∃ r1 r2, first.2 = Some r1 ∧ second.2 = Some r2
             ∧ primaryContactId r2 = primaryContactId r1.
Proof.
  intros Hcons%consistent_dataModel Hsup Hx Hdx Hex Hpx. cbv zeta.
  set (matches := findManyOrdered db (matchWhere email phoneNumber)).
  assert (∀ s, s ∈ matches → s ∈ rows db ∧ notDeleted s) as Hseeds.
  { intros s Hs%elem_of_matches. tauto. }
  assert (x ∈ matches) as Hxm.
  { apply elem_of_matches. split; [done|]. split; [done|].
    destruct Hsup as [Hs|Hs]; [left|right]; (split; [done|]).
    - destruct (fieldEquals_supplied _ _ Hs Hex) as (s & -> & ->). done.
    - destruct (fieldEquals_supplied _ _ Hs Hpx) as (s & -> & ->). done. }
  set (primaries := getUniquePrimaries (getAllRelatedContacts db matches)).
  assert (∀ s, s ∈ matches →
               ∃ q, q ∈ primaries ∧ Contact.id q = rootId s) as Hroots.
  { intros s Hs. destruct (Hseeds s Hs) as [Hsr Hsd].
    destruct (root_row db s Hcons Hsr) as (q & Hq & Hpq & Hid & Hdq & _).
    exists q. split; [|done]. apply elem_of_selected; [done| |].
    - intros t Ht. by apply Hseeds.
    - split; [done|]. split; [done|]. split; [by apply Hdq|]. eauto. }
  assert (∀ q, q ∈ primaries → q ∈ rows db ∧ isPrimary q ∧ notDeleted q)
    as Hprim.
  { intros q Hq. apply elem_of_selected in Hq; [tauto|done|].
    intros t Ht. by apply Hseeds. }
  destruct primaries as [|q [|q2 l]] eqn:Hps.
  - destruct (Hroots x Hxm) as (q & Hq & _). inversion Hq.
  - (* one family: nothing is written, either time *)
    assert (∀ s, s ∈ matches → rootId s = Contact.id q) as Hone.
    { intros s Hs. destruct (Hroots s Hs) as (q' & Hq' & <-).
      by apply list_elem_of_singleton in Hq' as ->. }
    destruct (identifyContact_single_family now1 db email phoneNumber x
                (Contact.id q)) as (r1 & -> & Hr1); [done..|].
    cbn [fst snd].
    destruct (identifyContact_single_family now2 db email phoneNumber x
                (Contact.id q)) as (r2 & -> & Hr2); [done..|].
    cbn [fst snd]. split; [done|]. split; [done|]. split; [done|].
    exists r1, r2. split; [done|]. split; [done|]. congruence.
  - (* several families: the first request merges them *)
    assert (identifyContact now1 db email phoneNumber
            = mergePrimaries now1 db primaries
                (getAllRelatedContacts db matches) email phoneNumber)
      as ->.
    { unfold identifyContact. fold matches. fold primaries.
      subst primaries. by rewrite Hps. }
    rewrite <- Hps in *. clear Hps q q2 l.
    assert (primaries ≠ []) as Hne.
    { intros Hnil. destruct (Hroots x Hxm) as (q & Hq & _).
      rewrite Hnil in Hq. inversion Hq. }
    destruct (oldestOf_is_Some primaries Hne) as [o Ho].
    destruct (oldestOf_spec _ _ Ho) as [Hoin _].
    destruct (Hprim o Hoin) as (Hor & Hpo & Hdo).
    rewrite (mergePrimaries_shape now1 db primaries _ email phoneNumber o Ho).
    set (others := filter (λ p, Contact.id p ≠ Contact.id o) primaries).
    assert (Forall
              (λ p, p ∈ rows db ∧ isPrimary p ∧ Contact.id p ≠ Contact.id o)
              others) as Hothers.
    { apply Forall_forall. intros p (Hp & Hpin)%list_elem_of_filter.
      destruct (Hprim p Hpin) as (? & ? & ?). done. }
    assert (NoDup (Contact.id <$> others)) as Hnd.
    { eapply sublist_NoDup;
        [apply (primaries_NoDup db matches), Hcons|].
      apply fmap_sublist, sublist_filter. }
    destruct (mergeLoop_consistent now1 o others db) as (Hcons1 & Ho1 & Hnext);
      [done..|].
    set (db1 := foldl (mergeStep now1 (Contact.id o)) db others) in *.
    assert (rows db1 = mergeRows now1 (Contact.id o) others <$> rows db)
      as Hrows1.
    { unfold db1. by rewrite mergeLoop_rows. }
    set (G := mergeRows now1 (Contact.id o) others) in *.
    assert (∀ s, s ∈ matches → rootId (G s) = Contact.id o) as HrootG.
    { intros s Hs. destruct (Hseeds s Hs) as [Hsr _].
      unfold G. rewrite (mergeRows_rootId now1 o others db) by done.
      destruct (decide (rootId s ∈ Contact.id <$> others)) as [Hin|Hin];
        [done|].
      destruct (Hroots s Hs) as (q & Hq & Hid). rewrite <- Hid.
      destruct (decide (Contact.id q = Contact.id o)) as [Heq|Hneq]; [done|].
      destruct Hin. rewrite <- Hid. apply list_elem_of_fmap_2.
      by apply list_elem_of_filter. }
    destruct (mergeRows_fields now1 (Contact.id o) others x)
      as (Hxid & Hxe & Hxp & Hxd). fold G in Hxid, Hxe, Hxp, Hxd.
    assert (G x ∈ rows db1) as Hx1.
    { rewrite Hrows1. by apply list_elem_of_fmap_2. }
    assert (notDeleted (G x)) as Hdx1 by (unfold notDeleted; congruence).
    set (family := findManyOrdered db1 (familyWhere (Contact.id o))).
    assert (G x ∈ family) as Hxf.
    { apply elem_of_findManyOrdered. split; [|done]. split; [|done].
      apply (rootId_link db1); [done..|]. by apply HrootG. }
    assert (o ∈ family) as Hof.
    { apply elem_of_findManyOrdered. split; [|done]. split; [by left|done]. }
    rewrite shouldCreateSecondary_exact.
    2:{ exists (G x). split; [done|]. by rewrite Hxe, Hxp. }
    cbn [fst snd].
    destruct (identifyContact_single_family now2 db1 email phoneNumber (G x)
                (Contact.id o)) as (r2 & -> & Hr2); try done.
    { by rewrite Hxe. }
    { by rewrite Hxp. }
    { intros s' (Hs'r & Hs'd & Hs'm)%elem_of_matches.
      rewrite Hrows1 in Hs'r.
      apply list_elem_of_fmap in Hs'r as (s & -> & Hs).
      destruct (mergeRows_fields now1 (Contact.id o) others s)
        as (_ & Hse & Hsp & Hsd). fold G in Hse, Hsp, Hsd.
      apply HrootG. apply elem_of_matches. split; [done|].
      split; [unfold notDeleted in *; congruence|].
      by rewrite <- Hse, <- Hsp. }
    destruct (buildResponse_is_Some family o Hof Hpo) as [r1 Hr1].
    cbn [fst snd]. split.
    { rewrite Hrows1, <- list_fmap_compose. apply list_fmap_ext.
      intros i c _. apply mergeRows_fields. }
    split; [done|]. split; [done|].
    exists r1, r2. split; [done|]. split; [done|]. rewrite Hr2.
    apply buildResponse_Some in Hr1 as [(q & Hq & Hpq & ->) _].
    apply elem_of_findManyOrdered in Hq as [[[Hq|Hq] _] Hqr]; [done|].
    rewrite (cons_links db1 Hcons1 q Hqr Hpq) in Hq. discriminate.
Qed.

Lemma repeated_request_is_idempotent_witness :
  let first := identifyContact 100 twoFamilies (Str "b@x.com") (Str "999") in
  let second := identifyContact 200 first.1 (Str "b@x.com") (Str "999") in
  Contact.id <$> rows first.1 = Contact.id <$> rows twoFamilies
  ∧ nextId first.1 = nextId twoFamilies
  ∧ second.1 = first.1
  ∧ ∃ r1 r2, first.2 = Some r1 ∧ second.2 = Some r2
             ∧ primaryContactId r2 = primaryContactId r1.
Proof.
  apply (repeated_request_is_idempotent 100 200 twoFamilies (Str "b@x.com")
           (Str "999") youngerPrimary).
  - exact twoFamilies_dataModel.
  - left. reflexivity.
  - by_computation.
  - reflexivity.
  - reflexivity.
  - reflexivity.
Defined.

(** * Further properties of the service *)

(** ** Matcher *)

Lemma filter_none {A} (P : A → Prop) `{!∀ x, Decision (P x)} (l : list A) :
  (∀ x, x ∈ l → ¬ P x) → filter P l = [].
Proof.
  induction l as [|a l IH]; intros Hall; [done|].
  rewrite filter_cons_False by (apply Hall; left).
  apply IH. intros x Hx. apply Hall. by right.
Qed.

(** X1.  The match query returns, in ascending [createdAt] order, exactly
    the live rows that carry a supplied identifier.  An absent or empty
    identifier contributes no clause, so it never matches a NULL column,
    and a request without any identifier matches nothing. *)
Theorem matcher_selects db email phoneNumber :
  let matches := findManyOrdered db (matchWhere email phoneNumber) in
  (∀ c, c ∈ matches
        ↔ c ∈ rows db ∧ notDeleted c
          ∧ ((supplied email ∧ Str <$> Contact.email c = Some email)
             ∨ (supplied phoneNumber
                ∧ Str <$> Contact.phoneNumber c = Some phoneNumber)))
  ∧ StronglySorted createdAtLe matches
  ∧ (¬ supplied email → ¬ supplied phoneNumber → matches = []).
Proof.
  cbv zeta. split; [intros c; apply elem_of_matches|].
  split; [apply findManyOrdered_sorted|].
  intros He Hp. unfold findManyOrdered. rewrite filter_none; [done|].
  intros c _ [Hex _]. unfold orClauses, supplied in *.
  destruct email as [| |s], phoneNumber as [| |t]; simpl in *;
    repeat (destruct (bool_decide _)); simpl in *;
    try (by apply Exists_nil in Hex); congruence.
Qed.

Lemma matcher_selects_witness :
  findManyOrdered store2 (matchWhere Undefined Null) = [].
Proof.
  apply (matcher_selects store2 Undefined Null); discriminate.
Defined.

(** ** Requests that match nothing *)

(** X2.  When no row satisfies the match query, the request appends one
    row to the table: a primary without link, carrying the request's
    fields and the next id of the sequence.  The response names that id,
    lists the non-empty fields and has no secondaries. *)
Theorem no_match_creates_primary now db email phoneNumber :
  (∀ c, c ∈ rows db → ¬ matchWhere email phoneNumber c) →
  identifyContact now db email phoneNumber
  = (mkStore
       (rows db
        ++ [Contact.mk (nextId db) (toColumn phoneNumber) (toColumn email)
              None primary now now None])
       (nextId db + 1),
     Some
       (mkResponse (nextId db) (pushTruthy (toColumn email))
          (pushTruthy (toColumn phoneNumber)) [])).
Proof.
  intros Hnone. unfold identifyContact, findManyOrdered.
  by rewrite filter_none.
Qed.

Lemma no_match_creates_primary_witness :
  identifyContact 100 store2 (Str "z@x.com") Undefined
  = (mkStore
       (rows store2
        ++ [Contact.mk 2 None (Some "z@x.com") None primary 100 100 None])
       3,
     Some (mkResponse 2 ["z@x.com"] [] [])).
Proof.
  apply (no_match_creates_primary 100 store2 (Str "z@x.com") Undefined).
  intros c Hc. apply list_elem_of_singleton in Hc as ->.
  intros [Hex _]. apply Exists_cons in Hex as [Hex|Hex]; [discriminate|].
  by apply Exists_nil in Hex.
Defined.

(** ** What a request never does to the table *)

Lemma mergeRow_secondary now o p c :
  isSecondary c → isSecondary (mergeRow now o p c).
Proof. unfold mergeRow, isSecondary. by repeat case_decide. Qed.

Lemma mergeRows_kept now o others c :
  Contact.id (mergeRows now o others c) = Contact.id c
  ∧ Contact.email (mergeRows now o others c) = Contact.email c
  ∧ Contact.phoneNumber (mergeRows now o others c) = Contact.phoneNumber c
  ∧ Contact.createdAt (mergeRows now o others c) = Contact.createdAt c
  ∧ Contact.deletedAt (mergeRows now o others c) = Contact.deletedAt c
  ∧ (isSecondary c → isSecondary (mergeRows now o others c)).
Proof.
  revert c. induction others as [|p l IH]; intros c; [done|].
  rewrite mergeRows_cons.
  destruct (IH (mergeRow now o (Contact.id p) c))
    as (-> & -> & -> & -> & -> & Hsec).
  rewrite mergeRow_id, mergeRow_email, mergeRow_phoneNumber,
    mergeRow_createdAt, mergeRow_deletedAt.
  repeat split. intros Hc. by apply Hsec, mergeRow_secondary.
Qed.

(** X3.  Whatever the store, a request keeps every row in place with its
    id, email, phone number, [createdAt] and [deletedAt]; it never turns a
    secondary into a primary, and it appends at most one row, live and
    numbered by the sequence. *)
Theorem identifyContact_keeps_rows now db email phoneNumber :
  let out := identifyContact now db email phoneNumber in
  ∃ (g : Contact → Contact) (extra : list Contact),
    rows out.1 = (g <$> rows db) ++ extra
    ∧ (length extra ≤ 1)%nat
    ∧ nextId out.1 = nextId db + Z.of_nat (length extra)
    ∧ Forall (λ c, Contact.id c = nextId db ∧ notDeleted c) extra
    ∧ ∀ c, Contact.id (g c) = Contact.id c
           ∧ Contact.email (g c) = Contact.email c
           ∧ Contact.phoneNumber (g c) = Contact.phoneNumber c
           ∧ Contact.createdAt (g c) = Contact.createdAt c
           ∧ Contact.deletedAt (g c) = Contact.deletedAt c
           ∧ (isSecondary c → isSecondary (g c)).
Proof.
  cbv zeta. unfold identifyContact.
  set (allRelated := getAllRelatedContacts db _).
  destruct (getUniquePrimaries allRelated) as [|p [|q l]] eqn:Hps.
  - exists id, [newContact now db email phoneNumber None primary].
    simpl. rewrite list_fmap_id. repeat split; try done; try lia.
    by repeat constructor.
  - set (family := filter _ allRelated).
    destruct (shouldCreateSecondary family email phoneNumber).
    + exists id,
        [newContact now db email phoneNumber (Some (Contact.id p)) secondary].
      simpl. rewrite list_fmap_id. repeat split; try done; try lia.
      by repeat constructor.
    + exists id, []. simpl. rewrite list_fmap_id, app_nil_r.
      repeat split; try done; lia.
  - rewrite <- Hps. clear Hps.
    set (primaries := getUniquePrimaries allRelated).
    destruct (oldestOf primaries) as [o|] eqn:Ho.
    2:{ unfold mergePrimaries. rewrite Ho. exists id, []. simpl.
        rewrite list_fmap_id, app_nil_r. repeat split; try done; lia. }
    rewrite (mergePrimaries_shape now db primaries _ email phoneNumber o Ho).
    rewrite mergeLoop_rows.
    set (others := filter _ primaries).
    set (db1 := mkStore _ (nextId db)).
    exists (mergeRows now (Contact.id o) others).
    destruct (shouldCreateSecondary _ email phoneNumber).
    + exists [newContact now db1 email phoneNumber (Some (Contact.id o))
                secondary].
      simpl. split; [done|]. split; [lia|]. split; [lia|].
      split; [by repeat constructor|]. intros c. apply mergeRows_kept.
    + exists []. simpl. rewrite app_nil_r. split; [done|]. split; [lia|].
      split; [lia|]. split; [constructor|]. intros c. apply mergeRows_kept.
Qed.

(** ** GraphExpander: what it returns *)

(** X4.  The expanded set holds rows of the table only, none of them
    tombstoned, in ascending [createdAt] order; over a table with unique
    ids no id occurs twice in it and every live seed taken from the table
    is part of it.  An empty seed list gives an empty set. *)
Theorem expansion_returns_live_rows db matches :
  let result := getAllRelatedContacts db matches in
  (∀ c, c ∈ result → c ∈ rows db ∧ notDeleted c)
  ∧ StronglySorted createdAtLe result
  ∧ (primaryKey db → NoDup (Contact.id <$> result))
  ∧ (primaryKey db → (∀ s, s ∈ matches → s ∈ rows db) →
     ∀ s, s ∈ matches → notDeleted s → s ∈ result)
  ∧ (matches = [] → result = []).
Proof.
  cbv zeta. split; [apply elem_of_getAllRelatedContacts_rows|]. split.
  { destruct (getAllRelatedContacts_cases db matches)
      as [->|(ids & _ & _ & ->)]; [constructor|apply findManyOrdered_sorted]. }
  split; [apply getAllRelatedContacts_NoDup|]. split.
  - intros Hkey Hseeds s Hs Hd. apply elem_of_getAllRelatedContacts; [done..|].
    split; [by apply Hseeds|]. split; [done|]. exists s. split; [done|].
    apply rtc_refl.
  - by intros ->.
Qed.

Lemma expansion_returns_live_rows_witness :
  liveSecondaryA
  ∈ getAllRelatedContacts tombstoneStore [liveSecondaryA; tombstonedPrimary].
Proof.
  apply (expansion_returns_live_rows tombstoneStore
           [liveSecondaryA; tombstonedPrimary]).
  - by_computation.
  - apply Forall_forall. by_computation.
  - by_computation.
  - reflexivity.
Defined.

(** ** SecondaryCreator: further members never call for a creation *)

Lemma strictEq_toColumn a : truthy a = true → strictEq (toColumn a) a = true.
Proof.
  destruct a as [| |s]; simpl; try discriminate. intros _.
  by apply bool_decide_eq_true.
Qed.

(** X5.  Once [shouldCreateSecondary] answers no for a family it answers
    no for every extension of it, and it answers no as soon as the contact
    created for the request has been pushed onto the family. *)
Theorem shouldCreateSecondary_settles family extra email phoneNumber
    now db link prec :
  (shouldCreateSecondary family email phoneNumber = false →
   shouldCreateSecondary (family ++ extra) email phoneNumber = false)
  ∧ shouldCreateSecondary
      (family ++ [newContact now db email phoneNumber link prec])
      email phoneNumber
    = false.
Proof.
  rewrite !shouldCreateSecondary_normal, !existsb_app. split.
  - rewrite !orb_false_iff, !andb_false_iff, !negb_false_iff.
    intros [[He|He] [Hp|Hp]]; rewrite ?He, ?Hp; simpl;
      rewrite ?andb_false_r; auto.
  - simpl. rewrite !orb_false_r.
    destruct (truthy email) eqn:He, (truthy phoneNumber) eqn:Hp; simpl;
      rewrite ?strictEq_toColumn by done; rewrite ?orb_true_r; done.
Qed.

Lemma shouldCreateSecondary_settles_witness :
  shouldCreateSecondary (aliceFamily ++ threeFamily) (Str "a@x.com")
    (Str "123")
  = false.
Proof.
  apply (proj1 (shouldCreateSecondary_settles aliceFamily threeFamily
                  (Str "a@x.com") (Str "123") 0 emptyStore None primary)).
  reflexivity.
Defined.

(** ** ResponseBuilder: which values are listed *)

Lemma elem_of_firstOccurrences l x : x ∈ firstOccurrences l ↔ x ∈ l.
Proof.
  split; [apply firstOccurrences_subset|].
  induction l as [|a l IH]; simpl; [done|].
  rewrite !elem_of_cons, list_elem_of_filter.
  intros [->|Hx]; [by left|].
  destruct (decide (x = a)) as [->|Hne]; [by left|]. right. auto.
Qed.

Lemma elem_of_nonEmpty (field : Contact → option string) l s :
  s ∈ nonEmpty field l ↔ s ≠ "" ∧ ∃ c, c ∈ l ∧ field c = Some s.
Proof.
  unfold nonEmpty. by rewrite list_elem_of_filter, list_elem_of_omap.
Qed.

Lemma elem_of_collected (field : Contact → option string) p contacts s :
  s ∈ foldl pushNew (pushTruthy (field p))
        (field <$> filter isSecondary contacts)
  ↔ s ≠ ""
    ∧ (field p = Some s
       ∨ ∃ c, c ∈ contacts ∧ isSecondary c ∧ field c = Some s).
Proof.
  rewrite collected_values, elem_of_firstOccurrences, elem_of_nonEmpty.
  split.
  - intros [Hne (c & Hc & Hf)]. split; [done|].
    apply elem_of_cons in Hc as [->|Hc]; [by left|]. right.
    apply list_elem_of_filter in Hc as [Hs Hc]. eauto.
  - intros [Hne [Hp|(c & Hc & Hs & Hf)]]; (split; [done|]).
    + exists p. split; [by left|done].
    + exists c. split; [|done]. right. by apply list_elem_of_filter.
Qed.

(** X6.  The response lists exactly the non-empty emails and phone numbers
    of the first primary of the list and of its secondaries, and the ids of
    exactly its secondaries, one entry per secondary; a further primary in
    the list contributes nothing. *)
Theorem buildResponse_values contacts p :
  head (filter isPrimary contacts) = Some p →
  ∃ r, buildResponse contacts = Some r
       ∧ primaryContactId r = Contact.id p
       ∧ (∀ s, s ∈ emails r
               ↔ s ≠ ""
                 ∧ (Contact.email p = Some s
                    ∨ ∃ c, c ∈ contacts ∧ isSecondary c
                           ∧ Contact.email c = Some s))
       ∧ (∀ s, s ∈ phoneNumbers r
               ↔ s ≠ ""
                 ∧ (Contact.phoneNumber p = Some s
                    ∨ ∃ c, c ∈ contacts ∧ isSecondary c
                           ∧ Contact.phoneNumber c = Some s))
       ∧ (∀ i, i ∈ secondaryContactIds r
               ↔ ∃ c, c ∈ contacts ∧ isSecondary c ∧ Contact.id c = i)
       ∧ length (secondaryContactIds r)
         = length (filter isSecondary contacts).
Proof.
  intros Hp. unfold buildResponse. rewrite Hp. eexists.
  split; [reflexivity|]. simpl. split; [done|].
  split; [intros s; apply elem_of_collected|].
  split; [intros s; apply elem_of_collected|]. split.
  - intros i. rewrite list_elem_of_fmap. split.
    + intros (c & -> & [Hs Hc]%list_elem_of_filter). eauto.
    + intros (c & Hc & Hs & <-). exists c. split; [done|].
      by apply list_elem_of_filter.
  - by rewrite length_fmap.
Qed.

Lemma buildResponse_values_witness :
  ∃ r, buildResponse staleList = Some r
       ∧ primaryContactId r = 1
       ∧ "new@x.com" ∉ emails r.
Proof.
  destruct (buildResponse_values staleList
              (Contact.mk 1 None (Some "old@x.com") None primary 10 10 None))
    as (r & Hr & Hid & He & _); [reflexivity|].
  exists r. split; [exact Hr|]. split; [exact Hid|].
  intros Hin. apply He in Hin as [_ [Hin|(c & Hc & Hs & Hin)]].
  - discriminate.
  - assert (Forall
              (λ c, isSecondary c → Contact.email c ≠ Some "new@x.com")
              staleList) as Hall by by_computation.
    rewrite Forall_forall in Hall. exact (Hall c Hc Hs Hin).
Defined.

(** ** PrimarySelector on lists with repeated ids *)

Lemma mapSet_keys k v m :
  (mapSet k v m).*1 = if decide (k ∈ m.*1) then m.*1 else m.*1 ++ [k].
Proof.
  induction m as [|[k' v'] m IH]; cbn [mapSet].
  - rewrite fmap_nil, decide_False; [done|]. by intros ?%elem_of_nil.
  - rewrite fmap_cons. cbn [fst].
    destruct (decide (k' = k)) as [->|Hne]; rewrite fmap_cons; cbn [fst].
    + rewrite decide_True; [done|]. by left.
    + rewrite IH. destruct (decide (k ∈ m.*1)) as [Hin|Hin].
      * rewrite decide_True; [done|]. by right.
      * rewrite decide_False; [done|]. rewrite elem_of_cons.
        intros [?|?]; congruence.
Qed.

Lemma mapSet_NoDup k v m : NoDup m.*1 → NoDup (mapSet k v m).*1.
Proof.
  intros Hnd. rewrite mapSet_keys. destruct (decide (k ∈ m.*1)); [done|].
  apply NoDup_app. split; [done|]. split; [|apply NoDup_singleton].
  intros x Hx Hin. apply list_elem_of_singleton in Hin as ->. done.
Qed.

Lemma elem_of_mapSet k v m k' v' :
  NoDup m.*1 →
  (k', v') ∈ mapSet k v m
  ↔ (k' = k ∧ v' = v) ∨ (k' ≠ k ∧ (k', v') ∈ m).
Proof.
  induction m as [|[k1 v1] m IH]; simpl; intros Hnd.
  - rewrite list_elem_of_singleton. split.
    + intros [= -> ->]. by left.
    + intros [[-> ->]|[_ Hin]]; [done|]. by apply elem_of_nil in Hin.
  - apply NoDup_cons in Hnd as [Hk1 Hnd].
    destruct (decide (k1 = k)) as [->|Hne].
    + rewrite !elem_of_cons. split.
      * intros [[= -> ->]|Hin]; [by left|]. right. split; [|by right].
        intros ->. apply Hk1. apply list_elem_of_fmap. by exists (k, v').
      * intros [[-> ->]|[Hk [[= -> ->]|Hin]]]; [by left|done|by right].
    + rewrite !elem_of_cons, IH by done. split.
      * intros [[= -> ->]|[[-> ->]|[Hk Hin]]].
        -- right. split; [done|by left].
        -- by left.
        -- right. split; [done|by right].
      * intros [[-> ->]|[Hk [[= -> ->]|Hin]]].
        -- right. by left.
        -- by left.
        -- right. right. done.
Qed.

Lemma primaryMap_aux l m :
  NoDup m.*1 →
  let m' :=
    foldl
      (λ m c, if decide (isPrimary c) then mapSet (Contact.id c) c m else m)
      m l in
  NoDup m'.*1
  ∧ (∀ k v, (k, v) ∈ m' →
            (k, v) ∈ m ∨ (Contact.id v = k ∧ isPrimary v ∧ v ∈ l))
  ∧ (∀ k, k ∈ m.*1 → k ∈ m'.*1)
  ∧ (∀ c, c ∈ l → isPrimary c → Contact.id c ∈ m'.*1)
  ∧ (∀ k v, (k, v) ∈ m →
            (∀ x, x ∈ l → isPrimary x → Contact.id x ≠ k) → (k, v) ∈ m').
Proof.
  revert m. induction l as [|c l IH]; intros m Hnd; simpl.
  { split; [done|]. split; [by left|]. split; [done|].
    split; [|done]. by intros c ?%elem_of_nil. }
  set (m1 := if decide (isPrimary c) then mapSet (Contact.id c) c m else m).
  assert (NoDup m1.*1) as Hnd1.
  { unfold m1. destruct (decide _); [by apply mapSet_NoDup|done]. }
  destruct (IH m1 Hnd1) as (H1 & H2 & H3 & H4 & H5).
  split; [done|]. split; [|split; [|split]].
  - intros k v Hkv. destruct (H2 k v Hkv) as [Hin|(? & ? & ?)].
    + unfold m1 in Hin. destruct (decide (isPrimary c)) as [Hp|Hp].
      * apply elem_of_mapSet in Hin as [[-> ->]|[_ Hin]]; [|by left|done].
        right. split; [done|]. split; [done|by left].
      * by left.
    + right. split; [done|]. split; [done|by right].
  - intros k Hk. apply H3. unfold m1.
    destruct (decide (isPrimary c)); [|done]. rewrite mapSet_keys.
    destruct (decide (Contact.id c ∈ m.*1)); [done|].
    apply elem_of_app. by left.
  - intros x [->|Hx]%elem_of_cons Hpx; [|by apply H4].
    apply H3. unfold m1. destruct (decide (isPrimary c)); [|done].
    rewrite mapSet_keys.
    destruct (decide (Contact.id c ∈ m.*1)); [done|].
    apply elem_of_app. right. by left.
  - intros k v Hkv Hfresh. apply H5.
    + unfold m1. destruct (decide (isPrimary c)) as [Hp|Hp]; [|done].
      apply elem_of_mapSet; [done|]. right. split; [|done].
      intros ->. apply (Hfresh c); [by left|done|done].
    + intros x Hx. apply Hfresh. by right.
Qed.

(** X7.  On any list, also one in which an id occurs several times, the
    selection has pairwise different ids, consists of primaries of the
    list, represents every primary id of the list, and keeps for each id
    the last primary the list holds under it. *)
Theorem getUniquePrimaries_dedup contacts :
  let result := getUniquePrimaries contacts in
  NoDup (Contact.id <$> result)
  ∧ (∀ p, p ∈ result → isPrimary p ∧ p ∈ contacts)
  ∧ (∀ c, c ∈ contacts → isPrimary c →
          Contact.id c ∈ Contact.id <$> result)
  ∧ (∀ before c after,
       contacts = before ++ c :: after → isPrimary c →
       (∀ x, x ∈ after → isPrimary x → Contact.id x ≠ Contact.id c) →
       c ∈ result).
Proof.
  cbv zeta. unfold getUniquePrimaries.
  destruct (primaryMap_aux contacts [] (NoDup_nil_2 : NoDup ([] : list (Z * Contact)).*1))
    as (H1 & H2 & _ & H4 & _). fold (primaryMap contacts) in *.
  assert (Contact.id <$> (primaryMap contacts).*2 = (primaryMap contacts).*1)
    as Hkeys.
  { rewrite <- list_fmap_compose. apply list_fmap_ext.
    intros i [k v] Hi. simpl.
    destruct (H2 k v) as [Hin|(? & _)]; [|by apply elem_of_nil in Hin|done].
    apply list_elem_of_lookup. eauto. }
  split; [by rewrite sortByCreatedAt_perm, Hkeys|]. split; [|split].
  - intros p Hp. rewrite elem_of_sortByCreatedAt in Hp.
    apply list_elem_of_fmap in Hp as ([k v] & -> & Hkv). simpl.
    destruct (H2 k v Hkv) as [Hin|(_ & ? & ?)]; [|done].
    by apply elem_of_nil in Hin.
  - intros c Hc Hp. rewrite sortByCreatedAt_perm, Hkeys. by apply H4.
  - intros before c after -> Hp Hlast. rewrite elem_of_sortByCreatedAt.
    apply list_elem_of_fmap. exists (Contact.id c, c). split; [done|].
    unfold primaryMap. rewrite foldl_app. simpl.
    rewrite decide_True by done.
    set (m0 := foldl _ [] before).
    assert (NoDup m0.*1) as Hnd0.
    { apply (primaryMap_aux before []). constructor. }
    apply (primaryMap_aux after (mapSet (Contact.id c) c m0)).
    + by apply mapSet_NoDup.
    + apply elem_of_mapSet; [done|]. by left.
    + done.
Qed.

Lemma getUniquePrimaries_dedup_witness :
  Contact.mk 1 None (Some "new@x.com") None primary 10 30 None
  ∈ getUniquePrimaries staleList.
Proof.
  apply (proj2 (proj2 (proj2 (getUniquePrimaries_dedup staleList)))
           (take 2 staleList)
           (Contact.mk 1 None (Some "new@x.com") None primary 10 30 None)
           []).
  - reflexivity.
  - reflexivity.
  - intros x Hx. by apply elem_of_nil in Hx.
Defined.

(** ** The family a response is built from *)

Lemma appears_of_no_create family email phoneNumber :
  shouldCreateSecondary family email phoneNumber = false →
  (supplied email → emailAppears family email)
  ∧ (supplied phoneNumber → phoneAppears family phoneNumber).
Proof.
  rewrite shouldCreateSecondary_normal, orb_false_iff, !andb_false_iff,
    !negb_false_iff.
  intros [He Hp]. split; intros Hs.
  - apply hasEmail_appears; [done|]. destruct He as [He|He]; [|done].
    unfold supplied in Hs. congruence.
  - apply hasPhone_appears; [done|]. destruct Hp as [Hp|Hp]; [|done].
    unfold supplied in Hs. congruence.
Qed.

Lemma newContact_appears now db email phoneNumber link prec family :
  (supplied email →
   emailAppears (family ++ [newContact now db email phoneNumber link prec])
     email)
  ∧ (supplied phoneNumber →
     phoneAppears (family ++ [newContact now db email phoneNumber link prec])
       phoneNumber).
Proof.
  unfold supplied. split; intros Hs.
  - destruct email as [| |s]; try discriminate.
    exists (newContact now db (Str s) phoneNumber link prec), s.
    split; [|done]. apply elem_of_app. right. by left.
  - destruct phoneNumber as [| |s]; try discriminate.
    exists (newContact now db email (Str s) link prec), s.
    split; [|done]. apply elem_of_app. right. by left.
Qed.

(** The last step of both non-empty branches: push a new secondary or
    not, then build the response. *)
Lemma finish_family now db email phoneNumber o family :
  Consistent db →
  o ∈ rows db → isPrimary o → notDeleted o →
  (∀ c, c ∈ family ↔ familyOf db (Contact.id o) c) →
  let created :=
    create now db email phoneNumber (Some (Contact.id o)) secondary in
  let out :=
    if shouldCreateSecondary family email phoneNumber
    then (created.1, buildResponse (family ++ [created.2]))
    else (db, buildResponse family) in
  ∃ family',
    out.2 = buildResponse family'
    ∧ Consistent out.1 ∧ o ∈ rows out.1
    ∧ (∀ c, c ∈ family' ↔ familyOf out.1 (Contact.id o) c)
    ∧ (supplied email → emailAppears family' email)
    ∧ (supplied phoneNumber → phoneAppears family' phoneNumber).
Proof.
  intros Hcons Ho Hpo Hdo Hfam. cbv zeta.
  destruct (shouldCreateSecondary family email phoneNumber) eqn:Hcreate.
  - exists (family
            ++ [newContact now db email phoneNumber (Some (Contact.id o))
                  secondary]).
    split; [done|]. split.
    { apply (create_consistent now db email phoneNumber
               (Some (Contact.id o)) secondary); [done|].
      right. split; [done|]. exists o. done. }
    split; [by apply create_rows|]. split; [|apply newContact_appears].
    intros c. unfold familyOf. simpl. rewrite !elem_of_app, Hfam.
    unfold familyOf. rewrite list_elem_of_singleton. split.
    + intros [(? & ? & ?)| ->]; [tauto|]. split; [right; by left|].
      split; [done|]. by right.
    + intros ([?|Hnew] & ? & ?); [left; tauto|].
      right. by apply list_elem_of_singleton in Hnew.
  - exists family. split; [done|]. split; [done|]. split; [done|].
    split; [done|]. by apply appears_of_no_create.
Qed.

(** From a consistent store, the response is built from exactly the live
    members of the family of one live primary of the resulting store, and
    every supplied identifier is carried by one of them. *)
Lemma identifyContact_outcome now db email phoneNumber :
  Consistent db →
  let out := identifyContact now db email phoneNumber in
  ∃ o family,
    Consistent out.1
    ∧ o ∈ rows out.1 ∧ isPrimary o ∧ notDeleted o
    ∧ out.2 = buildResponse family
    ∧ (∀ c, c ∈ family ↔ familyOf out.1 (Contact.id o) c)
    ∧ (supplied email → emailAppears family email)
    ∧ (supplied phoneNumber → phoneAppears family phoneNumber).
Proof.
  intros Hcons. cbv zeta. unfold identifyContact.
  set (matches := findManyOrdered db (matchWhere email phoneNumber)).
  assert (∀ s, s ∈ matches → s ∈ rows db) as Hseeds.
  { intros s Hs%elem_of_matches. tauto. }
  set (allRelated := getAllRelatedContacts db matches).
  assert (∀ q, q ∈ getUniquePrimaries allRelated →
               q ∈ rows db ∧ isPrimary q ∧ notDeleted q
               ∧ ∃ s, s ∈ matches ∧ rootId s = Contact.id q) as Hprim.
  { intros q Hq. by apply elem_of_selected in Hq. }
  pose proof (primaries_NoDup db matches (cons_key db Hcons)) as Hnd.
  fold allRelated in Hnd.
  destruct (getUniquePrimaries allRelated) as [|q [|q2 l]] eqn:Hps.
  - (* a new primary *)
    set (new := newContact now db email phoneNumber None primary).
    exists new, [new]. simpl.
    assert (Consistent (create now db email phoneNumber None primary).1)
      as Hcons'.
    { apply create_consistent; [done|by left]. }
    split; [done|]. split; [apply elem_of_app; right; by left|].
    split; [done|]. split; [done|]. split; [done|]. split.
    + intros c. unfold familyOf. simpl.
      rewrite list_elem_of_singleton, elem_of_app, list_elem_of_singleton.
      split; [intros ->; split; [by right|]; split; [done|by left]|].
      intros ([Hc| ->] & _ & Hlink); [|done]. exfalso.
      destruct (cons_serial db Hcons) as [_ Hids].
      destruct Hlink as [Hid|Hl].
      * specialize (Hids c Hc). lia.
      * destruct (primary_or_secondary c) as [Hp|Hs].
        -- rewrite (cons_links db Hcons c Hc Hp) in Hl. discriminate.
        -- destruct (cons_inv1 db Hcons c Hc Hs) as (p & Hp & Hlp & _).
           specialize (Hids p Hp). rewrite Hlp in Hl. injection Hl. lia.
    + apply (newContact_appears now db email phoneNumber None primary []).
  - (* one family *)
    destruct (Hprim q) as (Hq & Hpq & Hdq & s & Hs & Hroot); [by left|].
    set (family := filter _ allRelated).
    destruct (finish_family now db email phoneNumber q family)
      as (family' & H1 & H2 & H3 & H4 & H5 & H6); [done..| |].
    { intros c. unfold family, familyOf. rewrite list_elem_of_filter.
      unfold allRelated. rewrite elem_of_expanded by done. split.
      - intros (? & ? & ? & _). tauto.
      - intros (Hc & Hd & Hlink). split; [done|]. split; [done|].
        split; [done|]. exists s. split; [done|]. rewrite Hroot.
        destruct Hlink as [Hid|Hl].
        + assert (c = q) as -> by by apply (primaryKey_inj db); try apply Hcons.
          by rewrite (rootId_primary db q).
        + unfold rootId. by rewrite Hl. }
    exists q, family'.
    destruct (shouldCreateSecondary family email phoneNumber); simpl in *;
      done.
  - (* several families *)
    assert (getUniquePrimaries allRelated ≠ []) as Hne by by rewrite Hps.
    rewrite <- Hps in *. clear Hps q q2 l.
    set (primaries := getUniquePrimaries allRelated) in *.
    destruct (oldestOf_is_Some primaries Hne) as [o Ho].
    rewrite (mergePrimaries_shape now db primaries _ email phoneNumber o Ho).
    destruct (oldestOf_spec _ _ Ho) as [Hoin _].
    destruct (Hprim o Hoin) as (Hor & Hpo & Hdo & _).
    set (others := filter (λ p, Contact.id p ≠ Contact.id o) primaries).
    destruct (mergeLoop_consistent now o others db) as (Hcons1 & Ho1 & _);
      [done..| | |].
    { apply Forall_forall. intros p (Hp & Hpin)%list_elem_of_filter.
      destruct (Hprim p Hpin) as (? & ? & ? & _). done. }
    { eapply sublist_NoDup; [exact Hnd|]. apply fmap_sublist, sublist_filter. }
    set (db1 := foldl (mergeStep now (Contact.id o)) db others) in *.
    set (family := findManyOrdered db1 (familyWhere (Contact.id o))).
    destruct (finish_family now db1 email phoneNumber o family)
      as (family' & H1 & H2 & H3 & H4 & H5 & H6); [done..| |].
    { intros c. unfold family, familyOf, familyWhere.
      rewrite elem_of_findManyOrdered. tauto. }
    exists o, family'.
    destruct (shouldCreateSecondary family email phoneNumber); simpl in *;
      done.
Qed.

Lemma buildResponse_inv contacts r :
  buildResponse contacts = Some r →
  ∃ p, head (filter isPrimary contacts) = Some p
       ∧ primaryContactId r = Contact.id p
       ∧ emails r
         = foldl pushNew (pushTruthy (Contact.email p))
             (Contact.email <$> filter isSecondary contacts)
       ∧ phoneNumbers r
         = foldl pushNew (pushTruthy (Contact.phoneNumber p))
             (Contact.phoneNumber <$> filter isSecondary contacts)
       ∧ secondaryContactIds r = Contact.id <$> filter isSecondary contacts.
Proof.
  unfold buildResponse.
  destruct (head (filter isPrimary contacts)) as [p|]; [|done].
  intros [= <-]. exists p. done.
Qed.

Lemma family_primary db o (family : list Contact) c :
  Consistent db → o ∈ rows db → isPrimary o →
  (∀ c, c ∈ family ↔ familyOf db (Contact.id o) c) →
  c ∈ family → isPrimary c → c = o.
Proof.
  intros Hcons Ho Hpo Hfam (Hc & _ & [Hid|Hl])%Hfam Hpc.
  - by apply (primaryKey_inj db); try apply Hcons.
  - rewrite (cons_links db Hcons c Hc Hpc) in Hl. discriminate.
Qed.

(** X8.  From a store that satisfies the data model, the response names a
    live primary of the resulting table, and its [secondaryContactIds] are
    exactly the ids of the live rows of that table linked to this primary;
    the primary's own id is not among them. *)
Theorem response_describes_family now db email phoneNumber :
  DataModel db →
  let out := identifyContact now db email phoneNumber in
  ∃ r o,
    out.2 = Some r
    ∧ o ∈ rows out.1 ∧ isPrimary o ∧ notDeleted o
    ∧ primaryContactId r = Contact.id o
    ∧ (∀ i, i ∈ secondaryContactIds r
            ↔ ∃ c, c ∈ rows out.1 ∧ notDeleted c
                   ∧ Contact.linkedId c = Some (Contact.id o)
                   ∧ Contact.id c = i)
    ∧ primaryContactId r ∉ secondaryContactIds r.
Proof.
  intros Hcons%consistent_dataModel.
  destruct (identifyContact_outcome now db email phoneNumber Hcons)
    as (o & family & Hcons' & Ho & Hpo & Hdo & Hresp & Hfam & _).
  cbv zeta. set (out := identifyContact now db email phoneNumber) in *.
  assert (o ∈ family) as Hof.
  { apply Hfam. split; [done|]. split; [done|by left]. }
  destruct (buildResponse_is_Some family o Hof Hpo) as [r Hr].
  exists r, o. rewrite Hresp. split; [done|]. split; [done|].
  split; [done|]. split; [done|].
  apply buildResponse_inv in Hr as (p & Hp & Hid & _ & _ & Hids).
  apply head_Some_elem_of, list_elem_of_filter in Hp as [Hpp Hp].
  assert (p = o) as -> by by apply (family_primary out.1 o family).
  split; [done|].
  assert (∀ i, i ∈ secondaryContactIds r
               ↔ ∃ c, c ∈ rows out.1 ∧ notDeleted c
                      ∧ Contact.linkedId c = Some (Contact.id o)
                      ∧ Contact.id c = i) as Hiff.
  { intros i. rewrite Hids, list_elem_of_fmap. split.
    - intros (c & -> & [Hs Hc]%list_elem_of_filter).
      apply Hfam in Hc as (Hc & Hd & [Heq|Hl]).
      + assert (c = o) as -> by by apply (primaryKey_inj out.1);
          try apply Hcons'.
        by destruct (primary_not_secondary o).
      + exists c. done.
    - intros (c & Hc & Hd & Hl & <-). exists c. split; [done|].
      apply list_elem_of_filter. split.
      + by destruct (consistent_link out.1 c o Hcons' Hc Ho Hl).
      + apply Hfam. split; [done|]. split; [done|by right]. }
  split; [done|]. rewrite Hid. intros (c & Hc & _ & Hl & Heq)%Hiff.
  assert (c = o) as -> by by apply (primaryKey_inj out.1); try apply Hcons'.
  rewrite (cons_links out.1 Hcons' o Ho Hpo) in Hl. discriminate.
Qed.

Lemma response_describes_family_witness :
  let out := identifyContact 100 twoFamilies (Str "a@x.com") (Str "999") in
  ∃ r o,
    out.2 = Some r
    ∧ o ∈ rows out.1 ∧ isPrimary o ∧ notDeleted o
    ∧ primaryContactId r = Contact.id o
    ∧ (∀ i, i ∈ secondaryContactIds r
            ↔ ∃ c, c ∈ rows out.1 ∧ notDeleted c
                   ∧ Contact.linkedId c = Some (Contact.id o)
                   ∧ Contact.id c = i)
    ∧ primaryContactId r ∉ secondaryContactIds r.
Proof.
  apply (response_describes_family 100 twoFamilies (Str "a@x.com")
           (Str "999")).
  exact twoFamilies_dataModel.
Defined.

(** X9.  From a store that satisfies the data model, every identifier the
    request supplies is listed in the response. *)
Theorem response_echoes_identifiers now db email phoneNumber :
  DataModel db →
  ∃ r, (identifyContact now db email phoneNumber).2 = Some r
       ∧ (∀ s, email = Str s → s ≠ "" → s ∈ emails r)
       ∧ (∀ s, phoneNumber = Str s → s ≠ "" → s ∈ phoneNumbers r).
Proof.
  intros Hcons%consistent_dataModel.
  destruct (identifyContact_outcome now db email phoneNumber Hcons)
    as (o & family & Hcons' & Ho & Hpo & Hdo & Hresp & Hfam & He & Hp).
  set (out := identifyContact now db email phoneNumber) in *.
  assert (o ∈ family) as Hof.
  { apply Hfam. split; [done|]. split; [done|by left]. }
  destruct (buildResponse_is_Some family o Hof Hpo) as [r Hr].
  exists r. rewrite Hresp. split; [done|].
  apply buildResponse_inv in Hr as (p & Hhd & _ & -> & -> & _).
  apply head_Some_elem_of, list_elem_of_filter in Hhd as [Hpp Hpin].
  assert (p = o) as -> by by apply (family_primary out.1 o family).
  assert (∀ c, c ∈ family → c = o ∨ isSecondary c) as Hmember.
  { intros c Hc. destruct (primary_or_secondary c) as [Hpc|Hsc]; [|by right].
    left. by apply (family_primary out.1 o family). }
  split; intros s -> Hne; apply elem_of_collected; (split; [done|]).
  - destruct He as (c & s' & Hc & [= <-] & Hcol).
    { unfold supplied. simpl. by apply bool_decide_eq_true. }
    destruct (Hmember c Hc) as [->|Hs]; [by left|]. right. eauto.
  - destruct Hp as (c & s' & Hc & [= <-] & Hcol).
    { unfold supplied. simpl. by apply bool_decide_eq_true. }
    destruct (Hmember c Hc) as [->|Hs]; [by left|]. right. eauto.
Qed.

Lemma response_echoes_identifiers_witness :
  ∃ r, (identifyContact 100 twoFamilies (Str "new@x.com") (Str "999")).2
       = Some r
       ∧ (∀ s, Str "new@x.com" = Str s → s ≠ "" → s ∈ emails r)
       ∧ (∀ s, Str "999" = Str s → s ≠ "" → s ∈ phoneNumbers r).
Proof.
  apply (response_echoes_identifiers 100 twoFamilies (Str "new@x.com")
           (Str "999")).
  exact twoFamilies_dataModel.
Defined.

(** ** Requests that touch one family *)

Lemma familyOf_rootId db r c :
  Consistent db → c ∈ rows db → notDeleted c → rootId c = r →
  familyOf db r c.
Proof.
  intros Hcons Hc Hd Hroot. split; [done|]. split; [done|].
  by apply (rootId_link db).
Qed.

(** When all matches belong to the family of [r], the request takes the
    one-primary branch over the live members of that family. *)
Lemma identifyContact_one_family now db email phoneNumber x r :
  Consistent db →
  x ∈ rows db → matchWhere email phoneNumber x →
  (∀ c, c ∈ rows db → matchWhere email phoneNumber c → rootId c = r) →
  ∃ o family,
    o ∈ rows db ∧ isPrimary o ∧ notDeleted o ∧ Contact.id o = r
    ∧ (∀ c, c ∈ family ↔ familyOf db r c)
    ∧ identifyContact now db email phoneNumber
      = if shouldCreateSecondary family email phoneNumber
        then ((create now db email phoneNumber (Some r) secondary).1,
              buildResponse
                (family
                 ++ [newContact now db email phoneNumber (Some r) secondary]))
        else (db, buildResponse family).
Proof.
  intros Hcons Hx Hmx Hone. unfold identifyContact.
  set (matches := findManyOrdered db (matchWhere email phoneNumber)).
  assert (∀ s, s ∈ matches ↔ matchWhere email phoneNumber s ∧ s ∈ rows db)
    as Hmatches.
  { intros s. apply elem_of_findManyOrdered. }
  assert (∀ s, s ∈ matches → s ∈ rows db) as Hseeds.
  { intros s Hs%Hmatches. tauto. }
  assert (∀ s, s ∈ matches → rootId s = r) as Hroots.
  { intros s [? ?]%Hmatches. by apply Hone. }
  assert (x ∈ matches) as Hxm by by apply Hmatches.
  destruct (root_row db x Hcons Hx) as (o & Ho & Hpo & Hid & Hdo & _).
  rewrite (Hroots x Hxm) in Hid. specialize (Hdo (proj2 Hmx)).
  set (allRelated := getAllRelatedContacts db matches).
  assert (getUniquePrimaries allRelated = [o]) as ->.
  { apply NoDup_singleton_list.
    - eapply NoDup_fmap_1, primaries_NoDup, Hcons.
    - intros q. unfold allRelated. rewrite elem_of_selected by done. split.
      + intros (Hq & Hpq & Hdq & s & Hs & Hroot).
        apply (primaryKey_inj db); [apply Hcons|done..|].
        rewrite <- Hroot, Hid. by apply Hroots.
      + intros ->. split; [done|]. split; [done|]. split; [done|].
        exists x. split; [done|]. rewrite Hid. by apply Hroots. }
  rewrite Hid. set (family := filter _ allRelated).
  exists o, family. split; [done|]. split; [done|]. split; [done|].
  split; [done|]. split; [|by destruct (shouldCreateSecondary _ _ _)].
  intros c. unfold family, familyOf. rewrite list_elem_of_filter.
  unfold allRelated. rewrite elem_of_expanded by done. split.
  - intros (? & ? & ? & _). tauto.
  - intros (Hc & Hd & Hlink). split; [done|]. split; [done|]. split; [done|].
    exists x. split; [done|]. rewrite (Hroots x Hxm).
    destruct Hlink as [Heq|Hl].
    + assert (c = o) as ->
        by (apply (primaryKey_inj db); try apply Hcons; congruence).
      rewrite (rootId_primary db o); done.
    + unfold rootId. by rewrite Hl.
Qed.

Lemma one_family_primary db o r (family : list Contact) c :
  Consistent db → o ∈ rows db → isPrimary o → Contact.id o = r →
  (∀ c, c ∈ family ↔ familyOf db r c) →
  c ∈ family → isPrimary c → Contact.id c = r.
Proof.
  intros Hcons Ho Hpo Hid Hfam (Hc & _ & [Heq|Hl])%Hfam Hpc; [done|].
  rewrite (cons_links db Hcons c Hc Hpc) in Hl. discriminate.
Qed.

(** X11.  In a store that satisfies the data model, let every supplied
    identifier be carried by some live contact and let all live contacts
    carrying one belong to the family of [r].  Then the request writes
    nothing and names [r] as the primary: looking a family up by any of
    its identifiers always gives the same primary. *)
Theorem known_identifiers_write_nothing now db email phoneNumber r :
  DataModel db →
  supplied email ∨ supplied phoneNumber →
  (supplied email →
   ∃ c, c ∈ rows db ∧ notDeleted c ∧ Str <$> Contact.email c = Some email) →
  (supplied phoneNumber →
   ∃ c, c ∈ rows db ∧ notDeleted c
        ∧ Str <$> Contact.phoneNumber c = Some phoneNumber) →
  (∀ c, c ∈ rows db → matchWhere email phoneNumber c → rootId c = r) →
  ∃ resp, identifyContact now db email phoneNumber = (db, Some resp)
          ∧ primaryContactId resp = r.
Proof.
  intros Hcons%consistent_dataModel Hsup He Hp Hone.
  assert (∀ c, c ∈ rows db → notDeleted c →
               (supplied email ∧ Str <$> Contact.email c = Some email)
               ∨ (supplied phoneNumber
                  ∧ Str <$> Contact.phoneNumber c = Some phoneNumber) →
               matchWhere email phoneNumber c) as Hmatch.
  { intros c Hc Hd Hcarry.
    apply (elem_of_findManyOrdered db (matchWhere email phoneNumber) c).
    apply elem_of_matches. done. }
  assert (∃ x, x ∈ rows db ∧ matchWhere email phoneNumber x)
    as (x & Hx & Hmx).
  { destruct Hsup as [Hs|Hs].
    - destruct (He Hs) as (c & Hc & Hd & Hcol). exists c. split; [done|].
      apply Hmatch; auto.
    - destruct (Hp Hs) as (c & Hc & Hd & Hcol). exists c. split; [done|].
      apply Hmatch; auto. }
  destruct (identifyContact_one_family now db email phoneNumber x r)
    as (o & family & Ho & Hpo & Hdo & Hid & Hfam & ->); [done..|].
  assert (shouldCreateSecondary family email phoneNumber = false) as ->.
  { apply not_true_iff_false. rewrite shouldCreateSecondary_true_iff.
    intros [[Hs Hn]|[Hs Hn]]; apply Hn.
    - destruct (He Hs) as (c & Hc & Hd & Hcol).
      destruct email as [| |s]; try discriminate.
      exists c, s. split; [|split; [done|]].
      + apply Hfam, familyOf_rootId; try done. apply Hone; [done|].
        apply Hmatch; auto.
      + destruct (Contact.email c); simpl in Hcol; congruence.
    - destruct (Hp Hs) as (c & Hc & Hd & Hcol).
      destruct phoneNumber as [| |s]; try discriminate.
      exists c, s. split; [|split; [done|]].
      + apply Hfam, familyOf_rootId; try done. apply Hone; [done|].
        apply Hmatch; auto.
      + destruct (Contact.phoneNumber c); simpl in Hcol; congruence. }
  assert (o ∈ family) as Hof.
  { apply Hfam. split; [done|]. split; [done|by left]. }
  destruct (buildResponse_is_Some family o Hof Hpo) as [resp Hresp].
  exists resp. rewrite Hresp. split; [done|].
  apply buildResponse_Some in Hresp as [(q & Hq & Hpq & ->) _].
  by apply (one_family_primary db o r family).
Qed.

Lemma known_identifiers_write_nothing_witness :
  ∃ resp, identifyContact 100 twoFamilies (Str "b2@x.com") Undefined
          = (twoFamilies, Some resp)
          ∧ primaryContactId resp = 3.
Proof.
  apply (known_identifiers_write_nothing 100 twoFamilies (Str "b2@x.com")
           Undefined 3).
  - exact twoFamilies_dataModel.
  - left. reflexivity.
  - intros _. exists youngerSecondary. split; [by_computation|].
    split; reflexivity.
  - discriminate.
  - assert (Forall
              (λ c, matchWhere (Str "b2@x.com") Undefined c → rootId c = 3)
              (rows twoFamilies)) as Hall by by_computation.
    rewrite Forall_forall in Hall. exact Hall.
Defined.

(** X12.  In a store that satisfies the data model, let the request match
    a contact, let all its matches belong to the family of [r], and let one
    supplied identifier be carried by no live contact.  Then the request
    appends exactly one row, a secondary linked to [r] that carries the
    request's fields, and the response names [r] and lists the new id last
    among the secondaries. *)
Theorem new_information_creates_secondary now db email phoneNumber x r :
  DataModel db →
  x ∈ rows db → matchWhere email phoneNumber x →
  (∀ c, c ∈ rows db → matchWhere email phoneNumber c → rootId c = r) →
  (supplied email
   ∧ ∀ c, c ∈ rows db → notDeleted c →
          Str <$> Contact.email c ≠ Some email)
  ∨ (supplied phoneNumber
     ∧ ∀ c, c ∈ rows db → notDeleted c →
            Str <$> Contact.phoneNumber c ≠ Some phoneNumber) →
  ∃ resp,
    identifyContact now db email phoneNumber
    = (mkStore
         (rows db
          ++ [Contact.mk (nextId db) (toColumn phoneNumber) (toColumn email)
                (Some r) secondary now now None])
         (nextId db + 1),
       Some resp)
    ∧ primaryContactId resp = r
    ∧ last (secondaryContactIds resp) = Some (nextId db).
Proof.
  intros Hcons%consistent_dataModel Hx Hmx Hone Hnew.
  destruct (identifyContact_one_family now db email phoneNumber x r)
    as (o & family & Ho & Hpo & Hdo & Hid & Hfam & ->); [done..|].
  assert (shouldCreateSecondary family email phoneNumber = true) as ->.
  { apply shouldCreateSecondary_true_iff.
    destruct Hnew as [[Hs Hnone]|[Hs Hnone]]; [left|right]; (split; [done|]).
    - intros (c & s & (Hc & Hd & _)%Hfam & -> & Hcol).
      apply (Hnone c Hc Hd). by rewrite Hcol.
    - intros (c & s & (Hc & Hd & _)%Hfam & -> & Hcol).
      apply (Hnone c Hc Hd). by rewrite Hcol. }
  set (new := newContact now db email phoneNumber (Some r) secondary).
  assert (o ∈ family ++ [new]) as Hof.
  { apply elem_of_app. left. apply Hfam. split; [done|].
    split; [done|by left]. }
  destruct (buildResponse_is_Some _ o Hof Hpo) as [resp Hresp].
  exists resp. rewrite Hresp. split; [done|].
  apply buildResponse_Some in Hresp as [(q & Hq & Hpq & ->) ->]. split.
  - apply elem_of_app in Hq as [Hq|Hq%list_elem_of_singleton].
    + by apply (one_family_primary db o r family).
    + subst q. discriminate.
  - rewrite filter_app, fmap_app.
    rewrite (filter_cons_True isSecondary new) by done.
    rewrite filter_nil. simpl. by rewrite last_snoc.
Qed.

Lemma new_information_creates_secondary_witness :
  ∃ resp,
    identifyContact 100 store2 (Str "a@x.com") (Str "999")
    = (mkStore
         (rows store2
          ++ [Contact.mk 2 (Some "999") (Some "a@x.com") (Some 1) secondary
                100 100 None])
         3,
       Some resp)
    ∧ primaryContactId resp = 1
    ∧ last (secondaryContactIds resp) = Some 2.
Proof.
  apply (new_information_creates_secondary 100 store2 (Str "a@x.com")
           (Str "999")
           (Contact.mk 1 (Some "123") (Some "a@x.com") None primary 10 10 None)
           1).
  - apply consistent_dataModel, consistentCheck_sound. by_computation.
  - by_computation.
  - by_computation.
  - assert (Forall
              (λ c, matchWhere (Str "a@x.com") (Str "999") c → rootId c = 1)
              (rows store2)) as Hall by by_computation.
    rewrite Forall_forall in Hall. exact Hall.
  - right. split; [reflexivity|].
    assert (Forall
              (λ c, notDeleted c →
                    Str <$> Contact.phoneNumber c ≠ Some (Str "999"))
              (rows store2)) as Hall by by_computation.
    rewrite Forall_forall in Hall. exact Hall.
Defined.

(** ** What the merge loop does to the links *)

Lemma mergeRows_untouched now o others db c :
  Consistent db →
  o ∈ rows db → isPrimary o → notDeleted o →
  Forall (λ p, p ∈ rows db ∧ isPrimary p ∧ Contact.id p ≠ Contact.id o)
    others →
  NoDup (Contact.id <$> others) →
  c ∈ rows db → rootId c ∉ Contact.id <$> others →
  mergeRows now (Contact.id o) others c = c.
Proof.
  intros Hcons Ho Hpo Hdo Hall Hnd Hc Hroot.
  revert db c Hcons Ho Hall Hnd Hc Hroot.
  induction others as [|p l IH]; intros db c Hcons Ho Hall Hnd Hc Hroot;
    [done|].
  apply Forall_cons in Hall as [(Hp & Hpp & Hne) Hall].
  cbn in Hnd. apply NoDup_cons in Hnd as [Hpl Hnd].
  rewrite fmap_cons, not_elem_of_cons in Hroot. destruct Hroot as [Hrp Hrl].
  destruct (mergeStep_consistent now db o p) as [Hcons' Hkeep]; [done..|].
  rewrite mergeRows_cons.
  assert (mergeRow now (Contact.id o) (Contact.id p) c = c) as Hsame.
  { apply mergeRow_other.
    - intros Heq. apply Hrp.
      assert (c = p) as -> by by apply (primaryKey_inj db); try apply Hcons.
      by apply (rootId_primary db).
    - intros Hl. apply Hrp. unfold rootId. by rewrite Hl. }
  rewrite Hsame. apply (IH (mergeStep now (Contact.id o) db p)); try done.
  - apply Hkeep; [done..|congruence].
  - rewrite Forall_forall in Hall. apply Forall_forall. intros q Hq.
    destruct (Hall q Hq) as (Hqr & Hpq & Hqo). split; [|done].
    apply Hkeep; [done..|]. intros Heq. apply Hpl.
    apply list_elem_of_fmap. exists q. done.
  - apply elem_of_mergeStep. exists c. done.
Qed.

(** X13.  After the merge loop has run over the primaries other than the
    survivor, every one of them is a secondary linked to the survivor, no
    row is linked to any of them any more, and the rows of families that
    were not merged are left exactly as they were. *)
Theorem merge_flattens now db o others :
  DataModel db →
  o ∈ rows db → isPrimary o → notDeleted o →
  Forall (λ p, p ∈ rows db ∧ isPrimary p ∧ Contact.id p ≠ Contact.id o)
    others →
  NoDup (Contact.id <$> others) →
  let db' := foldl (execWrite now) db (mergeWrites (Contact.id o) others) in
  (∀ p, p ∈ others →
        ∃ p', p' ∈ rows db' ∧ Contact.id p' = Contact.id p
              ∧ isSecondary p'
              ∧ Contact.linkedId p' = Some (Contact.id o))
  ∧ (∀ c p, c ∈ rows db' → p ∈ others →
            Contact.linkedId c ≠ Some (Contact.id p))
  ∧ (∀ c, c ∈ rows db → rootId c ∉ Contact.id <$> others → c ∈ rows db').
Proof.
  intros Hcons%consistent_dataModel Ho Hpo Hdo Hall Hnd. cbv zeta.
  rewrite mergeWrites_foldl.
  destruct (mergeLoop_consistent now o others db) as (Hcons' & Ho' & _);
    [done..|].
  revert Hcons' Ho'. rewrite mergeLoop_rows.
  set (db' := mkStore _ (nextId db)). intros Hcons' Ho'.
  assert (∀ c, c ∈ rows db →
               rootId (mergeRows now (Contact.id o) others c)
               = if decide (rootId c ∈ Contact.id <$> others)
                 then Contact.id o else rootId c) as Hroot.
  { intros c Hc. by apply (mergeRows_rootId now o others db). }
  assert (∀ p, p ∈ others → Contact.id p ≠ Contact.id o) as Hne.
  { intros p Hp. rewrite Forall_forall in Hall. by destruct (Hall p Hp)
      as (_ & _ & ?). }
  split; [|split].
  - intros p Hp. rewrite Forall_forall in Hall.
    destruct (Hall p Hp) as (Hpr & Hpp & Hpo').
    exists (mergeRows now (Contact.id o) others p).
    assert (mergeRows now (Contact.id o) others p ∈ rows db') as Hin.
    { simpl. by apply list_elem_of_fmap_2. }
    destruct (mergeRows_fields now (Contact.id o) others p) as (Hid & _).
    assert (Contact.linkedId (mergeRows now (Contact.id o) others p)
            = Some (Contact.id o)) as Hl.
    { destruct (rootId_link db' (mergeRows now (Contact.id o) others p)
                  (Contact.id o)) as [Heq|Hl]; try done.
      - rewrite Hroot by done. rewrite decide_True; [done|].
        rewrite (rootId_primary db p) by done. by apply list_elem_of_fmap_2.
      - congruence. }
    split; [done|]. split; [done|]. split; [|done].
    by destruct (consistent_link db' _ o Hcons' Hin Ho' Hl).
  - intros c' p (c & -> & Hc)%list_elem_of_fmap Hp Hl.
    assert (rootId (mergeRows now (Contact.id o) others c) = Contact.id p)
      as Hr by (unfold rootId; by rewrite Hl).
    rewrite Hroot in Hr by done.
    destruct (decide (rootId c ∈ Contact.id <$> others)) as [Hin|Hin].
    + by apply (Hne p Hp).
    + apply Hin. rewrite Hr. by apply list_elem_of_fmap_2.
  - intros c Hc Hr. simpl. apply list_elem_of_fmap. exists c.
    split; [|done]. symmetry. by apply (mergeRows_untouched now o others db).
Qed.

Lemma merge_flattens_witness :
  let db' := foldl (execWrite 100) twoFamilies
               (mergeWrites 1 [youngerPrimary]) in
  (∀ p, p ∈ [youngerPrimary] →
        ∃ p', p' ∈ rows db' ∧ Contact.id p' = Contact.id p
              ∧ isSecondary p' ∧ Contact.linkedId p' = Some 1)
  ∧ (∀ c p, c ∈ rows db' → p ∈ [youngerPrimary] →
            Contact.linkedId c ≠ Some (Contact.id p))
  ∧ (∀ c, c ∈ rows twoFamilies →
          rootId c ∉ Contact.id <$> [youngerPrimary] → c ∈ rows db').
Proof.
  apply (merge_flattens 100 twoFamilies olderPrimary [youngerPrimary]).
  - exact twoFamilies_dataModel.
  - by_computation.
  - reflexivity.
  - reflexivity.
  - by_computation.
  - by_computation.
Defined.

(** ** A request without identifiers *)

Lemma pushTruthy_blank a : truthy a = false → pushTruthy (toColumn a) = [].
Proof. destruct a as [| |s]; simpl; try done. by intros ->. Qed.

(** X14.  A request in which neither field is a non-empty string, which
    only the validation in the route keeps away from the service, matches
    nothing whatever the store holds: every such call appends one more
    primary and answers with empty lists. *)
Theorem blank_request_adds_primary now db email phoneNumber :
  ¬ supplied email → ¬ supplied phoneNumber →
  identifyContact now db email phoneNumber
  = (mkStore
       (rows db
        ++ [Contact.mk (nextId db) (toColumn phoneNumber) (toColumn email)
              None primary now now None])
       (nextId db + 1),
     Some (mkResponse (nextId db) [] [] [])).
Proof.
  intros He%not_true_iff_false Hp%not_true_iff_false.
  unfold identifyContact, findManyOrdered.
  rewrite filter_none.
  - simpl. unfold buildResponse. simpl.
    by rewrite !pushTruthy_blank.
  - intros c _ [Hex _]. unfold orClauses in *.
    destruct email as [| |s], phoneNumber as [| |t]; simpl in *;
      repeat (destruct (bool_decide _)); simpl in *;
      try (by apply Exists_nil in Hex); congruence.
Qed.

Lemma blank_request_adds_primary_witness :
  identifyContact 100 store2 (Str "") Null
  = (mkStore
       (rows store2 ++ [Contact.mk 2 None (Some "") None primary 100 100 None])
       3,
     Some (mkResponse 2 [] [] [])).
Proof.
  apply (blank_request_adds_primary 100 store2 (Str "") Null); discriminate.
Defined.

(** ** GraphExpander: the order of the seeds *)

Lemma filter_ext_in {A} (P Q : A → Prop) `{!∀ x, Decision (P x)}
    `{!∀ x, Decision (Q x)} (l : list A) :
  (∀ x, x ∈ l → P x ↔ Q x) → filter P l = filter Q l.
Proof.
  induction l as [|a l IH]; intros Hext; [done|].
  rewrite !filter_cons.
  assert (P a ↔ Q a) as Ha by (apply Hext; left).
  rewrite IH by (intros x Hx; apply Hext; by right).
  destruct (decide (P a)), (decide (Q a)); tauto.
Qed.

Lemma getAllRelatedContacts_filter db matches :
  getAllRelatedContacts db matches
  = sortByCreatedAt
      (filter (λ c, c ∈ getAllRelatedContacts db matches) (rows db)).
Proof.
  destruct (getAllRelatedContacts_cases db matches) as [->|(ids & _ & _ & ->)].
  - rewrite filter_none; [done|]. intros c _ Hc. by apply elem_of_nil in Hc.
  - unfold findManyOrdered at 1. f_equal. apply filter_ext_in.
    intros c Hc. rewrite elem_of_findManyOrdered. tauto.
Qed.

(** X15.  Over a table with unique ids, two seed lists taken from the
    table that hold the same contacts, in whatever order and multiplicity,
    expand to the same list. *)
Theorem expansion_ignores_seed_order db matches1 matches2 :
  primaryKey db →
  (∀ s, s ∈ matches1 → s ∈ rows db) →
  (∀ s, s ∈ matches1 ↔ s ∈ matches2) →
  getAllRelatedContacts db matches1 = getAllRelatedContacts db matches2.
Proof.
  intros Hkey Hrows Hsame.
  rewrite (getAllRelatedContacts_filter db matches1),
    (getAllRelatedContacts_filter db matches2).
  f_equal. apply filter_ext_in. intros c _.
  rewrite !elem_of_getAllRelatedContacts; try done.
  - unfold reachable. split; intros (? & ? & s & Hs & ?);
      (split; [done|]); (split; [done|]); exists s; (split; [|done]);
      by apply Hsame.
  - intros s Hs. by apply Hrows, Hsame.
Qed.

Lemma expansion_ignores_seed_order_witness :
  getAllRelatedContacts twoFamilies [olderSecondary; youngerPrimary]
  = getAllRelatedContacts twoFamilies
      [youngerPrimary; olderSecondary; youngerPrimary].
Proof.
  apply (expansion_ignores_seed_order twoFamilies
           [olderSecondary; youngerPrimary]
           [youngerPrimary; olderSecondary; youngerPrimary]).
  - by_computation.
  - apply Forall_forall. by_computation.
  - intros s. rewrite !elem_of_cons. tauto.
Defined.

(** ** The order of the response lists *)

Lemma getAllRelatedContacts_sorted db matches :
  StronglySorted createdAtLe (getAllRelatedContacts db matches).
Proof.
  destruct (getAllRelatedContacts_cases db matches) as [->|(ids & _ & _ & ->)].
  - constructor.
  - apply findManyOrdered_sorted.
Qed.

(** The last step of both branches that found a family: the list the
    response is built from is the family as it was read, followed by the
    secondary the request creates, if it creates one. *)
Lemma finish_family_order now db email phoneNumber o family :
  Consistent db →
  o ∈ rows db → isPrimary o → notDeleted o →
  (∀ c, c ∈ family ↔ familyOf db (Contact.id o) c) →
  let created :=
    create now db email phoneNumber (Some (Contact.id o)) secondary in
  let out :=
    if shouldCreateSecondary family email phoneNumber
    then (created.1, buildResponse (family ++ [created.2]))
    else (db, buildResponse family) in
  ∃ extra,
    out.2 = buildResponse (family ++ extra)
    ∧ Consistent out.1 ∧ o ∈ rows out.1
    ∧ (∀ c, c ∈ family
            ↔ familyOf out.1 (Contact.id o) c ∧ Contact.id c ≠ nextId db)
    ∧ (∀ c, c ∈ extra ↔ c ∈ rows out.1 ∧ Contact.id c = nextId db)
    ∧ (∀ c, c ∈ extra →
            Contact.createdAt c = now ∧ familyOf out.1 (Contact.id o) c)
    ∧ (length extra ≤ 1)%nat.
Proof.
  intros Hcons Ho Hpo Hdo Hfam. cbv zeta.
  destruct (cons_serial db Hcons) as [_ Hids].
  destruct (shouldCreateSecondary family email phoneNumber) eqn:Hcreate.
  - set (new := newContact now db email phoneNumber (Some (Contact.id o))
                  secondary).
    exists [new]. split; [done|]. split.
    { apply (create_consistent now db email phoneNumber
               (Some (Contact.id o)) secondary); [done|].
      right. split; [done|]. exists o. done. }
    split; [by apply create_rows|].
    assert (familyOf (create now db email phoneNumber (Some (Contact.id o))
                        secondary).1 (Contact.id o) new) as Hnewfam.
    { split; [simpl; apply elem_of_app; right; by left|].
      split; [done|]. by right. }
    split; [|split; [|split]].
    + intros c. rewrite Hfam. unfold familyOf. simpl.
      rewrite elem_of_app, list_elem_of_singleton. split.
      * intros (Hc & Hd & Hl). split; [tauto|]. specialize (Hids c Hc). lia.
      * intros (([Hc| ->] & Hd & Hl) & Hne); [done|]. by destruct Hne.
    + intros c. simpl. rewrite elem_of_app, !list_elem_of_singleton. split.
      * intros ->. split; [by right|done].
      * intros [[Hc| ->] Hid]; [|done]. specialize (Hids c Hc). lia.
    + intros c ->%list_elem_of_singleton. split; [done|exact Hnewfam].
    + simpl. lia.
  - exists []. rewrite app_nil_r. split; [done|]. split; [done|].
    split; [done|]. split; [|split; [|split]].
    + intros c. rewrite Hfam. split; [|tauto]. intros Hf. split; [done|].
      destruct Hf as (Hc & _). specialize (Hids c Hc). simpl. lia.
    + intros c. split; [inversion 1|]. intros [Hc Hid]. simpl in Hc.
      specialize (Hids c Hc). lia.
    + intros c Hc. inversion Hc.
    + simpl. lia.
Qed.

(** From a consistent store, the response is built from the live members
    of one family that were in the table before the request, in ascending
    [createdAt] order, followed by the contact the request creates, if it
    creates one. *)
Lemma identifyContact_family_order now db email phoneNumber :
  Consistent db →
  let out := identifyContact now db email phoneNumber in
  ∃ o stored extra,
    Consistent out.1
    ∧ o ∈ rows out.1 ∧ isPrimary o ∧ notDeleted o
    ∧ out.2 = buildResponse (stored ++ extra)
    ∧ StronglySorted createdAtLe stored
    ∧ (∀ c, c ∈ stored
            ↔ familyOf out.1 (Contact.id o) c ∧ Contact.id c ≠ nextId db)
    ∧ (∀ c, c ∈ stored →
            ∃ c0, c0 ∈ rows db ∧ Contact.createdAt c0 = Contact.createdAt c)
    ∧ (∀ c, c ∈ extra ↔ c ∈ rows out.1 ∧ Contact.id c = nextId db)
    ∧ (∀ c, c ∈ extra →
            Contact.createdAt c = now ∧ familyOf out.1 (Contact.id o) c)
    ∧ (length extra ≤ 1)%nat.
Proof.
  intros Hcons. cbv zeta. unfold identifyContact.
  set (matches := findManyOrdered db (matchWhere email phoneNumber)).
  assert (∀ s, s ∈ matches → s ∈ rows db) as Hseeds.
  { intros s Hs%elem_of_matches. tauto. }
  set (allRelated := getAllRelatedContacts db matches).
  assert (∀ q, q ∈ getUniquePrimaries allRelated →
               q ∈ rows db ∧ isPrimary q ∧ notDeleted q
               ∧ ∃ s, s ∈ matches ∧ rootId s = Contact.id q) as Hprim.
  { intros q Hq. by apply elem_of_selected in Hq. }
  pose proof (primaries_NoDup db matches (cons_key db Hcons)) as Hnd.
  fold allRelated in Hnd.
  destruct (cons_serial db Hcons) as [_ Hids].
  destruct (getUniquePrimaries allRelated) as [|q [|q2 l]] eqn:Hps.
  - (* a new primary *)
    set (new := newContact now db email phoneNumber None primary).
    exists new, [], [new]. simpl.
    assert (Consistent (create now db email phoneNumber None primary).1)
      as Hcons'.
    { apply create_consistent; [done|by left]. }
    assert (new ∈ rows db ++ [new]) as Hnew.
    { apply elem_of_app; right; by left. }
    split; [done|]. split; [done|]. split; [done|]. split; [done|].
    split; [done|]. split; [constructor|]. split; [|split; [|split; [|split]]].
    + intros c. split; [inversion 1|]. unfold familyOf. simpl.
      rewrite elem_of_app, list_elem_of_singleton.
      intros (([Hc| ->] & _ & Hlink) & Hne); [|by destruct Hne]. exfalso.
      destruct Hlink as [Hid|Hl].
      * specialize (Hids c Hc). lia.
      * destruct (primary_or_secondary c) as [Hp|Hs].
        -- rewrite (cons_links db Hcons c Hc Hp) in Hl. discriminate.
        -- destruct (cons_inv1 db Hcons c Hc Hs) as (p & Hp & Hlp & _).
           specialize (Hids p Hp). rewrite Hlp in Hl. injection Hl. lia.
    + intros c Hc. inversion Hc.
    + intros c. rewrite elem_of_app, !list_elem_of_singleton. split.
      * intros ->. split; [by right|done].
      * intros [[Hc| ->] Hid]; [|done]. specialize (Hids c Hc). lia.
    + intros c ->%list_elem_of_singleton. split; [done|].
      split; [done|]. split; [done|by left].
    + lia.
  - (* one family *)
    destruct (Hprim q) as (Hq & Hpq & Hdq & s & Hs & Hroot); [by left|].
    set (family := filter _ allRelated).
    assert (∀ c, c ∈ family ↔ familyOf db (Contact.id q) c) as Hfam.
    { intros c. unfold family, familyOf. rewrite list_elem_of_filter.
      unfold allRelated. rewrite elem_of_expanded by done. split.
      - intros (? & ? & ? & _). tauto.
      - intros (Hc & Hd & Hlink). split; [done|]. split; [done|].
        split; [done|]. exists s. split; [done|]. rewrite Hroot.
        destruct Hlink as [Hid|Hl].
        + assert (c = q) as -> by by apply (primaryKey_inj db); try apply Hcons.
          by rewrite (rootId_primary db q).
        + unfold rootId. by rewrite Hl. }
    destruct (finish_family_order now db email phoneNumber q family)
      as (extra & H1 & H2 & H3 & H4 & H5 & H6 & H7); [done..|].
    exists q, family, extra.
    assert (StronglySorted createdAtLe family) as Hsorted.
    { apply StronglySorted_filter, getAllRelatedContacts_sorted. }
    assert (∀ c, c ∈ family →
                 ∃ c0, c0 ∈ rows db
                       ∧ Contact.createdAt c0 = Contact.createdAt c) as Hold.
    { intros c Hc%Hfam. exists c. split; [apply Hc|done]. }
    destruct (shouldCreateSecondary family email phoneNumber); simpl in *;
      done.
  - (* several families *)
    assert (getUniquePrimaries allRelated ≠ []) as Hne by by rewrite Hps.
    rewrite <- Hps in *. clear Hps q q2 l.
    set (primaries := getUniquePrimaries allRelated) in *.
    destruct (oldestOf_is_Some primaries Hne) as [o Ho].
    rewrite (mergePrimaries_shape now db primaries _ email phoneNumber o Ho).
    destruct (oldestOf_spec _ _ Ho) as [Hoin _].
    destruct (Hprim o Hoin) as (Hor & Hpo & Hdo & _).
    set (others := filter (λ p, Contact.id p ≠ Contact.id o) primaries).
    destruct (mergeLoop_consistent now o others db) as (Hcons1 & Ho1 & Hnext);
      [done..| | |].
    { apply Forall_forall. intros p (Hp & Hpin)%list_elem_of_filter.
      destruct (Hprim p Hpin) as (? & ? & ? & _). done. }
    { eapply sublist_NoDup; [exact Hnd|]. apply fmap_sublist, sublist_filter. }
    assert (∀ c, c ∈ rows (foldl (mergeStep now (Contact.id o)) db others) →
                 ∃ c0, c0 ∈ rows db
                       ∧ Contact.createdAt c0 = Contact.createdAt c) as Hold1.
    { rewrite mergeLoop_rows. simpl. intros c Hc.
      apply list_elem_of_fmap in Hc as (c0 & -> & Hc0). exists c0.
      split; [done|]. symmetry. apply mergeRows_kept. }
    set (db1 := foldl (mergeStep now (Contact.id o)) db others) in *.
    set (family := findManyOrdered db1 (familyWhere (Contact.id o))).
    assert (∀ c, c ∈ family ↔ familyOf db1 (Contact.id o) c) as Hfam.
    { intros c. unfold family, familyOf, familyWhere.
      rewrite elem_of_findManyOrdered. tauto. }
    destruct (finish_family_order now db1 email phoneNumber o family)
      as (extra & H1 & H2 & H3 & H4 & H5 & H6 & H7); [done..|].
    rewrite Hnext in H4, H5.
    exists o, family, extra.
    assert (StronglySorted createdAtLe family) as Hsorted.
    { apply findManyOrdered_sorted. }
    assert (∀ c, c ∈ family →
                 ∃ c0, c0 ∈ rows db
                       ∧ Contact.createdAt c0 = Contact.createdAt c) as Hold.
    { intros c Hc%Hfam. apply Hold1, Hc. }
    destruct (shouldCreateSecondary family email phoneNumber); simpl in *;
      done.
Qed.

(** C8 (as amended).  On a store that satisfies the data model every
    request is answered from one family: a live primary [o]; [older], the
    live secondaries of [o] that were in the table before the request, in
    ascending [createdAt] order; and [created], the secondary the request
    itself adds, if it adds one.  [emails] and [phoneNumbers] contain no
    duplicates; they list the value of [o] first whenever it is a non-empty
    string, then the values of [older] and last that of [created], skipping
    nulls, empty strings and values already included.
    [secondaryContactIds] lists the ids of [older] and then that of
    [created].  Whenever no [createdAt] of the table is later than the clock
    reading of the request, that is ascending [createdAt] order
    throughout. *)
Theorem response_lists_order now db email phoneNumber :
  DataModel db →
  let out := identifyContact now db email phoneNumber in
  ∃ r o older created,
    out.2 = Some r
    ∧ o ∈ rows out.1 ∧ isPrimary o ∧ notDeleted o
    ∧ primaryContactId r = Contact.id o
    ∧ (∀ c, c ∈ older
            ↔ c ∈ rows out.1 ∧ notDeleted c
              ∧ Contact.linkedId c = Some (Contact.id o)
              ∧ Contact.id c ≠ nextId db)
    ∧ StronglySorted createdAtLe older
    ∧ (∀ c, c ∈ created
            ↔ c ∈ rows out.1
              ∧ Contact.linkedId c = Some (Contact.id o)
              ∧ Contact.id c = nextId db)
    ∧ (length created ≤ 1)%nat
    ∧ NoDup (emails r) ∧ NoDup (phoneNumbers r)
    ∧ emails r
      = firstOccurrences (nonEmpty Contact.email (o :: older ++ created))
    ∧ phoneNumbers r
      = firstOccurrences
          (nonEmpty Contact.phoneNumber (o :: older ++ created))
    ∧ (∀ s, Contact.email o = Some s → s ≠ "" → head (emails r) = Some s)
    ∧ (∀ s, Contact.phoneNumber o = Some s → s ≠ "" →
            head (phoneNumbers r) = Some s)
    ∧ secondaryContactIds r = Contact.id <$> (older ++ created)
    ∧ ((∀ c, c ∈ rows db → Contact.createdAt c ≤ now) →
       StronglySorted createdAtLe (older ++ created)).
Proof.
  intros Hcons%consistent_dataModel. cbv zeta.
  destruct (identifyContact_family_order now db email phoneNumber Hcons)
    as (o & stored & extra & Hcons' & Ho & Hpo & Hdo & Hout & Hsorted
        & Hstored & Hold & Hextra & Hnew & Hlen).
  set (out := identifyContact now db email phoneNumber) in *.
  assert (∀ c, c ∈ stored ++ extra → familyOf out.1 (Contact.id o) c) as Hfam.
  { intros c [Hc|Hc]%elem_of_app; [by apply Hstored|by apply Hnew]. }
  assert (∀ c, familyOf out.1 (Contact.id o) c →
               (isSecondary c ↔ Contact.linkedId c = Some (Contact.id o)))
    as Hsec.
  { intros c (Hc & _ & Hlink). split.
    - intros Hs. destruct Hlink as [Hid|Hl]; [|done].
      assert (c = o) as -> by by apply (primaryKey_inj out.1); try apply Hcons'.
      unfold isPrimary, isSecondary in *. congruence.
    - intros Hl. by destruct (consistent_link out.1 c o). }
  assert (o ∈ stored ++ extra) as Hoin.
  { apply elem_of_app.
    destruct (decide (Contact.id o = nextId db)) as [Hid|Hid].
    - right. by apply Hextra.
    - left. apply Hstored. split; [|done]. split; [done|]. split; [done|].
      by left. }
  assert (head (filter isPrimary (stored ++ extra)) = Some o) as Hhead.
  { destruct (filter isPrimary (stored ++ extra)) as [|h t] eqn:Hf.
    - assert (o ∈ filter isPrimary (stored ++ extra)) as Hin
        by by apply list_elem_of_filter.
      rewrite Hf in Hin. inversion Hin.
    - assert (h ∈ filter isPrimary (stored ++ extra)) as Hin
        by (rewrite Hf; by left).
      apply list_elem_of_filter in Hin as [Hph Hin]. simpl. f_equal.
      specialize (Hfam h Hin). pose proof (Hsec h Hfam) as Hiff.
      destruct Hfam as (Hh & _ & [Hid|Hl]).
      + by apply (primaryKey_inj out.1); try apply Hcons'.
      + apply Hiff in Hl. unfold isPrimary, isSecondary in *. congruence. }
  destruct (buildResponse_collects _ o Hhead)
    as (r & Hr & Hid & Hnd1 & Hnd2 & He & Hp & Hhe & Hhp & Hids).
  rewrite filter_app in He, Hp, Hids.
  exists r, o, (filter isSecondary stored), (filter isSecondary extra).
  split; [by rewrite Hout|]. do 4 (split; [done|]). split.
  { intros c. rewrite list_elem_of_filter, Hstored. split.
    - intros (Hs & Hf & Hne). pose proof (proj1 (Hsec c Hf) Hs) as Hl.
      destruct Hf as (? & ? & _). done.
    - intros (Hc & Hd & Hl & Hne).
      assert (familyOf out.1 (Contact.id o) c) as Hf.
      { split; [done|]. split; [done|]. by right. }
      split; [by apply Hsec|done]. }
  split; [by apply StronglySorted_filter|]. split.
  { intros c. rewrite list_elem_of_filter, Hextra. split.
    - intros (Hs & Hc & Hidc). split; [done|]. split; [|done].
      apply Hsec; [|done]. apply Hnew. by apply Hextra.
    - intros (Hc & Hl & Hidc). split; [|done].
      apply Hsec; [|done]. apply Hnew. by apply Hextra. }
  split.
  { etransitivity; [apply length_filter|done]. }
  do 7 (split; [done|]).
  intros Hclock. apply StronglySorted_app_2.
  - intros x1 x2 [_ Hx1]%list_elem_of_filter [_ Hx2]%list_elem_of_filter.
    destruct (Hold x1 Hx1) as (c0 & Hc0 & Heq).
    destruct (Hnew x2 Hx2) as [Hnow _].
    specialize (Hclock c0 Hc0). unfold createdAtLe. lia.
  - by apply StronglySorted_filter.
  - destruct (filter isSecondary extra) as [|x [|y t]] eqn:Hf.
    + constructor.
    + repeat constructor.
    + assert (length (filter isSecondary extra) ≤ 1)%nat as Hle.
      { etransitivity; [apply length_filter|done]. }
      rewrite Hf in Hle. simpl in Hle. lia.
Qed.

Lemma response_lists_order_witness :
  ∃ r older created,
    (identifyContact 15 lateStore (Str "a@x.com") (Str "999")).2 = Some r
    ∧ StronglySorted createdAtLe older
    ∧ (length created ≤ 1)%nat
    ∧ NoDup (emails r) ∧ NoDup (phoneNumbers r)
    ∧ secondaryContactIds r = Contact.id <$> (older ++ created).
Proof.
  destruct (response_lists_order 15 lateStore (Str "a@x.com") (Str "999"))
    as (r & o & older & created & Hr & _ & _ & _ & _ & _ & Hsorted & _
        & Hlen & Hnd1 & Hnd2 & _ & _ & _ & _ & Hids & _).
  - apply consistent_dataModel, consistentCheck_sound. by_computation.
  - exists r, older, created. repeat split; assumption.
Defined.

(** C8, as stated, fails in two ways.  A primary created for a request whose
    email is the empty string has a non-NULL email, and the response lists
    no email at all.  And a secondary created by the request is listed
    last, also when a secondary of the family carries a later [createdAt]:
    here contact 3, created at 15, follows contact 2, created at 20. *)
Lemma response_skips_empty_strings_and_lists_created_last :
  (fst (identifyContact 100 emptyStore (Str "") (Str "123"))
   = mkStore emptyEmailFamily 2
   ∧ ∃ r, buildResponse emptyEmailFamily = Some r
          ∧ emails r = []
          ∧ firstOccurrences (nonNull Contact.email emptyEmailFamily) = [""]
          ∧ emails r
            ≠ firstOccurrences (nonNull Contact.email emptyEmailFamily))
  ∧ (DataModel lateStore
     ∧ identifyContact 15 lateStore (Str "a@x.com") (Str "999")
       = (mkStore
            (rows lateStore
             ++ [Contact.mk 3 (Some "999") (Some "a@x.com") (Some 1)
                   secondary 15 15 None]) 4,
          Some (mkResponse 1 ["a@x.com"] ["111"; "222"; "999"] [2; 3]))
     ∧ ¬ StronglySorted createdAtLe
           [lateSecondary;
            Contact.mk 3 (Some "999") (Some "a@x.com") (Some 1) secondary
              15 15 None]).
Proof.
  split.
  - split; [vm_compute; reflexivity|].
    eexists. split; [vm_compute; reflexivity|]. simpl.
    split; [reflexivity|]. split; [vm_compute; reflexivity|]. discriminate.
  - split.
    { apply consistent_dataModel, consistentCheck_sound. by_computation. }
    split; [vm_compute; reflexivity|].
    intros Hs. apply StronglySorted_inv in Hs as [_ Hall].
    apply Forall_cons in Hall as [Hle _].
    unfold createdAtLe in Hle. simpl in Hle. lia.
Qed.
